(** * nicepay-mcp: the markdown parser and the document indexer

    A shallow embedding of [src/utils/markdownParser.ts] and
    [src/utils/docIndexer.ts] (with the start-up code of [src/index.ts] that
    calls [buildIndex]), and the properties of the written specification
    proved or refuted on it.

    JavaScript strings are sequences of UTF-16 code units; they are modelled
    as lists of code units ([N]).  Line and column numbers are JavaScript
    numbers used as integers; they are modelled in [Z]. *)

From Stdlib Require Import List NArith ZArith Bool Lia Permutation Sorted.
From Stdlib Require Import Strings.String Strings.Ascii.
Import ListNotations.

Set Implicit Arguments.

(* ===================================================================== *)
(** * The JavaScript string operations used by the sources *)
(* ===================================================================== *)

Module JS.

Definition jsstring := list N.

(** A literal of the sources, written in ASCII. *)
Definition lit (s : string) : jsstring :=
  List.map (fun a => N_of_ascii a) (list_ascii_of_string s).

Definition inRange (lo hi c : N) : bool := (N.leb lo c && N.leb c hi)%bool.

Fixpoint streq (a b : jsstring) : bool :=
  match a, b with
  | [], [] => true
  | x :: a', y :: b' => (N.eqb x y && streq a' b')%bool
  | _, _ => false
  end.

(** ECMAScript [WhiteSpace] and [LineTerminator]: what the regular
    expression class [\s] matches and what [String.prototype.trim] strips. *)
Definition isWhiteSpace (c : N) : bool :=
  (inRange 9 13 c || N.eqb c 32 || N.eqb c 160 || N.eqb c 5760
   || inRange 8192 8202 c || N.eqb c 8232 || N.eqb c 8233 || N.eqb c 8239
   || N.eqb c 8287 || N.eqb c 12288 || N.eqb c 65279)%bool.

(** [LineTerminator]: what the regular expression [.] does not match. *)
Definition isLineTerminator (c : N) : bool :=
  (N.eqb c 10 || N.eqb c 13 || N.eqb c 8232 || N.eqb c 8233)%bool.

Definition isDot (c : N) : bool := negb (isLineTerminator c).

Definition isUpper (c : N) : bool := inRange 65 90 c.
Definition isLower (c : N) : bool := inRange 97 122 c.
Definition isLetter (c : N) : bool := (isUpper c || isLower c)%bool.
Definition isDigit (c : N) : bool := inRange 48 57 c.
Definition isAlnum (c : N) : bool := (isLetter c || isDigit c)%bool.

(** The class [\w] (no unicode flag): [A-Za-z0-9_]. *)
Definition isWord (c : N) : bool := (isAlnum c || N.eqb c 95)%bool.

(** The class [\uAC00-\uD7A3]: the precomposed Hangul syllables. *)
Definition isHangul (c : N) : bool := inRange 44032 55203 c.

Definition HASH : N := 35.
Definition HYPHEN : N := 45.
Definition PIPE : N := 124.
Definition NEWLINE : N := 10.
Definition LBRACKET : N := 91.
Definition RBRACKET : N := 93.
Definition LPAREN : N := 40.
Definition RPAREN : N := 41.
Definition DQUOTE : N := 34.

Definition isChar (x : N) (c : N) : bool := N.eqb c x.
Definition isNotChar (x : N) (c : N) : bool := negb (N.eqb c x).

(** A string as a condition: the empty string is the only false one. *)
Definition truthy (s : jsstring) : bool := Nat.ltb 0 (List.length s).

(** [String.prototype.trim], [trimStart], [trimEnd]. *)
Fixpoint trimStart (s : jsstring) : jsstring :=
  match s with
  | c :: s' => if isWhiteSpace c then trimStart s' else s
  | [] => []
  end.

Fixpoint trimEnd (s : jsstring) : jsstring :=
  match s with
  | c :: s' =>
      match trimEnd s' with
      | [] => if isWhiteSpace c then [] else [c]
      | t => c :: t
      end
  | [] => []
  end.

Definition trim (s : jsstring) : jsstring := trimEnd (trimStart s).

(** [String.prototype.startsWith], [endsWith], [includes]. *)
Fixpoint startsWith (s t : jsstring) : bool :=
  match t, s with
  | [], _ => true
  | y :: t', x :: s' => (N.eqb x y && startsWith s' t')%bool
  | _ :: _, [] => false
  end.

Definition endsWith (s t : jsstring) : bool := startsWith (rev s) (rev t).

Fixpoint includes (s t : jsstring) : bool :=
  (startsWith s t ||
   match s with
   | [] => false
   | _ :: s' => includes s' t
   end)%bool.

(** [s.split(sep)] for a separator of one code unit. *)
Fixpoint split (sep : N) (s : jsstring) : list jsstring :=
  match s with
  | [] => [[]]
  | c :: s' =>
      if N.eqb c sep then [] :: split sep s'
      else match split sep s' with
           | piece :: pieces => (c :: piece) :: pieces
           | [] => [[c]]
           end
  end.

(** [pieces.join(sep)]. *)
Fixpoint join (sep : jsstring) (pieces : list jsstring) : jsstring :=
  match pieces with
  | [] => []
  | [p] => p
  | p :: rest => p ++ sep ++ join sep rest
  end.

(** [s.split(/\s+/)]: the pieces between the maximal runs of white space. *)
Fixpoint splitRuns (p : N -> bool) (inRun : bool) (s : jsstring) : list jsstring :=
  match s with
  | [] => [[]]
  | c :: s' =>
      if p c then
        if inRun then splitRuns p true s' else [] :: splitRuns p true s'
      else match splitRuns p false s' with
           | piece :: pieces => (c :: piece) :: pieces
           | [] => [[c]]
           end
  end.

(** [s.replace(/C+/g, by)] for a character class [C]: every maximal run of
    [C] becomes one copy of [by]. *)
Fixpoint replaceRuns (p : N -> bool) (by_ : jsstring) (inRun : bool) (s : jsstring) : jsstring :=
  match s with
  | [] => []
  | c :: s' =>
      if p c then (if inRun then [] else by_) ++ replaceRuns p by_ true s'
      else c :: replaceRuns p by_ false s'
  end.

(** [s.replace(/C/g, '')] for a character class [C]. *)
Definition removeAll (p : N -> bool) (s : jsstring) : jsstring :=
  List.filter (fun c => negb (p c)) s.

(** ** Backtracking matching

    A greedy quantifier [C{lo,hi}] over a character class, followed by the
    rest of the pattern [k]: the longest repetition is tried first and the
    matcher backs off one character at a time, as the ECMAScript matcher
    does.  [acc] is what the quantifier has consumed so far. *)
Definition below (hi : option nat) (n : nat) : bool :=
  match hi with
  | None => true
  | Some h => Nat.ltb n h
  end.

Fixpoint rep {R : Type} (p : N -> bool) (lo : nat) (hi : option nat)
    (acc s : jsstring) (k : jsstring -> jsstring -> option R) : option R :=
  let stop := if Nat.leb lo (List.length acc) then k acc s else None in
  match s with
  | c :: s' =>
      if (p c && below hi (List.length acc))%bool then
        match rep p lo hi (acc ++ [c]) s' k with
        | Some r => Some r
        | None => stop
        end
      else stop
  | [] => stop
  end.

(** One literal character. *)
Definition chr {R : Type} (x : N) (s : jsstring) (k : jsstring -> option R) : option R :=
  match s with
  | c :: s' => if N.eqb c x then k s' else None
  | [] => None
  end.

(** An optional group [(?:...)?]: with the group first, then without. *)
Definition opt {R : Type} (s : jsstring)
    (inner : jsstring -> option R) (skip : jsstring -> option R) : option R :=
  match inner s with
  | Some r => Some r
  | None => skip s
  end.

(** An alternation [a|b]: the left alternative first. *)
Definition alt {R : Type} (left right : option R) : option R :=
  match left with
  | Some r => Some r
  | None => right
  end.

(** The outcome of a function that can throw. *)
Inductive Completion (A : Type) :=
| Normal (a : A)
| Throw.
Arguments Normal {A} a.
Arguments Throw {A}.

(** The loop [while ((m = re.exec(s)) !== null)] of a global pattern, and
    [s.match(re)] with the [g] flag: the leftmost match from [lastIndex],
    then on from the end of that match.  [matchAt s] is the match of the
    pattern anchored at the start of [s] with the number of code units it
    consumed (none of the patterns here matches the empty string); [skip]
    counts the code units of the previous match still to pass over. *)
Fixpoint execAll {M : Type} (matchAt : jsstring -> option (M * nat))
    (skip : nat) (s : jsstring) : list M :=
  match s with
  | [] => []
  | _ :: s' =>
      match skip with
      | S n => execAll matchAt n s'
      | O =>
          match matchAt s with
          | Some (m, len) => m :: execAll matchAt (Nat.pred len) s'
          | None => execAll matchAt 0 s'
          end
      end
  end.

(** ** Lower-casing

    [String.prototype.toLowerCase] follows the Unicode case mappings, which
    are not reproduced here: it is a parameter of the development.  What is
    assumed of it is its behaviour on text made of ASCII and Hangul
    syllables, where only [A-Z] changes. *)
Definition lowerUnit (c : N) : N := if isUpper c then (c + 32)%N else c.

Definition plainUnit (c : N) : Prop := (c < 128)%N \/ isHangul c = true.

Class Host := {
  toLowerCase : jsstring -> jsstring;
  toLowerCase_plain :
    forall s, Forall plainUnit s -> toLowerCase s = List.map lowerUnit s
}.

(** The host restricted to the case mapping of ASCII. *)
Definition asciiHost : Host :=
  {| toLowerCase := List.map lowerUnit;
     toLowerCase_plain := fun s _ => eq_refl |}.

End JS.

(* ===================================================================== *)
(** * src/utils/markdownParser.ts *)
(* ===================================================================== *)

Module MarkdownParser.
Import JS.

Record TableCell := mkTableCell { cellContent : jsstring; isHeader : bool }.

Record TableRow := mkTableRow { cells : list TableCell }.

Record Table := mkTable {
  headers : list jsstring;
  rows : list TableRow;
  raw : jsstring
}.

Record Link := mkLink {
  text : jsstring;
  url : jsstring;
  linkTitle : option jsstring
}.

(** An element of the array returned by [extractSections]. *)
Record SectionInfo := mkSectionInfo {
  level : Z;
  title : jsstring;
  content : jsstring;
  lineStart : Z;
  lineEnd : Z
}.

Record Endpoint := mkEndpoint {
  api : jsstring;
  method : jsstring;
  endpoint : jsstring
}.

(** [line.match(/^(#{1,6})\s+(.+)$/)]: the two groups, when the line
    matches.  There is no [m] flag: [^] and [$] are the ends of the line
    string. *)
Definition headingMatch (line : jsstring) : option (jsstring * jsstring) :=
  rep (isChar HASH) 1 (Some 6) [] line (fun g1 r1 =>
  rep isWhiteSpace 1 None [] r1 (fun _ r2 =>
  rep isDot 1 None [] r2 (fun g2 r3 =>
  match r3 with
  | [] => Some (g1, g2)
  | _ :: _ => None
  end))).

(** ** extractTables and parseTable *)

(** [line.split('|').map(cell => cell.trim()).filter(cell => cell.length > 0)] *)
Definition splitCells (line : jsstring) : list jsstring :=
  List.filter (fun cell => Nat.ltb 0 (List.length cell))
    (List.map trim (split PIPE line)).

(** The body of the loop [for (let i = 2; i < lines.length; i++)]. *)
Definition parseRow (rows : list TableRow) (rowLine : jsstring) : list TableRow :=
  let rowCells := List.map (fun cell => mkTableCell cell false) (splitCells rowLine) in
  if Nat.ltb 0 (List.length rowCells) then rows ++ [mkTableRow rowCells] else rows.

Definition parseTable (tableText : jsstring) : option Table :=
  let lines :=
    List.filter (fun line => Nat.ltb 0 (List.length (trim line)))
      (split NEWLINE (trim tableText)) in
  if Nat.ltb (List.length lines) 2 then None
  else
    let headerLine := nth 0 lines [] in
    let headerCells := splitCells headerLine in
    let rows := fold_left parseRow (skipn 2 lines) [] in
    Some (mkTable headerCells rows tableText).

(** The variables of the loop of [extractTables]. *)
Record TableScan := mkTableScan {
  tables : list Table;
  currentTable : list jsstring;
  inTable : bool
}.

(** [if (inTable && currentTable.length >= 2) { ... }], with the two
    assignments that follow the push when [reset] is set (they are inside
    the [if] in the loop and absent after it). *)
Definition flushTable (reset : bool) (st : TableScan) : TableScan :=
  if (inTable st && Nat.leb 2 (List.length (currentTable st)))%bool then
    let tables' :=
      match parseTable (join [NEWLINE] (currentTable st)) with
      | Some table => tables st ++ [table]
      | None => tables st
      end in
    if reset then mkTableScan tables' [] false
    else mkTableScan tables' (currentTable st) (inTable st)
  else st.

Definition tableStep (st : TableScan) (line : jsstring) : TableScan :=
  if (startsWith (trim line) [PIPE] && endsWith (trim line) [PIPE])%bool then
    let cur := if inTable st then currentTable st else [] in
    mkTableScan (tables st) (cur ++ [line]) true
  else if startsWith (trim line) [PIPE] then
    if inTable st then mkTableScan (tables st) (currentTable st ++ [line]) true
    else st
  else flushTable true st.

Definition extractTables (content : jsstring) : list Table :=
  let lines := split NEWLINE content in
  tables (flushTable false (fold_left tableStep lines (mkTableScan [] [] false))).

(** ** extractLinks *)

(** What [new RegExp(source, 'g').exec(subject)] gives for a pattern built
    at run time: the constructor throws on a malformed source, [exec]
    returns [null] or a match, of which the sources read group 1. *)
Inductive RegExpExec :=
| RegExpSyntaxError
| RegExpNull
| RegExpMatch (group1 : jsstring).

(** The pattern [linkPattern], anchored at the start of [s]: the link pushed
    for the match and the length of the match.  Writing Q for the double
    quote, the pattern is [/\[([^\]]+)\]\(([^)]+)(?:\s+Q([^Q]+)Q)?\)/];
    [linkTail] is what follows group 2: the optional title group and the
    closing parenthesis, for a match that started at [origin]. *)
Definition linkTail (origin g1 g2 s5 : jsstring) : option (Link * nat) :=
  let close (g3 : option jsstring) (s9 : jsstring) :=
    chr RPAREN s9 (fun s10 =>
      Some (mkLink g1 g2 g3, (List.length origin - List.length s10)%nat)) in
  opt s5
    (fun s5 =>
       rep isWhiteSpace 1 None [] s5 (fun _ s6 =>
       chr DQUOTE s6 (fun s7 =>
       rep (isNotChar DQUOTE) 1 None [] s7 (fun g3 s8 =>
       chr DQUOTE s8 (fun s9 => close (Some g3) s9)))))
    (fun s5 => close None s5).

Definition linkPatternAt (s : jsstring) : option (Link * nat) :=
  chr LBRACKET s (fun s1 =>
  rep (isNotChar RBRACKET) 1 None [] s1 (fun g1 s2 =>
  chr RBRACKET s2 (fun s3 =>
  chr LPAREN s3 (fun s4 =>
  rep (isNotChar RPAREN) 1 None [] s4 (fun g2 s5 =>
  linkTail s g1 g2 s5))))).

(** [/\[([^\]]+)\]\[([^\]]+)\]/] anchored at the start of [s]: groups 1
    and 2 and the length of the match. *)
Definition referenceLinkPatternAt (s : jsstring) : option ((jsstring * jsstring) * nat) :=
  chr LBRACKET s (fun s1 =>
  rep (isNotChar RBRACKET) 1 None [] s1 (fun g1 s2 =>
  chr RBRACKET s2 (fun s3 =>
  chr LBRACKET s3 (fun s4 =>
  rep (isNotChar RBRACKET) 1 None [] s4 (fun g2 s5 =>
  chr RBRACKET s5 (fun s6 =>
    Some ((g1, g2), (List.length s - List.length s6)%nat))))))).

(** The source text [\[REF\]:\s+([^\s]+)] of the pattern built for a
    reference. *)
Definition refDefinitionSource (ref : jsstring) : jsstring :=
  lit "\[" ++ ref ++ lit "\]:\s+([^\s]+)".

Section Links.

(** The regular expression engine of the host on a pattern source built at
    run time. *)
Variable regExpExec : jsstring -> jsstring -> RegExpExec.

(** The second [while] loop: it stops at the first exception. *)
Fixpoint referenceLinks (content : jsstring) (matches : list (jsstring * jsstring))
    (links : list Link) : Completion (list Link) :=
  match matches with
  | [] => Normal links
  | (g1, g2) :: rest =>
      match regExpExec (refDefinitionSource g2) content with
      | RegExpSyntaxError => Throw
      | RegExpNull => referenceLinks content rest links
      | RegExpMatch ref1 =>
          referenceLinks content rest (links ++ [mkLink g1 ref1 None])
      end
  end.

Definition extractLinks (content : jsstring) : Completion (list Link) :=
  let links := execAll linkPatternAt 0 content in
  referenceLinks content (execAll referenceLinkPatternAt 0 content) links.

End Links.

(** ** extractSections *)

(** The variable [currentSection]. *)
Record OpenSection := mkOpenSection {
  openLevel : Z;
  openTitle : jsstring;
  openContent : list jsstring;
  openLineStart : Z
}.

Record SectionScan := mkSectionScan {
  sections : list SectionInfo;
  currentSection : option OpenSection
}.

(** [sections.push({...currentSection, content: joined, lineEnd})] *)
Definition closeSection (cur : OpenSection) (lineEnd : Z) : SectionInfo :=
  mkSectionInfo (openLevel cur) (openTitle cur)
    (join [NEWLINE] (openContent cur)) (openLineStart cur) lineEnd.

(** The body of the loop at index [i]. *)
Definition sectionStep (i : Z) (line : jsstring) (st : SectionScan) : SectionScan :=
  match headingMatch line with
  | Some (g1, g2) =>
      let sections' :=
        match currentSection st with
        | Some cur => sections st ++ [closeSection cur (i - 1)]
        | None => sections st
        end in
      mkSectionScan sections'
        (Some (mkOpenSection (Z.of_nat (List.length g1)) (trim g2) [] i))
  | None =>
      match currentSection st with
      | Some cur =>
          mkSectionScan (sections st)
            (Some (mkOpenSection (openLevel cur) (openTitle cur)
                     (openContent cur ++ [line]) (openLineStart cur)))
      | None => st
      end
  end.

(** [for (let i = ...; i < lines.length; i++)] from index [i] over the
    lines that remain. *)
Fixpoint sectionLoop (i : Z) (lines : list jsstring) (st : SectionScan) : SectionScan :=
  match lines with
  | [] => st
  | line :: rest => sectionLoop (i + 1) rest (sectionStep i line st)
  end.

(** The push after the loop, on a document of [n] lines. *)
Definition finish (st : SectionScan) (n : Z) : list SectionInfo :=
  match currentSection st with
  | Some cur => sections st ++ [closeSection cur (n - 1)]
  | None => sections st
  end.

Definition extractSections (content : jsstring) : list SectionInfo :=
  let lines := split NEWLINE content in
  finish (sectionLoop 0 lines (mkSectionScan [] None)) (Z.of_nat (List.length lines)).

(** ** extractAPIEndpoints *)

(** [Array.prototype.findIndex]: the index of the first element that
    satisfies [p], or [-1]. *)
Fixpoint findIndexFrom {A : Type} (p : A -> bool) (i : Z) (l : list A) : Z :=
  match l with
  | [] => -1
  | x :: l' => if p x then i else findIndexFrom p (i + 1) l'
  end.

Definition findIndex {A : Type} (p : A -> bool) (l : list A) : Z := findIndexFrom p 0 l.

(** [row.cells[index]?.content || ''] *)
Definition cellAt (row : TableRow) (index : Z) : jsstring :=
  if (index <? 0)%Z then []
  else match nth_error (cells row) (Z.to_nat index) with
       | Some cell => cellContent cell
       | None => []
       end.

Section Endpoints.
Context {host : Host}.

Definition endpointRow (apiIndex methodIndex endpointIndex : Z)
    (endpoints : list Endpoint) (row : TableRow) : list Endpoint :=
  let api := cellAt row apiIndex in
  let method := cellAt row methodIndex in
  let endpoint := cellAt row endpointIndex in
  if (truthy api && truthy method && truthy endpoint)%bool
  then endpoints ++ [mkEndpoint api method endpoint]
  else endpoints.

(** The code units of the Hangul word of the sources (U+AE30 U+B2A5). *)
Definition GINEUNG : jsstring := [44592; 45733]%N.

Definition endpointTable (endpoints : list Endpoint) (table : Table) : list Endpoint :=
  let apiIndex := findIndex (fun h =>
    (includes (toLowerCase h) (lit "api") || includes (toLowerCase h) GINEUNG)%bool)
    (headers table) in
  let methodIndex := findIndex (fun h => includes (toLowerCase h) (lit "method"))
    (headers table) in
  let endpointIndex := findIndex (fun h =>
    (includes (toLowerCase h) (lit "endpoint") || includes (toLowerCase h) (lit "url"))%bool)
    (headers table) in
  if (negb (apiIndex =? -1)%Z && negb (methodIndex =? -1)%Z
      && negb (endpointIndex =? -1)%Z)%bool
  then fold_left (endpointRow apiIndex methodIndex endpointIndex) (rows table) endpoints
  else endpoints.

Definition extractAPIEndpoints (content : jsstring) : list Endpoint :=
  fold_left endpointTable (extractTables content) [].

End Endpoints.

(** ** extractCodeBlocks *)

Module CodeBlock.
Record t := mk {
  language : option jsstring;
  code : jsstring;
  lineStart : Z;
  lineEnd : Z
}.
End CodeBlock.

Definition BACKTICK : N := 96.

(** The string of three backticks. *)
Definition FENCE : jsstring := [BACKTICK; BACKTICK; BACKTICK].

(** The end of the pattern of an opening fence: [\s*$]. *)
Definition fenceTail (g1 : option jsstring) (s : jsstring) : option (option jsstring) :=
  rep isWhiteSpace 0 None [] s (fun _ r =>
  match r with
  | [] => Some g1
  | _ :: _ => None
  end).

(** [line.match(/^```(\w+)?\s*$/)]: group 1, which is undefined when the
    optional group has not taken part. *)
Definition codeBlockStart (line : jsstring) : option (option jsstring) :=
  chr BACKTICK line (fun s1 =>
  chr BACKTICK s1 (fun s2 =>
  chr BACKTICK s2 (fun s3 =>
  opt s3
    (fun s3 => rep isWord 1 None [] s3 (fun g1 s4 => fenceTail (Some g1) s4))
    (fun s3 => fenceTail None s3)))).

(** [codeBlockStart[1] || null] *)
Definition orNull (g : option jsstring) : option jsstring :=
  match g with
  | Some w => if truthy w then Some w else None
  | None => None
  end.

(** The variables of the loop of [extractCodeBlocks]. *)
Record CodeScan := mkCodeScan {
  codeBlocks : list CodeBlock.t;
  inCodeBlock : bool;
  currentLanguage : option jsstring;
  codeStart : Z;
  codeLines : list jsstring
}.

(** The body of the loop at index [i]. *)
Definition codeStep (i : Z) (line : jsstring) (st : CodeScan) : CodeScan :=
  match codeBlockStart line, inCodeBlock st with
  | Some g1, false => mkCodeScan (codeBlocks st) true (orNull g1) i []
  | _, _ =>
      if (streq (trim line) FENCE && inCodeBlock st)%bool then
        mkCodeScan
          (codeBlocks st ++
           [CodeBlock.mk (currentLanguage st) (join [NEWLINE] (codeLines st))
              (codeStart st) (i - 1)])
          false None (codeStart st) []
      else if inCodeBlock st then
        mkCodeScan (codeBlocks st) true (currentLanguage st) (codeStart st)
          (codeLines st ++ [line])
      else st
  end.

Fixpoint codeLoop (i : Z) (lines : list jsstring) (st : CodeScan) : CodeScan :=
  match lines with
  | [] => st
  | line :: rest => codeLoop (i + 1) rest (codeStep i line st)
  end.

(** The block that is still open after the loop, on a document of [n]
    lines. *)
Definition codeFinish (st : CodeScan) (n : Z) : list CodeBlock.t :=
  if (inCodeBlock st && Nat.ltb 0 (List.length (codeLines st)))%bool then
    codeBlocks st ++
    [CodeBlock.mk (currentLanguage st) (join [NEWLINE] (codeLines st))
       (codeStart st) (n - 1)]
  else codeBlocks st.

Definition extractCodeBlocks (content : jsstring) : list CodeBlock.t :=
  let lines := split NEWLINE content in
  codeFinish (codeLoop 0 lines (mkCodeScan [] false None 0 []))
    (Z.of_nat (List.length lines)).

Section Finders.
Context {host : Host}.

Definition extractCodeBlocksByLanguage (content language : jsstring) : list CodeBlock.t :=
  let allBlocks := extractCodeBlocks content in
  let normalizedLang := toLowerCase language in
  List.filter (fun block =>
    match orNull (CodeBlock.language block) with
    | None => false
    | Some blockLanguage =>
        (streq (toLowerCase blockLanguage) normalizedLang
         || includes (toLowerCase blockLanguage) normalizedLang
         || includes normalizedLang (toLowerCase blockLanguage))%bool
    end) allBlocks.

(** [findTableColumn]; a cell object is always a true condition. *)
Definition findTableColumn (table : Table) (columnName : jsstring) : list jsstring :=
  let columnIndex :=
    findIndex (fun header => includes (toLowerCase header) (toLowerCase columnName))
      (headers table) in
  if (columnIndex =? -1)%Z then []
  else
    List.filter (fun cell => Nat.ltb 0 (List.length cell))
      (List.map (fun row =>
         match nth_error (cells row) (Z.to_nat columnIndex) with
         | Some cell => cellContent cell
         | None => []
         end) (rows table)).

Definition findSectionsByKeyword (content keyword : jsstring) : list SectionInfo :=
  let sections := extractSections content in
  let lowerKeyword := toLowerCase keyword in
  List.filter (fun section =>
    (includes (toLowerCase (title section)) lowerKeyword
     || includes (toLowerCase (MarkdownParser.content section)) lowerKeyword)%bool)
    sections.

(** The test of [findAPICodeExamples] on the lower-cased code of a block. *)
Definition isAPIExample (code : jsstring) : bool :=
  (includes code (lit "curl") || includes code (lit "fetch")
   || includes code (lit "axios") || includes code (lit "http")
   || includes code (lit "post") || includes code (lit "get")
   || includes code (lit "api.nicepay") || includes code (lit "sandbox-api.nicepay"))%bool.

(** [findAPICodeExamples(content, language?)]: [None] is the missing
    argument. *)
Definition findAPICodeExamples (content : jsstring) (language : option jsstring)
    : list CodeBlock.t :=
  let codeBlocks :=
    match language with
    | Some l => if truthy l then extractCodeBlocksByLanguage content l
                else extractCodeBlocks content
    | None => extractCodeBlocks content
    end in
  List.filter (fun block => isAPIExample (toLowerCase (CodeBlock.code block))) codeBlocks.

End Finders.

End MarkdownParser.

(* ===================================================================== *)
(** * src/utils/docIndexer.ts *)
(* ===================================================================== *)

Module DocIndexer.
Import JS.

Record DocumentSection := mkDocumentSection {
  level : Z;
  sectionTitle : jsstring;
  sectionContent : jsstring;
  anchor : jsstring
}.

Record DocumentIndex := mkDocumentIndex {
  filePath : jsstring;
  absolutePath : jsstring;
  fileName : jsstring;
  title : jsstring;
  content : jsstring;
  sections : list DocumentSection;
  keywords : list jsstring
}.

(** The field [index : Map<string, DocumentIndex>]: a [Map] iterates in
    insertion order, and [set] on a present key keeps its place. *)
Definition Index := list (jsstring * DocumentIndex).

Fixpoint mapSet (key : jsstring) (value : DocumentIndex) (m : Index) : Index :=
  match m with
  | [] => [(key, value)]
  | (k, v) :: m' =>
      if streq k key then (key, value) :: m' else (k, v) :: mapSet key value m'
  end.

Fixpoint mapGet (key : jsstring) (m : Index) : option DocumentIndex :=
  match m with
  | [] => None
  | (k, v) :: m' => if streq k key then Some v else mapGet key m'
  end.

Definition mapValues (m : Index) : list DocumentIndex := List.map snd m.

(** [Set.prototype.add] on a [Set<string>], which iterates in insertion
    order. *)
Definition setAdd (set : list jsstring) (word : jsstring) : list jsstring :=
  if existsb (streq word) set then set else set ++ [word].

(** [/[\uAC00-\uD7A3]+|[a-zA-Z]+[a-zA-Z0-9]*/] anchored at the start of [s]:
    the matched text and its length. *)
Definition wordPatternAt (s : jsstring) : option (jsstring * nat) :=
  alt
    (rep isHangul 1 None [] s (fun g _ => Some (g, List.length g)))
    (rep isLetter 1 None [] s (fun g1 r1 =>
     rep isAlnum 0 None [] r1 (fun g2 _ =>
       Some (g1 ++ g2, List.length (g1 ++ g2))))).

Definition UNTITLED : jsstring := lit "Untitled".

Section WithHost.
Context {host : Host}.

Definition generateAnchor (title : jsstring) : jsstring :=
  trim
    (replaceRuns (isChar HYPHEN) [HYPHEN] false
       (replaceRuns isWhiteSpace [HYPHEN] false
          (removeAll (fun c => negb (isWord c || isWhiteSpace c || isChar HYPHEN c))
             (toLowerCase title)))).

Definition extractKeywords (title content : jsstring) : list jsstring :=
  let titleWords :=
    List.filter (fun w => Nat.ltb 1 (List.length w)) (splitRuns isWhiteSpace false title) in
  let keywords := fold_left (fun set word => setAdd set (toLowerCase word)) titleWords [] in
  let words := execAll wordPatternAt 0 content in
  fold_left (fun set word => setAdd set (toLowerCase word))
    (firstn 50 (List.filter (fun w => Nat.ltb 2 (List.length w)) words))
    keywords.

(** ** parseMarkdown *)

Record OpenSection := mkOpenSection {
  openLevel : Z;
  openTitle : jsstring;
  openContent : list jsstring
}.

Record ParseState := mkParseState {
  parsedSections : list DocumentSection;
  parsedTitle : jsstring;
  currentSection : option OpenSection
}.

Definition closeSection (cur : OpenSection) : DocumentSection :=
  mkDocumentSection (openLevel cur) (openTitle cur)
    (join [NEWLINE] (openContent cur)) (generateAnchor (openTitle cur)).

Definition parseStep (st : ParseState) (line : jsstring) : ParseState :=
  match MarkdownParser.headingMatch line with
  | Some (g1, g2) =>
      let sections' :=
        match currentSection st with
        | Some cur => parsedSections st ++ [closeSection cur]
        | None => parsedSections st
        end in
      let level := Z.of_nat (List.length g1) in
      let headingText := trim g2 in
      let title' :=
        if truthy (parsedTitle st) then parsedTitle st else headingText in
      mkParseState sections' title' (Some (mkOpenSection level headingText []))
  | None =>
      match currentSection st with
      | Some cur =>
          mkParseState (parsedSections st) (parsedTitle st)
            (Some (mkOpenSection (openLevel cur) (openTitle cur)
                     (openContent cur ++ [line])))
      | None => st
      end
  end.

Definition parseMarkdown (content : jsstring) : jsstring * list DocumentSection :=
  let lines := split NEWLINE content in
  let st := fold_left parseStep lines (mkParseState [] [] None) in
  let sections :=
    match currentSection st with
    | Some cur => parsedSections st ++ [closeSection cur]
    | None => parsedSections st
    end in
  (if truthy (parsedTitle st) then parsedTitle st else UNTITLED,
   sections).

(** ** searchDocuments *)

(** The body of the loop over [this.index.values()]. *)
Definition scoreOf (lowerQuery : jsstring) (doc : DocumentIndex) : Z :=
  let score := 0%Z in
  let score :=
    if includes (toLowerCase (title doc)) lowerQuery then (score + 10)%Z else score in
  let score :=
    if includes (toLowerCase (fileName doc)) lowerQuery then (score + 5)%Z else score in
  let keywordMatches :=
    List.length (List.filter (fun k => includes k lowerQuery) (keywords doc)) in
  let score := (score + Z.of_nat keywordMatches)%Z in
  let score :=
    if includes (toLowerCase (content doc)) lowerQuery then (score + 1)%Z else score in
  score.

Definition searchStep (lowerQuery : jsstring)
    (results : list (DocumentIndex * Z)) (doc : DocumentIndex) : list (DocumentIndex * Z) :=
  let score := scoreOf lowerQuery doc in
  if (0 <? score)%Z then results ++ [(doc, score)] else results.

(** [Array.prototype.sort] is stable: an element is placed before the
    first later element that the comparison does not put ahead of it. *)
Fixpoint insertBy {A : Type} (cmp : A -> A -> Z) (x : A) (sorted : list A) : list A :=
  match sorted with
  | [] => [x]
  | y :: rest => if (cmp x y <=? 0)%Z then x :: sorted else y :: insertBy cmp x rest
  end.

Definition sortBy {A : Type} (cmp : A -> A -> Z) (l : list A) : list A :=
  fold_right (insertBy cmp) [] l.

Definition searchDocuments (index : Index) (query : jsstring) : list DocumentIndex :=
  let lowerQuery := toLowerCase query in
  let results := fold_left (searchStep lowerQuery) (mapValues index) [] in
  let results := sortBy (fun a b => (snd b - snd a)%Z) results in
  List.map fst results.

(** [getAllDocuments], [getDocument] and [getIndexSize] on [this.index]. *)
Definition getAllDocuments (index : Index) : list DocumentIndex := mapValues index.

Definition getDocument (index : Index) (filePath : jsstring) : option DocumentIndex :=
  mapGet filePath index.

Definition getIndexSize (index : Index) : Z := Z.of_nat (List.length index).

Definition findSection (index : Index) (filePath sectionTitle : jsstring)
    : option DocumentSection :=
  match getDocument index filePath with
  | None => None
  | Some doc =>
      List.find (fun section =>
        includes (toLowerCase (DocIndexer.sectionTitle section)) (toLowerCase sectionTitle))
        (sections doc)
  end.

(** ** The file system and buildIndex *)

(** What the calls of [fs] see under the documents' base path.  A file
    whose [data] is [None] cannot be read ([readFileSync] throws); a
    directory that is not [readable] cannot be listed ([readdirSync]
    throws); [FsOther] is neither a file nor a directory. *)
Inductive FsNode :=
| FsFile (data : option jsstring)
| FsDir (readable : bool) (entries : FsEntries)
| FsOther
with FsEntries :=
| FsNil
| FsCons (name : jsstring) (node : FsNode) (rest : FsEntries).

Scheme FsNode_mut := Induction for FsNode Sort Prop
  with FsEntries_mut := Induction for FsEntries Sort Prop.
Combined Scheme FsNode_FsEntries_ind from FsNode_mut, FsEntries_mut.

Fixpoint fsLookup (name : jsstring) (entries : FsEntries) : option FsNode :=
  match entries with
  | FsNil => None
  | FsCons n node rest => if streq n name then Some node else fsLookup name rest
  end.

Definition isDirectory (node : FsNode) : bool :=
  match node with
  | FsDir _ _ => true
  | _ => false
  end.

Definition isFile (node : FsNode) : bool :=
  match node with
  | FsFile _ => true
  | _ => false
  end.

(** ** path.join

    [path.join] as Node's [path.posix] has it: the arguments that are not
    empty are joined by a separator and the result is normalized. *)

Definition SLASH : N := 47.
Definition DOT : jsstring := [46%N].
Definition DOTDOT : jsstring := [46%N; 46%N].

(** [path.charCodeAt(0) === CHAR_FORWARD_SLASH] *)
Definition isAbsolute (path : jsstring) : bool :=
  match path with
  | c :: _ => N.eqb c SLASH
  | [] => false
  end.

(** [normalizeString], one segment of the path at a time; [res] holds the
    segments kept so far, the last one first.  An empty segment and [.]
    are passed over; [..] removes the last segment kept, unless there is
    none or it is [..] itself, in which case [..] is kept when
    [allowAboveRoot] and dropped otherwise; any other segment is kept. *)
Definition normalizeSegment (allowAboveRoot : bool) (res : list jsstring)
    (segment : jsstring) : list jsstring :=
  if (streq segment [] || streq segment DOT)%bool then res
  else if streq segment DOTDOT then
    match res with
    | last :: before =>
        if streq last DOTDOT then (if allowAboveRoot then DOTDOT :: res else res)
        else before
    | [] => if allowAboveRoot then [DOTDOT] else []
    end
  else segment :: res.

Definition normalizeString (path : jsstring) (allowAboveRoot : bool) : jsstring :=
  join [SLASH]
    (rev (fold_left (normalizeSegment allowAboveRoot) (split SLASH path) [])).

(** [path.posix.normalize] *)
Definition normalize (path : jsstring) : jsstring :=
  match path with
  | [] => DOT
  | _ :: _ =>
      let absolute := isAbsolute path in
      let trailingSeparator := endsWith path [SLASH] in
      match normalizeString path (negb absolute) with
      | [] =>
          if absolute then [SLASH]
          else if trailingSeparator then DOT ++ [SLASH] else DOT
      | c :: normalized =>
          (if absolute then [SLASH] else []) ++ (c :: normalized) ++
          (if trailingSeparator then [SLASH] else [])
      end
  end.

(** [path.join(a, b)] *)
Definition pathJoin (a b : jsstring) : jsstring :=
  match a, b with
  | [], [] => DOT
  | [], _ :: _ => normalize b
  | _ :: _, [] => normalize a
  | _ :: _, _ :: _ => normalize (a ++ [SLASH] ++ b)
  end.

(** [path.basename]: what follows the last separator. *)
Fixpoint basename (p : jsstring) : jsstring :=
  match p with
  | [] => []
  | c :: p' =>
      if existsb (N.eqb 47) p' then basename p'
      else if N.eqb c 47 then p' else p
  end.

(** A method of the indexer: it reads and writes [this.index] and
    completes normally or throws. *)
Definition Action (A : Type) := Index -> Completion A * Index.

Definition ret {A : Type} (a : A) : Action A := fun index => (Normal a, index).

Definition throw {A : Type} : Action A := fun index => (Throw, index).

Definition bind {A B : Type} (m : Action A) (f : A -> Action B) : Action B :=
  fun index =>
    match m index with
    | (Normal a, index') => f a index'
    | (Throw, index') => (Throw, index')
    end.

Notation "m ;; k" := (bind m (fun _ => k)) (at level 61, right associativity).

(** [try { body } catch (error) { console.error(...) }] *)
Definition tryCatch (body : Action unit) : Action unit :=
  fun index =>
    match body index with
    | (Normal a, index') => (Normal a, index')
    | (Throw, index') => (Normal tt, index')
    end.

(** [this.index.clear()] *)
Definition clear : Action unit := fun _ => (Normal tt, []).

Definition readFileSync (node : FsNode) : Action jsstring :=
  match node with
  | FsFile (Some data) => ret data
  | _ => throw
  end.

Definition indexFile (node : FsNode) (filePath relativePath : jsstring) : Action unit :=
  tryCatch
    (bind (readFileSync node) (fun content =>
     let parsed := parseMarkdown content in
     let docIndex :=
       mkDocumentIndex relativePath filePath (basename filePath) (fst parsed)
         content (snd parsed) (extractKeywords (fst parsed) content) in
     fun index => (Normal tt, mapSet relativePath docIndex index))).

Definition skippedDirectory (name : jsstring) : bool :=
  (streq name (lit "image") || streq name (lit "node_modules")
   || streq name (lit "dist"))%bool.

(** [indexDirectory] on the directory [node] found at [dirPath], and its
    loop over the entries. *)
Fixpoint indexDirectory (node : FsNode) (dirPath relativeBase : jsstring) : Action unit :=
  match node with
  | FsDir true entries => indexEntries entries dirPath relativeBase
  | _ => throw
  end
with indexEntries (entries : FsEntries) (dirPath relativeBase : jsstring) : Action unit :=
  match entries with
  | FsNil => ret tt
  | FsCons name node rest =>
      let fullPath := pathJoin dirPath name in
      (if isDirectory node then
         if negb (skippedDirectory name)
         then indexDirectory node fullPath (pathJoin relativeBase name)
         else ret tt
       else if (isFile node && endsWith name (lit ".md"))%bool then
         indexFile node fullPath (pathJoin relativeBase name)
       else ret tt) ;;
      indexEntries rest dirPath relativeBase
  end.

Definition targetDirs : list jsstring :=
  [lit "api"; lit "common"; lit "management"; lit "migration"].

Fixpoint indexTargets (docsBasePath : jsstring) (root : FsEntries)
    (dirs : list jsstring) : Action unit :=
  match dirs with
  | [] => ret tt
  | dir :: rest =>
      let dirPath := pathJoin docsBasePath dir in
      match fsLookup dir root with
      | Some node =>
          if isDirectory node then indexDirectory node dirPath dir else ret tt
      | None => ret tt
      end ;;
      indexTargets docsBasePath root rest
  end.

(** [buildIndex] of an indexer on [docsBasePath], where [root] is what the
    file system holds under that path. *)
Definition buildIndex (docsBasePath : jsstring) (root : FsEntries) : Action unit :=
  clear ;;
  indexTargets docsBasePath root targetDirs ;;
  let rootReadme := pathJoin docsBasePath (lit "README.md") in
  match fsLookup (lit "README.md") root with
  | Some node => indexFile node rootReadme (lit "README.md")
  | None => ret tt
  end.

(** ** src/index.ts: the caller of buildIndex *)

(** [initializeIndexer]: [try { await this.docIndexer.buildIndex(); ... }
    catch (error) { logger.error(...) }]. *)
Definition initializeIndexer (docsBasePath : jsstring) (root : FsEntries) : Action unit :=
  tryCatch (buildIndex docsBasePath root).

End WithHost.

End DocIndexer.

(* ===================================================================== *)
(** * The notions of the written specification *)
(* ===================================================================== *)

Module Spec.
Import JS.

(** A list in non-increasing order of [key]. *)
Definition descending {A : Type} (key : A -> Z) (a b : A) : Prop := (key a >= key b)%Z.

(** ** Tables *)

(** A line of a candidate table: trimmed, it starts and ends with a pipe. *)
Definition candidateLine (line : jsstring) : bool :=
  (startsWith (trim line) [PIPE] && endsWith (trim line) [PIPE])%bool.

(** A string of white space only. *)
Definition blank (s : jsstring) : bool := forallb isWhiteSpace s.

(** A data row with the given cells. *)
Definition cellRow (contents : list jsstring) : MarkdownParser.TableRow :=
  MarkdownParser.mkTableRow
    (List.map (fun c => MarkdownParser.mkTableCell c false) contents).

(** ** Sections *)

Definition isHeading (line : jsstring) : bool :=
  match MarkdownParser.headingMatch line with
  | Some _ => true
  | None => false
  end.

(** The lines before the first heading, and the lines from it on. *)
Fixpoint preamble (lines : list jsstring) : list jsstring :=
  match lines with
  | [] => []
  | line :: rest => if isHeading line then [] else line :: preamble rest
  end.

Fixpoint fromFirstHeading (lines : list jsstring) : list jsstring :=
  match lines with
  | [] => []
  | line :: rest => if isHeading line then lines else fromFirstHeading rest
  end.

(** The index of the first heading line, counting from [i]. *)
Fixpoint firstHeading (i : Z) (lines : list jsstring) : option Z :=
  match lines with
  | [] => None
  | line :: rest => if isHeading line then Some i else firstHeading (i + 1) rest
  end.

(** [l.slice(a, b)] for [0 <= a <= b]. *)
Definition slice {A : Type} (l : list A) (a b : Z) : list A :=
  firstn (Z.to_nat (b - a)) (skipn (Z.to_nat a) l).

Fixpoint lastOf {A : Type} (l : list A) : option A :=
  match l with
  | [] => None
  | [x] => Some x
  | _ :: rest => lastOf rest
  end.

(** Sections that follow one another from line [from] up to line [stop],
    the latter excluded. *)
Fixpoint contiguous (from : Z) (sections : list MarkdownParser.SectionInfo) (stop : Z)
    : Prop :=
  match sections with
  | [] => from = stop
  | s :: rest =>
      MarkdownParser.lineStart s = from /\
      (from <= MarkdownParser.lineEnd s)%Z /\
      contiguous (MarkdownParser.lineEnd s + 1) rest stop
  end.

(** [Blocks from lines sections]: [lines], which start at index [from] of
    the document, are made of one block for each section, in order; a block
    is a heading line, matched with the level and the title of the section,
    followed by lines that are not headings, which joined are the content
    of the section; the section spans the indices of its block. *)
Inductive Blocks : Z -> list jsstring -> list MarkdownParser.SectionInfo -> Prop :=
| Blocks_nil (from : Z) : Blocks from [] []
| Blocks_cons (from : Z) (heading g1 g2 : jsstring) (body rest : list jsstring)
    (sections : list MarkdownParser.SectionInfo) :
    MarkdownParser.headingMatch heading = Some (g1, g2) ->
    Forall (fun line => isHeading line = false) body ->
    Blocks (from + Z.of_nat (List.length body) + 1) rest sections ->
    Blocks from (heading :: body ++ rest)
      (MarkdownParser.mkSectionInfo (Z.of_nat (List.length g1)) (trim g2)
         (join [NEWLINE] body) from (from + Z.of_nat (List.length body))
       :: sections).

(** The lines of the document that a section spans: its heading line and
    its content lines. *)
Definition sectionLines (lines : list jsstring) (s : MarkdownParser.SectionInfo)
    : list jsstring :=
  slice lines (MarkdownParser.lineStart s) (MarkdownParser.lineEnd s + 1).

(** A section describes the lines it spans: level and title come from the
    heading at [lineStart], the content is the lines after it up to
    [lineEnd], joined. *)
Definition describes (lines : list jsstring) (s : MarkdownParser.SectionInfo) : Prop :=
  exists g1 g2,
    option_map MarkdownParser.headingMatch
      (nth_error lines (Z.to_nat (MarkdownParser.lineStart s))) = Some (Some (g1, g2)) /\
    MarkdownParser.level s = Z.of_nat (List.length g1) /\
    MarkdownParser.title s = trim g2 /\
    MarkdownParser.content s =
      join [NEWLINE]
        (slice lines (MarkdownParser.lineStart s + 1) (MarkdownParser.lineEnd s + 1)).

(** The heading line of a level and a title: the marks, a space, the
    title. *)
Definition renderHeading (level : nat) (title : jsstring) : jsstring :=
  repeat HASH level ++ [32%N] ++ title.

(** The title among [titles] that a document takes: the first that is not
    empty. *)
Definition firstTitle (titles : list jsstring) : option jsstring := List.find truthy titles.

(** The titles of the sections that a scan of [parseMarkdown] has seen: the
    closed ones and the open one. *)
Definition scanTitles (st : DocIndexer.ParseState) : list jsstring :=
  List.map DocIndexer.sectionTitle (DocIndexer.parsedSections st) ++
  match DocIndexer.currentSection st with
  | Some cur => [DocIndexer.openTitle cur]
  | None => []
  end.

(** The title kept by the scan is the first title seen that is not
    empty. *)
Definition titled (st : DocIndexer.ParseState) : Prop :=
  DocIndexer.parsedTitle st =
  match firstTitle (scanTitles st) with
  | Some t => t
  | None => []
  end.

(** A cell as [parseTable] leaves it: not empty, and trimmed. *)
Definition cleanCell (c : jsstring) : Prop := c <> [] /\ trim c = c.

Definition cleanTable (t : MarkdownParser.Table) : Prop :=
  Forall cleanCell (MarkdownParser.headers t) /\
  Forall (fun row =>
            MarkdownParser.cells row <> [] /\
            Forall (fun cell =>
                      cleanCell (MarkdownParser.cellContent cell) /\
                      MarkdownParser.isHeader cell = false)
              (MarkdownParser.cells row))
    (MarkdownParser.rows t).

(** Two characters [x] next to each other. *)
Fixpoint hasPair (x : N) (s : jsstring) : bool :=
  match s with
  | a :: (b :: _) as rest => ((N.eqb a x && N.eqb b x) || hasPair x rest)%bool
  | _ => false
  end.

(** ** Paths *)

(** A segment that [normalizeString] keeps as it is: not empty, neither
    [.] nor [..]. *)
Definition pathName (segment : jsstring) : bool :=
  negb (streq segment [] || streq segment DocIndexer.DOT
        || streq segment DocIndexer.DOTDOT).

(** The segments that [normalizeString] keeps, the last one first. *)
Definition keptSegments (allowAboveRoot : bool) (path : jsstring) : list jsstring :=
  fold_left (DocIndexer.normalizeSegment allowAboveRoot)
    (split DocIndexer.SLASH path) [].

(** The normalized path made of the segments kept. *)
Definition assemble (absolute trailingSeparator : bool) (res : list jsstring) : jsstring :=
  match res with
  | [] =>
      if absolute then [DocIndexer.SLASH]
      else if trailingSeparator then DocIndexer.DOT ++ [DocIndexer.SLASH]
      else DocIndexer.DOT
  | _ :: _ =>
      (if absolute then [DocIndexer.SLASH] else []) ++
      join [DocIndexer.SLASH] (rev res) ++
      (if trailingSeparator then [DocIndexer.SLASH] else [])
  end.

(** A segment of a normalized path: not empty, without separator. *)
Definition segment (s : jsstring) : Prop :=
  s <> [] /\ Forall (fun c => c <> DocIndexer.SLASH) s.

(** A path relative to a base: not empty and not absolute. *)
Definition relativePath (path : jsstring) : Prop :=
  path <> [] /\ DocIndexer.isAbsolute path = false.

(** ** Code blocks *)

(** A line that closes a code block: trimmed, it is three backticks. *)
Definition isCloser (line : jsstring) : bool := streq (trim line) MarkdownParser.FENCE.

(** [Fences from lines blocks]: [lines], which start at index [from] of the
    document, are read from left to right as lines outside a block that
    open none, and blocks: an opening fence, lines that close nothing, and
    the first line that closes; the last block may lack its closing line,
    and then counts only when it has a line. *)
Inductive Fences : Z -> list jsstring -> list MarkdownParser.CodeBlock.t -> Prop :=
| Fences_nil (from : Z) : Fences from [] []
| Fences_skip (from : Z) (line : jsstring) (rest : list jsstring)
    (blocks : list MarkdownParser.CodeBlock.t) :
    MarkdownParser.codeBlockStart line = None ->
    Fences (from + 1) rest blocks ->
    Fences from (line :: rest) blocks
| Fences_closed (from : Z) (opener : jsstring) (g1 : option jsstring)
    (body : list jsstring) (closer : jsstring) (rest : list jsstring)
    (blocks : list MarkdownParser.CodeBlock.t) :
    MarkdownParser.codeBlockStart opener = Some g1 ->
    Forall (fun line => isCloser line = false) body ->
    isCloser closer = true ->
    Fences (from + Z.of_nat (List.length body) + 2) rest blocks ->
    Fences from (opener :: body ++ closer :: rest)
      (MarkdownParser.CodeBlock.mk (MarkdownParser.orNull g1) (join [NEWLINE] body)
         from (from + Z.of_nat (List.length body))
       :: blocks)
| Fences_open (from : Z) (opener : jsstring) (g1 : option jsstring)
    (body : list jsstring) :
    MarkdownParser.codeBlockStart opener = Some g1 ->
    Forall (fun line => isCloser line = false) body ->
    body <> [] ->
    Fences from (opener :: body)
      [MarkdownParser.CodeBlock.mk (MarkdownParser.orNull g1) (join [NEWLINE] body)
         from (from + Z.of_nat (List.length body))]
| Fences_empty (from : Z) (opener : jsstring) (g1 : option jsstring) :
    MarkdownParser.codeBlockStart opener = Some g1 ->
    Fences from [opener] [].

(** A block describes the lines it spans: its language is read on the
    opening fence at [lineStart], its code is the lines after it up to
    [lineEnd], joined, none of which closes a block; and the line after
    [lineEnd] closes it, unless the document ends there. *)
Definition fenced (lines : list jsstring) (b : MarkdownParser.CodeBlock.t) : Prop :=
  let first := MarkdownParser.CodeBlock.lineStart b in
  let last := MarkdownParser.CodeBlock.lineEnd b in
  (0 <= first <= last)%Z /\ (last < Z.of_nat (List.length lines))%Z /\
  (exists opener g1,
     nth_error lines (Z.to_nat first) = Some opener /\
     MarkdownParser.codeBlockStart opener = Some g1 /\
     MarkdownParser.CodeBlock.language b = MarkdownParser.orNull g1) /\
  MarkdownParser.CodeBlock.code b = join [NEWLINE] (slice lines (first + 1) (last + 1)) /\
  Forall (fun line => isCloser line = false) (slice lines (first + 1) (last + 1)) /\
  ((last + 1 = Z.of_nat (List.length lines))%Z \/
   option_map isCloser (nth_error lines (Z.to_nat (last + 1))) = Some true).

(** Blocks in document order, with at least the closing line between one
    block and the next. *)
Fixpoint separated (from : Z) (blocks : list MarkdownParser.CodeBlock.t) : Prop :=
  match blocks with
  | [] => True
  | b :: rest =>
      (from <= MarkdownParser.CodeBlock.lineStart b)%Z /\
      separated (MarkdownParser.CodeBlock.lineEnd b + 2) rest
  end.

(** A fenced block written out: the opening fence with its language, the
    lines of code, the closing fence. *)
Definition renderBlock (language : jsstring) (body : list jsstring) : jsstring :=
  join [NEWLINE] ((MarkdownParser.FENCE ++ language) :: body ++ [MarkdownParser.FENCE]).

(** ** The file system *)

(** Every directory of a tree can be listed. *)
Fixpoint listable (node : DocIndexer.FsNode) : bool :=
  match node with
  | DocIndexer.FsDir readable entries => (readable && listableEntries entries)%bool
  | _ => true
  end
with listableEntries (entries : DocIndexer.FsEntries) : bool :=
  match entries with
  | DocIndexer.FsNil => true
  | DocIndexer.FsCons _ node rest => (listable node && listableEntries rest)%bool
  end.

(** ** Keywords *)







(** ** Endpoint tables *)

(** The position of the first element that satisfies [p]. *)
Fixpoint firstIndex {A : Type} (p : A -> bool) (l : list A) : option nat :=
  match l with
  | [] => None
  | x :: rest => if p x then Some 0%nat else option_map S (firstIndex p rest)
  end.

(** The content of the cell of a row in a column, when the row has a cell
    there and the cell is not empty. *)
Definition filledCell (row : MarkdownParser.TableRow) (column : nat) : option jsstring :=
  match nth_error (MarkdownParser.cells row) column with
  | Some cell =>
      match MarkdownParser.cellContent cell with
      | [] => None
      | c :: s => Some (c :: s)
      end
  | None => None
  end.

(** The triple of a row: none when one of the three cells is empty. *)
Definition rowEndpoint (a m e : nat) (row : MarkdownParser.TableRow)
    : list MarkdownParser.Endpoint :=
  match filledCell row a, filledCell row m, filledCell row e with
  | Some x, Some y, Some z => [MarkdownParser.mkEndpoint x y z]
  | _, _, _ => []
  end.

(** ** Anchors *)

(** Leading and trailing characters of a class trimmed off. *)
Fixpoint stripStart (p : N -> bool) (s : jsstring) : jsstring :=
  match s with
  | c :: s' => if p c then stripStart p s' else s
  | [] => []
  end.

Definition stripEnds (p : N -> bool) (s : jsstring) : jsstring :=
  rev (stripStart p (rev (stripStart p s))).

Section WithHost.
Context {host : Host}.

(** The relevance score of a document for a query. *)
Definition relevance (query : jsstring) (doc : DocIndexer.DocumentIndex) : Z :=
  let q := toLowerCase query in
  ((if includes (toLowerCase (DocIndexer.title doc)) q then 10 else 0)
   + (if includes (toLowerCase (DocIndexer.fileName doc)) q then 5 else 0)
   + Z.of_nat (List.length
       (List.filter (fun k => includes k q) (DocIndexer.keywords doc)))
   + (if includes (toLowerCase (DocIndexer.content doc)) q then 1 else 0))%Z.

Definition apiHeader (h : jsstring) : bool :=
  (includes (toLowerCase h) (lit "api")
   || includes (toLowerCase h) MarkdownParser.GINEUNG)%bool.

Definition methodHeader (h : jsstring) : bool := includes (toLowerCase h) (lit "method").

Definition endpointHeader (h : jsstring) : bool :=
  (includes (toLowerCase h) (lit "endpoint") || includes (toLowerCase h) (lit "url"))%bool.

(** The triples of a table: those of its rows when its headers have the
    three columns, none otherwise. *)
Definition tableEndpoints (table : MarkdownParser.Table) : list MarkdownParser.Endpoint :=
  match firstIndex apiHeader (MarkdownParser.headers table),
        firstIndex methodHeader (MarkdownParser.headers table),
        firstIndex endpointHeader (MarkdownParser.headers table) with
  | Some a, Some m, Some e => flat_map (rowEndpoint a m e) (MarkdownParser.rows table)
  | _, _, _ => []
  end.

(** What remains of a lower-cased title: the word characters, the white
    space and the hyphens. *)
Definition anchorCharacters (title : jsstring) : jsstring :=
  List.filter (fun c => (isWord c || isWhiteSpace c || isChar HYPHEN c)%bool)
    (toLowerCase title).

(** The anchor as the specification words it: white space runs collapsed
    to single hyphens, then leading and trailing hyphens trimmed off. *)
Definition anchorTrimmed (title : jsstring) : jsstring :=
  stripEnds (isChar HYPHEN)
    (replaceRuns isWhiteSpace [HYPHEN] false (anchorCharacters title)).

(** The anchor without the trimming: white space runs turned into hyphens,
    then every run of hyphens collapsed to one hyphen. *)
Definition anchorCollapsed (title : jsstring) : jsstring :=
  replaceRuns (isChar HYPHEN) [HYPHEN] false
    (replaceRuns isWhiteSpace [HYPHEN] false (anchorCharacters title)).

(** The section of the indexer for a section of the parser. *)
Definition documentSection (s : MarkdownParser.SectionInfo) : DocIndexer.DocumentSection :=
  DocIndexer.mkDocumentSection (MarkdownParser.level s) (MarkdownParser.title s)
    (MarkdownParser.content s) (DocIndexer.generateAnchor (MarkdownParser.title s)).

(** The two loops go together: same sections closed, same section open. *)
Definition sameScan (ps : DocIndexer.ParseState) (ss : MarkdownParser.SectionScan) : Prop :=
  DocIndexer.parsedSections ps = List.map documentSection (MarkdownParser.sections ss) /\
  match DocIndexer.currentSection ps, MarkdownParser.currentSection ss with
  | Some pc, Some sc =>
      DocIndexer.openLevel pc = MarkdownParser.openLevel sc /\
      DocIndexer.openTitle pc = MarkdownParser.openTitle sc /\
      DocIndexer.openContent pc = MarkdownParser.openContent sc
  | None, None => True
  | _, _ => False
  end.

(** The record that [indexFile] stores for a file of that content. *)
Definition indexedDocument (relativePath filePath content : jsstring)
    : DocIndexer.DocumentIndex :=
  DocIndexer.mkDocumentIndex relativePath filePath (DocIndexer.basename filePath)
    (fst (DocIndexer.parseMarkdown content)) content
    (snd (DocIndexer.parseMarkdown content))
    (DocIndexer.extractKeywords (fst (DocIndexer.parseMarkdown content)) content).

(** An entry of the index of an indexer on [docsBasePath]: the key is the
    path of a markdown file relative to the base, and the document is the
    record of the content it holds, under that path. *)
Definition entryOf (docsBasePath : jsstring) (entry : jsstring * DocIndexer.DocumentIndex)
    : Prop :=
  endsWith (fst entry) (lit ".md") = true /\
  snd entry =
    indexedDocument (fst entry) (DocIndexer.pathJoin docsBasePath (fst entry))
      (DocIndexer.content (snd entry)).

(** What the build keeps: the entries are entries of the base, under
    distinct keys. *)
Definition kept (docsBasePath : jsstring) (index : DocIndexer.Index) : Prop :=
  Forall (entryOf docsBasePath) index /\ NoDup (List.map fst index).

(** An action that keeps it, however it completes. *)
Definition keeps {A : Type} (docsBasePath : jsstring) (m : DocIndexer.Action A) : Prop :=
  forall index, kept docsBasePath index -> kept docsBasePath (snd (m index)).

End WithHost.

(** A tree in which every directory named [image], [node_modules] or
    [dist] is replaced by an empty directory that cannot be listed. *)
Fixpoint pruneNode (node : DocIndexer.FsNode) : DocIndexer.FsNode :=
  match node with
  | DocIndexer.FsDir readable entries => DocIndexer.FsDir readable (pruneEntries entries)
  | other => other
  end
with pruneEntries (entries : DocIndexer.FsEntries) : DocIndexer.FsEntries :=
  match entries with
  | DocIndexer.FsNil => DocIndexer.FsNil
  | DocIndexer.FsCons name node rest =>
      DocIndexer.FsCons name
        (if (DocIndexer.isDirectory node && DocIndexer.skippedDirectory name)%bool
         then DocIndexer.FsDir false DocIndexer.FsNil
         else pruneNode node)
        (pruneEntries rest)
  end.

(** ** Sample data *)

(** [titledLink] is the text [[a](u Qt Q)] with Q the double
    quote: an inline link with a title. *)
Definition titledLink : jsstring :=
  lit "[a](u " ++ [DQUOTE] ++ lit "t" ++ [DQUOTE] ++ lit ")".

Definition titledLinkUrl : jsstring := lit "u " ++ [DQUOTE] ++ lit "t" ++ [DQUOTE].

(** The code units of a word of two Hangul syllables (U+ACB0 U+C81C). *)
Definition GYEOLJE : jsstring := [44208; 51228]%N.

(** The code units of a word of four Hangul syllables (U+ACB0 U+C81C
    U+C2B9 U+C778). *)
Definition GYEOLJESEUNGIN : jsstring := [44208; 51228; 49849; 51064]%N.

(** Two candidate table lines, each alone, with a line of text between
    them. *)
Definition strayLines : jsstring :=
  join [NEWLINE] [lit "| a |"; lit "text"; lit "| b |"].

(** A candidate line alone, an empty line, then a table: header,
    separator and one data row. *)
Definition strayHeader : jsstring :=
  join [NEWLINE] [lit "| a |"; lit ""; lit "| h |"; lit "|--|"; lit "| 1 |"].

(** A table of endpoints with one row that is filled and one that lacks
    its method. *)
Definition endpointsText : jsstring :=
  join [NEWLINE]
    [lit "| API | Method | Endpoint |"; lit "|---|---|---|";
     lit "| Pay | POST | /v1/pay |"; lit "| Query |  | /v1/query |"].

(** A table with a fourth column, and a row whose Method cell is blank. *)
Definition blankMethodText : jsstring :=
  join [NEWLINE]
    [lit "| API | Method | Endpoint | Note |"; lit "|---|---|---|---|";
     lit "| Pay |  | /v1/pay | x |"].

(** A table with a first column that is not one of the three, and a row
    whose three cells are filled after a blank cell in that column. *)
Definition blankNoteText : jsstring :=
  join [NEWLINE]
    [lit "| Note | API | Method | Endpoint |"; lit "|---|---|---|---|";
     lit "|  | Pay | POST | /v1/pay |"].

(** A documents directory in which [api] holds one file and [common]
    cannot be listed. *)
Definition sampleRoot : DocIndexer.FsEntries :=
  DocIndexer.FsCons (lit "api")
    (DocIndexer.FsDir true
       (DocIndexer.FsCons (lit "pay.md") (DocIndexer.FsFile (Some (lit "# Pay")))
          DocIndexer.FsNil))
    (DocIndexer.FsCons (lit "common") (DocIndexer.FsDir false DocIndexer.FsNil)
       DocIndexer.FsNil).

(** A documents directory in which every directory can be listed, with a
    file that cannot be read. *)
Definition readableRoot : DocIndexer.FsEntries :=
  DocIndexer.FsCons (lit "api")
    (DocIndexer.FsDir true
       (DocIndexer.FsCons (lit "pay.md") (DocIndexer.FsFile (Some (lit "# Pay")))
          (DocIndexer.FsCons (lit "locked.md") (DocIndexer.FsFile None)
             DocIndexer.FsNil)))
    DocIndexer.FsNil.

(** A document of two sections. *)
Definition twoSections : jsstring :=
  join [NEWLINE] [lit "# Intro"; lit "text"; lit "## Pay"].

(** A host engine that finds no definition for any reference. *)
Definition noDefinition (source subject : jsstring) : MarkdownParser.RegExpExec :=
  MarkdownParser.RegExpNull.

Definition oldDoc : DocIndexer.DocumentIndex :=
  DocIndexer.mkDocumentIndex (lit "README.md") (lit "/docs/README.md")
    (lit "README.md") (lit "Old") (lit "# Old") [] [lit "old"].

Definition oldIndex : DocIndexer.Index := [(lit "README.md", oldDoc)].

Definition sampleDoc : DocIndexer.DocumentIndex :=
  DocIndexer.mkDocumentIndex (lit "api/pay.md") (lit "/docs/api/pay.md")
    (lit "pay.md") (lit "Pay") (lit "# Pay") [] [lit "pay"].

Definition sampleIndex : DocIndexer.Index := [(lit "api/pay.md", sampleDoc)].

End Spec.

(* ===================================================================== *)
(** * Facts about the string operations *)
(* ===================================================================== *)

Module JSFacts.
Import JS.

Lemma startsWith_nil (s : jsstring) : startsWith s [] = true.
Proof. destruct s; reflexivity. Qed.

Lemma includes_nil (s : jsstring) : includes s [] = true.
Proof. destruct s; reflexivity. Qed.

Lemma startsWith_app (s t : jsstring) :
  startsWith s t = true <-> exists rest, s = t ++ rest.
Proof.
  revert s; induction t as [|y t IH]; intros s.
  - rewrite startsWith_nil. split; [intros _; now exists s | reflexivity].
  - destruct s as [|x s]; simpl.
    + split; [discriminate | intros [r Hr]; discriminate].
    + rewrite andb_true_iff, N.eqb_eq, IH. split.
      * intros [-> [r ->]]. now exists r.
      * intros [r Hr]. injection Hr as -> ->. split; [reflexivity | now exists r].
Qed.

(** [includes] is the substring test. *)
Lemma includes_app (s t : jsstring) :
  includes s t = true <-> exists before after, s = before ++ t ++ after.
Proof.
  induction s as [|x s IH].
  - cbn [includes]. rewrite orb_false_r, startsWith_app. split.
    + intros [r Hr]. now exists [], r.
    + intros [b [a Hs]]. destruct b; [now exists a | discriminate].
  - cbn [includes]. rewrite orb_true_iff, startsWith_app, IH. split.
    + intros [[r Hr] | [b [a Hs]]].
      * now exists [], r.
      * exists (x :: b), a. now rewrite Hs.
    + intros [[|y b] [a Hs]].
      * left. now exists a.
      * right. injection Hs as -> ->. now exists b, a.
Qed.

Lemma trimStart_nil (s : jsstring) : trimStart s = [] <-> Spec.blank s = true.
Proof.
  induction s as [|c s IH]; simpl; [tauto |].
  destruct (isWhiteSpace c); simpl; [exact IH | split; discriminate].
Qed.

Lemma trimEnd_nil (s : jsstring) : trimEnd s = [] <-> Spec.blank s = true.
Proof.
  induction s as [|c s IH]; simpl; [tauto |].
  destruct (trimEnd s) as [|x t].
  - destruct (isWhiteSpace c); simpl; [tauto | split; discriminate].
  - rewrite andb_true_iff. split; [discriminate |].
    intros [_ H]. apply IH in H. discriminate.
Qed.

Lemma blank_trimStart (s : jsstring) : Spec.blank (trimStart s) = Spec.blank s.
Proof.
  induction s as [|c s IH]; simpl; [reflexivity |].
  destruct (isWhiteSpace c) eqn:E; simpl; [exact IH | now rewrite E].
Qed.

Lemma blank_trimEnd (s : jsstring) : Spec.blank (trimEnd s) = Spec.blank s.
Proof.
  induction s as [|c s IH]; simpl; [reflexivity |].
  destruct (trimEnd s) as [|x t] eqn:E.
  - apply trimEnd_nil in E. rewrite E, andb_true_r.
    destruct (isWhiteSpace c) eqn:Ec; simpl; now rewrite ?Ec.
  - change (Spec.blank (c :: x :: t)) with (isWhiteSpace c && Spec.blank (x :: t))%bool.
    now rewrite IH.
Qed.

Lemma trim_nil (s : jsstring) : trim s = [] <-> Spec.blank s = true.
Proof. unfold trim. now rewrite trimEnd_nil, blank_trimStart. Qed.

Lemma trimStart_app (s rest : jsstring) :
  Spec.blank s = false -> trimStart (s ++ rest) = trimStart s ++ rest.
Proof.
  induction s as [|c s IH]; simpl; [discriminate |].
  destruct (isWhiteSpace c); simpl; [exact IH | reflexivity].
Qed.

Lemma trimEnd_app (before s : jsstring) :
  Spec.blank s = false -> trimEnd (before ++ s) = before ++ trimEnd s.
Proof.
  intros H. induction before as [|c before IH]; simpl; [reflexivity |].
  rewrite IH. destruct (before ++ trimEnd s) eqn:E; [| reflexivity].
  apply app_eq_nil in E as [_ E]. apply trimEnd_nil in E. congruence.
Qed.

Lemma trimStart_Forall (P : N -> Prop) (s : jsstring) :
  Forall P s -> Forall P (trimStart s).
Proof.
  induction 1 as [|c s Hc Hs IH]; simpl; [constructor |].
  destruct (isWhiteSpace c); [exact IH | now constructor].
Qed.

Lemma trimEnd_Forall (P : N -> Prop) (s : jsstring) :
  Forall P s -> Forall P (trimEnd s).
Proof.
  induction 1 as [|c s Hc Hs IH]; simpl; [constructor |].
  destruct (trimEnd s); [destruct (isWhiteSpace c); repeat constructor; exact Hc |].
  now constructor.
Qed.

Lemma split_single (sep : N) (s : jsstring) :
  Forall (fun c => c <> sep) s -> split sep s = [s].
Proof.
  induction 1 as [|c s Hc Hs IH]; simpl; [reflexivity |].
  destruct (N.eqb_spec c sep); [contradiction | now rewrite IH].
Qed.

Lemma split_app (sep : N) (s rest : jsstring) :
  Forall (fun c => c <> sep) s -> split sep (s ++ sep :: rest) = s :: split sep rest.
Proof.
  induction 1 as [|c s Hc Hs IH]; simpl.
  - now rewrite N.eqb_refl.
  - destruct (N.eqb_spec c sep); [contradiction | now rewrite IH].
Qed.

Lemma split_nonempty (sep : N) (s : jsstring) : split sep s <> [].
Proof.
  destruct s as [|c s]; simpl; [discriminate |].
  destruct (N.eqb c sep); [discriminate |].
  destruct (split sep s); discriminate.
Qed.

Lemma join_split (s : jsstring) : join [NEWLINE] (split NEWLINE s) = s.
Proof.
  induction s as [|c s IH]; [reflexivity |].
  cbn [split]. pose proof (split_nonempty NEWLINE s) as Hne.
  destruct (split NEWLINE s) as [|p ps]; [contradiction |].
  destruct (N.eqb_spec c NEWLINE) as [-> | Hc].
  - change (join [NEWLINE] ([] :: p :: ps))
      with ([] ++ [NEWLINE] ++ join [NEWLINE] (p :: ps)).
    now rewrite IH.
  - rewrite <- IH. destruct ps as [|p' ps]; reflexivity.
Qed.

Lemma split_join (lines : list jsstring) :
  lines <> [] ->
  Forall (Forall (fun c => c <> NEWLINE)) lines ->
  split NEWLINE (join [NEWLINE] lines) = lines.
Proof.
  intros Hne H. induction H as [|l lines Hl Hrest IH]; [contradiction |].
  destruct lines as [|l2 lines].
  - cbn [join]. now apply split_single.
  - change (join [NEWLINE] (l :: l2 :: lines))
      with (l ++ NEWLINE :: join [NEWLINE] (l2 :: lines)).
    rewrite (@split_app NEWLINE l _ Hl), IH; [reflexivity | discriminate].
Qed.

Lemma split_lines (sep : N) (s : jsstring) :
  Forall (Forall (fun c => c <> sep)) (split sep s).
Proof.
  induction s as [|c s IH]; cbn [split]; [repeat constructor |].
  destruct (N.eqb_spec c sep) as [-> | Hc]; [now constructor |].
  destruct (split sep s) as [|p ps]; [repeat constructor; exact Hc |].
  inversion IH; subst. constructor; [now constructor | assumption].
Qed.

Lemma includes_refl (s : jsstring) : includes s s = true.
Proof.
  apply includes_app. exists [], []. now rewrite app_nil_r.
Qed.

End JSFacts.

(* ===================================================================== *)
(** * Facts about the matcher *)
(* ===================================================================== *)

Module MatcherFacts.
Import JS Spec.


Section Matcher.
Variable R : Type.

(** A continuation that fails on every text of a kind closed under taking
    suffixes makes the quantifier fail on such a text. *)
Lemma rep_none (Q : N -> Prop) (p : N -> bool) (lo : nat) (hi : option nat)
    (k : jsstring -> jsstring -> option R) (s : jsstring) :
  (forall a t, Forall Q t -> k a t = None) ->
  Forall Q s -> forall acc, rep p lo hi acc s k = None.
Proof.
  intros Hk Hs; induction Hs as [|c s Hc Hs IH]; intros acc; simpl.
  - destruct (Nat.leb lo (List.length acc)); [apply Hk; constructor | reflexivity].
  - assert (Hstop : (if Nat.leb lo (List.length acc) then k acc (c :: s) else None) = None).
    { destruct (Nat.leb lo (List.length acc)); [apply Hk; now constructor | reflexivity]. }
    destruct (p c && below hi (List.length acc))%bool; [now rewrite IH |]; exact Hstop.
Qed.

Lemma chr_none (Q : N -> Prop) (x : N) (k : jsstring -> option R) (s : jsstring) :
  (forall t, Forall Q t -> k t = None) -> Forall Q s -> chr x s k = None.
Proof.
  intros Hk Hs. destruct Hs as [|c s Hc Hs]; simpl; [reflexivity |].
  destruct (N.eqb c x); [now apply Hk | reflexivity].
Qed.

Lemma chr_absent (x : N) (k : jsstring -> option R) (s : jsstring) :
  Forall (fun c => c <> x) s -> chr x s k = None.
Proof.
  destruct 1 as [|c s Hc Hs]; simpl; [reflexivity |].
  destruct (N.eqb_spec c x); [contradiction | reflexivity].
Qed.

(** Every match found by the loop satisfies what every anchored match
    satisfies. *)
Lemma execAll_Forall (P : R -> Prop) (matchAt : jsstring -> option (R * nat)) :
  (forall s m n, matchAt s = Some (m, n) -> P m) ->
  forall s skip, Forall P (execAll matchAt skip s).
Proof.
  intros H s; induction s as [|c s IH]; intros skip; simpl; [constructor |].
  destruct skip as [|skip]; [| apply IH].
  destruct (matchAt (c :: s)) as [[m n]|] eqn:E; [| apply IH].
  constructor; [eapply H; exact E | apply IH].
Qed.




End Matcher.

Lemma chr_some (R : Type) (x : N) (s : jsstring) (k : jsstring -> option R) (r : R) :
  chr x s k = Some r -> exists s', s = x :: s' /\ k s' = Some r.
Proof.
  destruct s as [|c s]; simpl; [discriminate |].
  destruct (N.eqb_spec c x) as [-> | _]; [eauto | discriminate].
Qed.

Lemma rep_some (R : Type) (p : N -> bool) (lo : nat) (hi : option nat)
    (k : jsstring -> jsstring -> option R) (s : jsstring) :
  forall acc r, rep p lo hi acc s k = Some r -> exists a t, k a t = Some r.
Proof.
  induction s as [|c s IH]; intros acc r; cbn [rep].
  - destruct (Nat.leb lo (List.length acc)); [eauto | discriminate].
  - assert (Hstop : (if Nat.leb lo (List.length acc) then k acc (c :: s) else None)
                    = Some r -> exists a t, k a t = Some r).
    { destruct (Nat.leb lo (List.length acc)); [eauto | discriminate]. }
    destruct (p c && below hi (List.length acc))%bool; [| exact Hstop].
    destruct (rep p lo hi (acc ++ [c]) s k) as [r'|] eqn:E; [| exact Hstop].
    intros E'; injection E' as <-. eapply IH; exact E.
Qed.

(** Whatever a quantifier followed by [k] matches, the quantifier has
    taken a run of its class, within its bounds, and [k] the rest. *)
Lemma rep_run (R : Type) (p : N -> bool) (lo : nat) (hi : option nat)
    (k : jsstring -> jsstring -> option R) (s : jsstring) :
  forall acc r,
  rep p lo hi acc s k = Some r ->
  exists run t,
    forallb p run = true /\ (lo <= List.length (acc ++ run))%nat /\
    (forall h, hi = Some h -> (List.length acc <= h)%nat ->
               (List.length (acc ++ run) <= h)%nat) /\
    s = run ++ t /\ k (acc ++ run) t = Some r.
Proof.
  induction s as [|c s IH]; intros acc r; cbn [rep].
  - destruct (Nat.leb_spec lo (List.length acc)); [| discriminate].
    intros E. exists [], []. rewrite app_nil_r. repeat split; auto.
  - assert (Hstop : (if Nat.leb lo (List.length acc) then k acc (c :: s) else None) = Some r ->
              exists run t,
                forallb p run = true /\ (lo <= List.length (acc ++ run))%nat /\
                (forall h, hi = Some h -> (List.length acc <= h)%nat ->
                           (List.length (acc ++ run) <= h)%nat) /\
                c :: s = run ++ t /\ k (acc ++ run) t = Some r).
    { destruct (Nat.leb_spec lo (List.length acc)); [| discriminate].
      intros E. exists [], (c :: s). rewrite app_nil_r. repeat split; auto. }
    destruct (p c) eqn:Hp; [| exact Hstop].
    destruct (below hi (List.length acc)) eqn:Hb; [| exact Hstop].
    cbn [andb].
    destruct (rep p lo hi (acc ++ [c]) s k) as [r'|] eqn:E; [| exact Hstop].
    intros E'; injection E' as <-.
    destruct (IH _ _ E) as [run [t [Hrun [Hlo [Hhi [Hs Hk]]]]]].
    exists (c :: run), t. rewrite <- app_assoc in Hlo, Hhi, Hk. cbn [app] in *.
    repeat split;
      [cbn [forallb]; now rewrite Hp, Hrun | exact Hlo | | now rewrite Hs | exact Hk].
    intros h Hh Hacc. apply Hhi; [exact Hh |].
    rewrite length_app. cbn [List.length]. subst hi. cbn [below] in Hb.
    apply Nat.ltb_lt in Hb. lia.
Qed.

(** The longest run is tried first: when the rest of the pattern matches
    after it, that is the match. *)
Lemma rep_first (R : Type) (p : N -> bool) (lo : nat) (hi : option nat)
    (k : jsstring -> jsstring -> option R) (run rest : jsstring) (r : R) :
  forallb p run = true ->
  forall acc,
  (lo <= List.length (acc ++ run))%nat ->
  match hi with
  | Some h => (List.length (acc ++ run) <= h)%nat
  | None => True
  end ->
  match rest with
  | [] => True
  | c :: _ => p c = false
  end ->
  k (acc ++ run) rest = Some r ->
  rep p lo hi acc (run ++ rest) k = Some r.
Proof.
  intros Hrun. induction run as [|c run IH]; intros acc Hlo Hhi Hrest Hk.
  - rewrite app_nil_r in *. cbn [app].
    assert (Hstop : (if Nat.leb lo (List.length acc) then k acc rest else None) = Some r).
    { destruct (Nat.leb_spec lo (List.length acc)); [exact Hk | lia]. }
    destruct rest as [|c rest]; cbn [rep]; [exact Hstop |].
    rewrite Hrest. exact Hstop.
  - cbn [forallb] in Hrun. apply andb_true_iff in Hrun as [Hc Hrun].
    cbn [app rep]. rewrite Hc.
    assert (Hb : below hi (List.length acc) = true).
    { destruct hi as [h|]; [| reflexivity]. cbn [below]. apply Nat.ltb_lt.
      rewrite length_app in Hhi. cbn [List.length] in Hhi. lia. }
    rewrite Hb. cbn [andb].
    rewrite (IH Hrun (acc ++ [c])); [reflexivity | | |exact Hrest |];
      rewrite <- app_assoc; assumption.
Qed.

Lemma word_not_space (c : N) : isWord c = true -> isWhiteSpace c = false.
Proof.
  unfold isWord, isAlnum, isLetter, isUpper, isLower, isDigit, isWhiteSpace, inRange.
  rewrite !orb_true_iff, !andb_true_iff, !N.leb_le, N.eqb_eq.
  intros H.
  repeat (apply orb_false_iff; split);
    try (apply N.eqb_neq; lia);
    apply andb_false_iff; rewrite !N.leb_gt; lia.
Qed.

End MatcherFacts.

(* ===================================================================== *)
(** * searchDocuments *)
(* ===================================================================== *)

Module SearchProofs.
Import JS DocIndexer Spec JSFacts.

Section Sorting.
Variable A : Type.
Variable key : A -> Z.

Let cmp (a b : A) : Z := (key b - key a)%Z.

Lemma insertBy_perm (x : A) (l : list A) : Permutation (insertBy cmp x l) (x :: l).
Proof.
  induction l as [|y l IH]; simpl; [reflexivity |].
  destruct (cmp x y <=? 0)%Z; [reflexivity |].
  rewrite IH. apply perm_swap.
Qed.

Lemma sortBy_perm (l : list A) : Permutation (sortBy cmp l) l.
Proof.
  induction l as [|x l IH]; simpl; [constructor |].
  rewrite insertBy_perm. now constructor.
Qed.

Lemma insertBy_sorted (x : A) (l : list A) :
  StronglySorted (descending key) l -> StronglySorted (descending key) (insertBy cmp x l).
Proof.
  induction 1 as [|y l Hl IH Hy]; simpl.
  - repeat constructor.
  - destruct (Z.leb_spec (cmp x y) 0) as [Hle | Hgt].
    + constructor; [now constructor |].
      constructor; [unfold descending, cmp in *; lia |].
      eapply Forall_impl; [| exact Hy].
      unfold descending, cmp in *. intros; lia.
    + constructor; [exact IH |].
      eapply Permutation_Forall; [symmetry; apply insertBy_perm |].
      constructor; [unfold descending, cmp in *; lia | exact Hy].
Qed.

Lemma sortBy_sorted (l : list A) : StronglySorted (descending key) (sortBy cmp l).
Proof.
  induction l as [|x l IH]; simpl; [constructor | now apply insertBy_sorted].
Qed.

End Sorting.

Section Search.
Context {host : Host}.

Lemma scoreOf_relevance (query : jsstring) (doc : DocumentIndex) :
  scoreOf (toLowerCase query) doc = relevance query doc.
Proof.
  unfold scoreOf, relevance.
  destruct (includes (toLowerCase (title doc)) _),
    (includes (toLowerCase (fileName doc)) _),
    (includes (toLowerCase (content doc)) _); lia.
Qed.

Lemma search_loop (q : jsstring) (docs : list DocumentIndex)
    (results : list (DocumentIndex * Z)) :
  fold_left (searchStep q) docs results =
  results ++ List.map (fun d => (d, scoreOf q d))
               (List.filter (fun d => (0 <? scoreOf q d)%Z) docs).
Proof.
  revert results; induction docs as [|d docs IH]; intros results; simpl.
  - now rewrite app_nil_r.
  - rewrite IH. unfold searchStep.
    destruct (0 <? scoreOf q d)%Z; simpl; [now rewrite <- app_assoc | reflexivity].
Qed.

Lemma searchDocuments_eq (index : Index) (query : jsstring) :
  searchDocuments index query =
  List.map fst
    (sortBy (fun a b => (snd b - snd a)%Z)
       (List.map (fun d => (d, relevance query d))
          (List.filter (fun d => (0 <? relevance query d)%Z) (mapValues index)))).
Proof.
  unfold searchDocuments. rewrite search_loop. simpl.
  do 2 f_equal.
  erewrite filter_ext; [apply map_ext |]; intros d; now rewrite scoreOf_relevance.
Qed.

Lemma sorted_pairs (l : list (DocumentIndex * Z)) (f : DocumentIndex -> Z) :
  Forall (fun p => snd p = f (fst p)) l ->
  StronglySorted (descending snd) l ->
  StronglySorted (descending f) (List.map fst l).
Proof.
  intros Hf Hs; induction Hs as [|p l Hs IH Hp]; simpl; [constructor |].
  inversion Hf as [|? ? Hp0 Hl]; subst.
  constructor; [now apply IH |].
  rewrite Forall_map. rewrite Forall_forall in *.
  intros r Hr. unfold descending in *.
  rewrite <- Hp0, <- (Hl r Hr). now apply Hp.
Qed.

(** C1. Each indexed document is scored +10 when its lower-cased title
    contains the lower-cased query, +5 when its lower-cased file name does,
    +1 for every keyword that contains it, and +1 when the lower-cased
    content does; the result of [searchDocuments] is made of exactly the
    documents with a positive score, in non-increasing order of score. *)
Theorem searchDocuments_ranked (index : Index) (query : jsstring) :
  Permutation (searchDocuments index query)
    (List.filter (fun d => (0 <? relevance query d)%Z) (mapValues index)) /\
  StronglySorted (descending (relevance query)) (searchDocuments index query).
Proof.
  rewrite searchDocuments_eq. split.
  - rewrite (sortBy_perm snd). now rewrite map_map, map_id.
  - apply sorted_pairs.
    + eapply Permutation_Forall; [symmetry; apply (sortBy_perm snd) |].
      rewrite Forall_map. apply Forall_forall. reflexivity.
    + apply (sortBy_sorted snd).
Qed.

Lemma relevance_empty (doc : DocumentIndex) : (16 <= relevance [] doc)%Z.
Proof.
  unfold relevance. rewrite (toLowerCase_plain (s := [])) by constructor.
  simpl. rewrite !includes_nil. lia.
Qed.

(** C2, as the code has it. The empty string is contained in every string,
    so for the empty query every indexed document scores at least 16 and
    [searchDocuments] returns all of them, in non-increasing order of
    score. *)
Theorem searchDocuments_empty_query (index : Index) :
  Permutation (searchDocuments index []) (mapValues index) /\
  StronglySorted (descending (relevance [])) (searchDocuments index []) /\
  Forall (fun d => (16 <= relevance [] d)%Z) (mapValues index).
Proof.
  assert (Hall : Forall (fun d => (16 <= relevance [] d)%Z) (mapValues index)).
  { apply Forall_forall. intros d _. apply relevance_empty. }
  rewrite searchDocuments_eq. repeat split; [| | exact Hall].
  - rewrite (sortBy_perm snd), map_map. simpl. rewrite map_id.
    induction Hall as [|d l Hd Hl IH]; simpl; [constructor |].
    destruct (Z.ltb_spec 0 (relevance [] d)); [now constructor | lia].
  - apply sorted_pairs; [| apply (sortBy_sorted snd)].
    eapply Permutation_Forall; [symmetry; apply (sortBy_perm snd) |].
    rewrite Forall_map. apply Forall_forall. reflexivity.
Qed.

End Search.

(** C2 fails: on an index of one document the empty query returns that
    document. *)
Lemma searchDocuments_empty_query_nonempty :
  sampleIndex <> [] /\
  searchDocuments (host := asciiHost) sampleIndex (lit "") = [sampleDoc] /\
  searchDocuments (host := asciiHost) sampleIndex (lit "") <> [].
Proof.
  split; [discriminate |]. split; [reflexivity | discriminate].
Qed.

End SearchProofs.

(* ===================================================================== *)
(** * generateAnchor *)
(* ===================================================================== *)

Module AnchorProofs.
Import JS DocIndexer Spec.

Lemma trimStart_id (s : jsstring) :
  Forall (fun c => isWhiteSpace c = false) s -> trimStart s = s.
Proof. destruct 1 as [|c s Hc _]; simpl; [reflexivity | now rewrite Hc]. Qed.

Lemma trimEnd_id (s : jsstring) :
  Forall (fun c => isWhiteSpace c = false) s -> trimEnd s = s.
Proof.
  induction 1 as [|c s Hc _ IH]; simpl; [reflexivity |].
  rewrite IH, Hc. now destruct s.
Qed.

Lemma trim_id (s : jsstring) :
  Forall (fun c => isWhiteSpace c = false) s -> trim s = s.
Proof. intros H. unfold trim. now rewrite trimStart_id, trimEnd_id. Qed.

Lemma replaceRuns_Forall (Q : N -> Prop) (p : N -> bool) (by_ : jsstring)
    (inRun : bool) (s : jsstring) :
  Forall Q by_ ->
  Forall (fun c => p c = false -> Q c) s ->
  Forall Q (replaceRuns p by_ inRun s).
Proof.
  intros Hby Hs; revert inRun.
  induction Hs as [|c s Hc _ IH]; intros inRun; simpl; [constructor |].
  destruct (p c) eqn:Hp.
  - apply Forall_app. split; [destruct inRun; [constructor | exact Hby] | apply IH].
  - constructor; [now apply Hc | apply IH].
Qed.

Section Anchor.
Context {host : Host}.

Lemma anchorCollapsed_no_space (title : jsstring) :
  Forall (fun c => isWhiteSpace c = false) (anchorCollapsed title).
Proof.
  unfold anchorCollapsed.
  apply replaceRuns_Forall; [repeat constructor |].
  eapply Forall_impl; [intros c H _; exact H |].
  apply replaceRuns_Forall; [repeat constructor |].
  apply Forall_forall. tauto.
Qed.

(** C4, as the code has it. The anchor is the lower-cased title with every
    character that is not a word character, white space or a hyphen
    removed, each run of white space replaced by a hyphen and then each run
    of hyphens collapsed to a single hyphen; it holds no white space, so
    the final [trim] removes nothing. *)
Theorem generateAnchor_collapsed (title : jsstring) :
  generateAnchor title = anchorCollapsed title /\
  Forall (fun c => isWhiteSpace c = false) (generateAnchor title).
Proof.
  assert (E : generateAnchor title = anchorCollapsed title).
  { unfold generateAnchor, removeAll.
    erewrite filter_ext.
    - apply trim_id, anchorCollapsed_no_space.
    - intros c. apply negb_involutive. }
  split; [exact E |]. rewrite E. apply anchorCollapsed_no_space.
Qed.

End Anchor.

(** C4 fails. A title that starts with Hangul keeps the hyphen that
    replaces the white space after it, where the specification trims it;
    and the hyphens around a hyphen are collapsed, where the specification
    keeps one for each run of white space. *)
Lemma generateAnchor_not_trimmed :
  generateAnchor (host := asciiHost) (GYEOLJE ++ lit " API") = lit "-api" /\
  anchorTrimmed (host := asciiHost) (GYEOLJE ++ lit " API") = lit "api" /\
  generateAnchor (host := asciiHost) (lit "a - b") = lit "a-b" /\
  anchorTrimmed (host := asciiHost) (lit "a - b") = lit "a---b".
Proof. repeat split; reflexivity. Qed.

End AnchorProofs.

(* ===================================================================== *)
(** * extractLinks *)
(* ===================================================================== *)

Module LinkProofs.
Import JS MarkdownParser Spec MatcherFacts.

Lemma linkTail_none (origin g1 g2 s5 : jsstring) :
  Forall (fun c => c <> RPAREN) s5 -> linkTail origin g1 g2 s5 = None.
Proof.
  intros H. unfold linkTail, opt.
  rewrite (rep_none (Q := fun c => c <> RPAREN)); [now apply chr_absent | | exact H].
  intros _ t Ht. apply chr_none with (Q := fun c => c <> RPAREN); [| exact Ht].
  intros t1 Ht1. apply rep_none with (Q := fun c => c <> RPAREN); [| exact Ht1].
  intros a2 t2 Ht2. apply chr_none with (Q := fun c => c <> RPAREN); [| exact Ht2].
  intros t3 Ht3. now apply chr_absent.
Qed.

(** At a closing parenthesis the title group cannot start, and the match
    ends there without a title. *)
Lemma linkTail_paren (origin g1 g2 s : jsstring) :
  linkTail origin g1 g2 (RPAREN :: s) =
  Some (mkLink g1 g2 None, (List.length origin - List.length s)%nat).
Proof. reflexivity. Qed.

Lemma group2_found (origin g1 s : jsstring) :
  In RPAREN s -> forall acc, acc <> [] ->
  exists l n, rep (isNotChar RPAREN) 1 None acc s (linkTail origin g1) = Some (l, n).
Proof.
  induction s as [|c s IH]; intros Hin acc Hacc; [destruct Hin |].
  cbn [rep]. unfold isNotChar at 1, below.
  destruct (N.eqb_spec c RPAREN) as [-> | Hc]; cbn [negb andb].
  - destruct acc; [contradiction |]. cbn [List.length Nat.leb].
    rewrite linkTail_paren. eauto.
  - destruct Hin as [Heq | Hin]; [congruence |].
    destruct (IH Hin (acc ++ [c])) as [l [n E]]; [now destruct acc |].
    fold (isNotChar RPAREN). rewrite E. eauto.
Qed.

Lemma not_in_Forall (x : N) (s : jsstring) : ~ In x s -> Forall (fun c => c <> x) s.
Proof. intros H. apply Forall_forall. intros c Hc ->. contradiction. Qed.

(** Group 2 is greedy and takes the title with it: whatever the match, the
    title group has not taken part. *)
Lemma group2_untitled (origin g1 s : jsstring) :
  forall acc l n,
  rep (isNotChar RPAREN) 1 None acc s (linkTail origin g1) = Some (l, n) ->
  linkTitle l = None.
Proof.
  induction s as [|c s IH]; intros acc l n.
  - cbn [rep]. rewrite linkTail_none by constructor.
    destruct (Nat.leb 1 (List.length acc)); discriminate.
  - cbn [rep]. unfold isNotChar at 1, below.
    destruct (N.eqb_spec c RPAREN) as [-> | Hc]; cbn [negb andb].
    + rewrite linkTail_paren.
      destruct (Nat.leb 1 (List.length acc)); [| discriminate].
      intros E; injection E as <- _. reflexivity.
    + fold (isNotChar RPAREN).
      destruct (rep (isNotChar RPAREN) 1 None (acc ++ [c]) s (linkTail origin g1))
        as [[l' n']|] eqn:E.
      * intros E'; injection E' as <- _. eapply IH; exact E.
      * destruct (in_dec N.eq_dec RPAREN s) as [Hin | Hnot].
        -- destruct (@group2_found origin g1 s Hin (acc ++ [c])) as [l' [n' E']];
             [now destruct acc | congruence].
        -- rewrite linkTail_none
             by (constructor; [exact Hc | now apply not_in_Forall]).
           destruct (Nat.leb 1 (List.length acc)); discriminate.
Qed.

Lemma linkPatternAt_untitled (s : jsstring) (l : Link) (n : nat) :
  linkPatternAt s = Some (l, n) -> linkTitle l = None.
Proof.
  unfold linkPatternAt. intros H.
  apply chr_some in H as [s1 [_ H]].
  apply rep_some in H as [g1 [s2 H]].
  apply chr_some in H as [s3 [_ H]].
  apply chr_some in H as [s4 [_ H]].
  exact (@group2_untitled s g1 s4 [] l n H).
Qed.

Section Links.
Variable regExpExec : jsstring -> jsstring -> RegExpExec.

Lemma referenceLinks_untitled (content : jsstring) (matches : list (jsstring * jsstring)) :
  forall links result,
  Forall (fun l => linkTitle l = None) links ->
  referenceLinks regExpExec content matches links = Normal result ->
  Forall (fun l => linkTitle l = None) result.
Proof.
  induction matches as [|[g1 g2] rest IH]; intros links result Hl; simpl.
  - intros E; injection E as <-. exact Hl.
  - destruct (regExpExec _ content) as [| |ref1]; [discriminate | now apply IH |].
    apply IH. apply Forall_app. split; [exact Hl | now repeat constructor].
Qed.

(** X22. No link returned by [extractLinks] has a title: in the pattern,
    group 2 runs up to the closing parenthesis and the title group never
    matches. *)
Lemma extractLinks_untitled (content : jsstring) (result : list Link) :
  extractLinks regExpExec content = Normal result ->
  Forall (fun l => linkTitle l = None) result.
Proof.
  unfold extractLinks. apply referenceLinks_untitled.
  apply execAll_Forall. exact linkPatternAt_untitled.
Qed.

(** C5 on the code. For the inline link with a title [titledLink], the
    link returned has the title inside its url and no title. *)
Theorem extractLinks_title_in_url :
  extractLinks regExpExec titledLink = Normal [mkLink (lit "a") titledLinkUrl None].
Proof. reflexivity. Qed.

End Links.

End LinkProofs.

(* ===================================================================== *)
(** * extractSections *)
(* ===================================================================== *)

Module SectionProofs.
Import JS MarkdownParser Spec JSFacts.

(** The loop with a section open: the heading of the open section, the
    lines collected for it and the lines that remain are cut in blocks. *)
Lemma loop_open (rest : list jsstring) :
  forall (i n : Z) (done : list SectionInfo) (heading g1 g2 : jsstring)
         (body : list jsstring) (start : Z),
  headingMatch heading = Some (g1, g2) ->
  Forall (fun line => isHeading line = false) body ->
  i = (start + Z.of_nat (List.length body) + 1)%Z ->
  n = (i + Z.of_nat (List.length rest))%Z ->
  exists out,
    finish (sectionLoop i rest
              (mkSectionScan done
                 (Some (mkOpenSection (Z.of_nat (List.length g1)) (trim g2) body start))))
           n = done ++ out /\
    Blocks start (heading :: body ++ rest) out.
Proof.
  induction rest as [|line rest IH]; intros i n done heading g1 g2 body start Hh Hb Hi Hn.
  - simpl in *. eexists. split; [reflexivity |].
    unfold closeSection; simpl.
    replace (n - 1)%Z with (start + Z.of_nat (List.length body))%Z by lia.
    apply Blocks_cons; [exact Hh | exact Hb | constructor].
  - cbn [sectionLoop]. unfold sectionStep; cbn [currentSection sections].
    destruct (headingMatch line) as [[h1 h2]|] eqn:Hl.
    + destruct (IH (i + 1)%Z n (done ++ [closeSection
          (mkOpenSection (Z.of_nat (List.length g1)) (trim g2) body start) (i - 1)])
          line h1 h2 [] i Hl) as [out [E B]];
        [constructor | simpl; lia | simpl in Hn; lia |].
      eexists. split; [rewrite E, <- app_assoc; reflexivity |].
      unfold closeSection; simpl.
      replace (i - 1)%Z with (start + Z.of_nat (List.length body))%Z by lia.
      apply Blocks_cons; [exact Hh | exact Hb |].
      replace (start + Z.of_nat (List.length body) + 1)%Z with i by lia. exact B.
    + cbn [openLevel openTitle openContent openLineStart].
      destruct (IH (i + 1)%Z n done heading g1 g2 (body ++ [line]) start Hh) as [out [E B]].
      * apply Forall_app. split; [exact Hb |]. constructor; [| constructor].
        unfold isHeading. now rewrite Hl.
      * rewrite length_app. simpl. lia.
      * simpl in Hn. lia.
      * exists out. split; [exact E |]. now rewrite <- app_assoc in B.
Qed.

(** The loop before any heading: the lines up to the first heading are
    dropped, the others are cut in blocks. *)
Lemma loop_closed (rest : list jsstring) :
  forall (i n : Z),
  n = (i + Z.of_nat (List.length rest))%Z ->
  Blocks (i + Z.of_nat (List.length (preamble rest))) (fromFirstHeading rest)
    (finish (sectionLoop i rest (mkSectionScan [] None)) n).
Proof.
  induction rest as [|line rest IH]; intros i n Hn.
  - simpl. constructor.
  - cbn [sectionLoop preamble fromFirstHeading]. unfold sectionStep; cbn [currentSection sections].
    unfold isHeading. destruct (headingMatch line) as [[h1 h2]|] eqn:Hl.
    + destruct (@loop_open rest (i + 1)%Z n [] line h1 h2 [] i Hl) as [out [E B]];
        [constructor | simpl; lia | simpl in Hn; lia |].
      rewrite E. simpl. now replace (i + 0)%Z with i by lia.
    + replace (i + Z.of_nat (List.length (line :: preamble rest)))%Z
        with ((i + 1) + Z.of_nat (List.length (preamble rest)))%Z by (simpl; lia).
      apply IH. simpl in Hn. lia.
Qed.

Lemma preamble_fromFirstHeading (lines : list jsstring) :
  lines = preamble lines ++ fromFirstHeading lines.
Proof.
  induction lines as [|line rest IH]; simpl; [reflexivity |].
  destruct (isHeading line); simpl; [reflexivity | now f_equal].
Qed.

(** The sections of a document cut in blocks its lines from the first
    heading on. *)
Lemma extractSections_blocks (content : jsstring) :
  Blocks (Z.of_nat (List.length (preamble (split NEWLINE content))))
    (fromFirstHeading (split NEWLINE content)) (extractSections content).
Proof.
  apply (@loop_closed (split NEWLINE content) 0%Z). lia.
Qed.

Lemma Blocks_contiguous (from : Z) (lines : list jsstring) (secs : list SectionInfo) :
  Blocks from lines secs -> contiguous from secs (from + Z.of_nat (List.length lines)).
Proof.
  induction 1 as [from | from heading g1 g2 body rest secs Hh Hb HB IH].
  - simpl. lia.
  - cbn [contiguous lineStart lineEnd]. repeat split; [lia |].
    replace (from + Z.of_nat (List.length (heading :: body ++ rest)))%Z
      with (from + Z.of_nat (List.length body) + 1 + Z.of_nat (List.length rest))%Z
      by (cbn [List.length]; rewrite length_app; lia).
    exact IH.
Qed.

Lemma contiguous_ordered (secs : list SectionInfo) :
  forall from stop, contiguous from secs stop ->
  Forall (fun s => (lineStart s <= lineEnd s)%Z) secs.
Proof.
  induction secs as [|s secs IH]; intros from stop H; [constructor |].
  destruct H as [Hs [Hle Hc]]. constructor; [lia | eapply IH; exact Hc].
Qed.

Lemma contiguous_consecutive (secs : list SectionInfo) :
  forall from stop, contiguous from secs stop ->
  Forall2 (fun a b => lineStart b = (lineEnd a + 1)%Z) (removelast secs) (tl secs).
Proof.
  induction secs as [|s secs IH]; intros from stop H; [constructor |].
  destruct H as [Hs [Hle Hc]].
  destruct secs as [|s' secs]; [constructor |].
  change (removelast (s :: s' :: secs)) with (s :: removelast (s' :: secs)).
  constructor; [apply Hc | exact (IH _ _ Hc)].
Qed.

Lemma contiguous_last (secs : list SectionInfo) :
  forall from stop, contiguous from secs stop ->
  match lastOf secs with
  | Some s => lineEnd s = (stop - 1)%Z
  | None => secs = []
  end.
Proof.
  induction secs as [|s secs IH]; intros from stop H; [reflexivity |].
  destruct H as [Hs [Hle Hc]].
  destruct secs as [|s' secs]; [simpl in *; lia |].
  specialize (IH _ _ Hc).
  change (lastOf (s :: s' :: secs)) with (lastOf (s' :: secs)).
  destruct (lastOf (s' :: secs)); [exact IH | discriminate IH].
Qed.

Lemma firstHeading_preamble (lines : list jsstring) :
  forall i,
  firstHeading i lines =
  match fromFirstHeading lines with
  | [] => None
  | _ :: _ => Some (i + Z.of_nat (List.length (preamble lines)))%Z
  end.
Proof.
  induction lines as [|line rest IH]; intros i; simpl; [reflexivity |].
  destruct (isHeading line); [f_equal; simpl; lia |].
  rewrite IH. destruct (fromFirstHeading rest); [reflexivity |].
  f_equal. simpl. lia.
Qed.

(** C10. The sections returned by [extractSections] are contiguous in line
    coordinates: each has [lineStart <= lineEnd]; the first starts at the
    first heading line (and there is no section exactly when there is no
    heading); each next one starts one line after the end of the one
    before; the last one ends at the last line of the input. *)
Theorem extractSections_contiguous (content : jsstring) :
  let lines := split NEWLINE content in
  let secs := extractSections content in
  Forall (fun s => (lineStart s <= lineEnd s)%Z) secs /\
  option_map lineStart (hd_error secs) = firstHeading 0 lines /\
  Forall2 (fun a b => lineStart b = (lineEnd a + 1)%Z) (removelast secs) (tl secs) /\
  match lastOf secs with
  | Some s => lineEnd s = (Z.of_nat (List.length lines) - 1)%Z
  | None => secs = []
  end.
Proof.
  intros lines secs.
  pose proof (extractSections_blocks content) as B.
  fold lines secs in B.
  pose proof (Blocks_contiguous B) as C.
  split; [eapply contiguous_ordered; exact C |].
  split; [| split; [eapply contiguous_consecutive; exact C |]].
  - rewrite firstHeading_preamble.
    destruct B; simpl; [reflexivity | f_equal; lia].
  - pose proof (contiguous_last _ _ _ C) as L.
    destruct (lastOf secs); [| exact L].
    rewrite L.
    pose proof (f_equal (@List.length _) (preamble_fromFirstHeading lines)) as E.
    rewrite length_app in E. lia.
Qed.

Lemma slice_app (A : Type) (pre mid post : list A) (a b : Z) :
  Z.of_nat (List.length pre) = a ->
  b = (a + Z.of_nat (List.length mid))%Z ->
  slice (pre ++ mid ++ post) a b = mid.
Proof.
  intros Ha Hb. unfold slice.
  replace (Z.to_nat a) with (List.length pre) by lia.
  replace (Z.to_nat (b - a)) with (List.length mid) by lia.
  rewrite skipn_app, skipn_all, Nat.sub_diag. simpl.
  rewrite firstn_app, firstn_all, Nat.sub_diag. simpl. apply app_nil_r.
Qed.

Lemma Blocks_lines (from : Z) (ls : list jsstring) (secs : list SectionInfo) :
  Blocks from ls secs ->
  forall pre, Z.of_nat (List.length pre) = from ->
  flat_map (sectionLines (pre ++ ls)) secs = ls /\
  Forall (describes (pre ++ ls)) secs.
Proof.
  induction 1 as [from | from heading g1 g2 body rest secs Hh Hb HB IH]; intros pre Hpre.
  - split; constructor.
  - destruct (IH (pre ++ heading :: body)) as [IH1 IH2].
    { rewrite length_app. simpl. lia. }
    replace ((pre ++ heading :: body) ++ rest) with (pre ++ heading :: body ++ rest)
      in IH1, IH2 by (now rewrite <- app_assoc).
    split.
    + cbn [flat_map]. rewrite IH1. unfold sectionLines at 1. cbn [lineStart lineEnd].
      rewrite (@slice_app _ pre (heading :: body) rest); [reflexivity | exact Hpre |].
      simpl List.length. lia.
    + constructor; [| exact IH2].
      exists g1, g2. cbn [lineStart lineEnd level title content].
      repeat split.
      * replace (Z.to_nat from) with (List.length pre + 0)%nat by lia.
        rewrite nth_error_app2 by lia.
        replace (List.length pre + 0 - List.length pre)%nat with 0%nat by lia.
        simpl. now rewrite Hh.
      * f_equal.
        change (pre ++ heading :: body ++ rest) with (pre ++ [heading] ++ body ++ rest).
        rewrite app_assoc. symmetry. apply slice_app.
        -- rewrite length_app. simpl. lia.
        -- lia.
Qed.

(** C6, as the code has it. The sections come in document order and cut
    the lines of the input from the first heading on: the lines spanned by
    the sections ([lineStart] to [lineEnd]), one section after the other,
    are the lines of the input without the lines before the first heading;
    and each section has the level and the trimmed title matched on its
    heading line, and for content the lines after it joined. *)
Theorem extractSections_partition (content : jsstring) :
  let lines := split NEWLINE content in
  let secs := extractSections content in
  flat_map (sectionLines lines) secs = fromFirstHeading lines /\
  join [NEWLINE] (preamble lines ++ flat_map (sectionLines lines) secs) = content /\
  Forall (describes lines) secs.
Proof.
  intros lines secs.
  pose proof (extractSections_blocks content) as B. fold lines secs in B.
  destruct (Blocks_lines B (preamble lines) eq_refl) as [H1 H2].
  rewrite <- preamble_fromFirstHeading in H1, H2.
  repeat split; [exact H1 | | exact H2].
  rewrite H1, <- preamble_fromFirstHeading. apply join_split.
Qed.

(** C6 fails. A heading with two spaces after the mark and the same
    heading with one space give the same sections, and no text comes before
    either: nothing computed from the sections gives back both inputs. *)
Lemma extractSections_not_injective :
  extractSections (lit "#  A") = extractSections (lit "# A") /\
  fromFirstHeading (split NEWLINE (lit "#  A")) = [lit "#  A"] /\
  fromFirstHeading (split NEWLINE (lit "# A")) = [lit "# A"] /\
  ~ (exists rejoin : list SectionInfo -> jsstring,
       forall content,
         rejoin (extractSections content) =
         join [NEWLINE] (fromFirstHeading (split NEWLINE content))).
Proof.
  repeat split; try reflexivity.
  intros [rejoin H].
  pose proof (H (lit "#  A")) as H1. pose proof (H (lit "# A")) as H2.
  change (extractSections (lit "#  A")) with (extractSections (lit "# A")) in H1.
  rewrite H2 in H1. discriminate H1.
Qed.

Section Indexer.
Context {host : Host}.

Lemma sameScan_step (i : Z) (line : jsstring) (ps : DocIndexer.ParseState)
    (ss : SectionScan) :
  sameScan ps ss -> sameScan (DocIndexer.parseStep ps line) (sectionStep i line ss).
Proof.
  intros [Hs Hc]. unfold DocIndexer.parseStep, sectionStep.
  destruct (headingMatch line) as [[g1 g2]|].
  - destruct (DocIndexer.currentSection ps) as [pc|], (currentSection ss) as [sc|];
      try contradiction; split; simpl; try (repeat split; reflexivity); [| exact Hs].
    destruct Hc as [Hl [Ht Hc]]. rewrite Hs, map_app. simpl. f_equal. f_equal.
    unfold DocIndexer.closeSection, documentSection, closeSection. simpl.
    now rewrite Hl, Ht, Hc.
  - destruct (DocIndexer.currentSection ps) as [pc|] eqn:Ep,
      (currentSection ss) as [sc|] eqn:Es; try contradiction.
    + destruct Hc as [Hl [Ht Hc]]. split; simpl; [exact Hs |].
      repeat split; [exact Hl | exact Ht | now rewrite Hc].
    + split; [exact Hs |]. now rewrite Ep, Es.
Qed.

Lemma sameScan_loop (lines : list jsstring) :
  forall i ps ss,
  sameScan ps ss ->
  sameScan (fold_left DocIndexer.parseStep lines ps) (sectionLoop i lines ss).
Proof.
  induction lines as [|line lines IH]; intros i ps ss H; [exact H |].
  simpl. apply IH. now apply sameScan_step.
Qed.

(** X26. The sections that the indexer keeps for a document are those of
    [extractSections], without the line numbers and with the anchor of the
    title. *)
Lemma parseMarkdown_sections (content : jsstring) :
  snd (DocIndexer.parseMarkdown content) =
  List.map documentSection (extractSections content).
Proof.
  unfold DocIndexer.parseMarkdown, extractSections, finish. cbn [snd].
  destruct (@sameScan_loop (split NEWLINE content) 0%Z
              (DocIndexer.mkParseState [] [] None) (mkSectionScan [] None))
    as [Hs Hc]; [split; [reflexivity | exact I] |].
  destruct (DocIndexer.currentSection _) as [pc|], (currentSection _) as [sc|];
    try contradiction; [| exact Hs].
  destruct Hc as [Hl [Ht Hc]]. rewrite Hs, map_app. simpl. f_equal. f_equal.
  unfold DocIndexer.closeSection, documentSection, closeSection. simpl.
  now rewrite Hl, Ht, Hc.
Qed.

End Indexer.

End SectionProofs.

(* ===================================================================== *)
(** * buildIndex *)
(* ===================================================================== *)

Module BuildProofs.
Import JS DocIndexer Spec.

Section Build.
Context {host : Host}.

(** A file that cannot be read or parsed never aborts the build. *)
Lemma indexFile_normal (node : FsNode) (filePath relativePath : jsstring) (index : Index) :
  fst (indexFile node filePath relativePath index) = Normal tt.
Proof.
  unfold indexFile, tryCatch, bind, readFileSync.
  destruct node as [[data|] | |]; reflexivity.
Qed.

Lemma bind_normal (A B : Type) (m : Action A) (f : A -> Action B) (index : Index) (b : B) :
  (exists a, fst (m index) = Normal a) ->
  (forall a index', fst (f a index') = Normal b) ->
  fst (bind m f index) = Normal b.
Proof.
  intros [a Hm] Hf. unfold bind.
  destruct (m index) as [[a'|] index']; [apply Hf | discriminate Hm].
Qed.

(** The traversal throws only at a directory that cannot be listed. *)
Lemma indexDirectory_normal :
  (forall node, listable node = true -> isDirectory node = true ->
     forall dirPath relativeBase index,
     fst (indexDirectory node dirPath relativeBase index) = Normal tt) /\
  (forall entries, listableEntries entries = true ->
     forall dirPath relativeBase index,
     fst (indexEntries entries dirPath relativeBase index) = Normal tt).
Proof.
  apply FsNode_FsEntries_ind.
  - discriminate.
  - intros readable entries IH Hl _ dirPath relativeBase index.
    cbn [listable] in Hl. apply andb_true_iff in Hl as [-> Hl].
    cbn [indexDirectory]. now apply IH.
  - discriminate.
  - reflexivity.
  - intros name node IHn rest IHr Hl dirPath relativeBase index.
    cbn [listableEntries] in Hl. apply andb_true_iff in Hl as [Hn Hr].
    cbn [indexEntries]. apply bind_normal; [| intros; now apply IHr].
    exists tt. destruct (isDirectory node) eqn:Ed.
    + destruct (negb (skippedDirectory name)); [now apply IHn | reflexivity].
    + destruct (isFile node && endsWith name (lit ".md"))%bool;
        [apply indexFile_normal | reflexivity].
Qed.

Lemma fsLookup_listable (name : jsstring) (root : FsEntries) (node : FsNode) :
  listableEntries root = true -> fsLookup name root = Some node -> listable node = true.
Proof.
  induction root as [|n x rest IH]; simpl; [discriminate |].
  intros H E. apply andb_true_iff in H as [Hx Hrest].
  destruct (streq n name); [injection E as <-; exact Hx | now apply IH].
Qed.

(** X25. When every directory can be listed, the build completes
    normally, whatever the files. *)
Lemma buildIndex_normal (docsBasePath : jsstring) (root : FsEntries) (index : Index) :
  listableEntries root = true ->
  fst (buildIndex docsBasePath root index) = Normal tt.
Proof.
  intros Hroot. unfold buildIndex.
  apply bind_normal; [exists tt; reflexivity | intros _ index1].
  apply bind_normal.
  - exists tt. revert index1.
    induction targetDirs as [|dir dirs IH]; intros index1; [reflexivity |].
    cbn [indexTargets]. apply bind_normal; [| intros; apply IH].
    exists tt. destruct (fsLookup dir root) as [node|] eqn:E; [| reflexivity].
    destruct (isDirectory node) eqn:Ed; [| reflexivity].
    apply indexDirectory_normal; [eapply fsLookup_listable; eassumption | exact Ed].
  - intros _ index2.
    destruct (fsLookup (lit "README.md") root); [apply indexFile_normal | reflexivity].
Qed.

(** The build starts by clearing the index: what it does is the same from
    any prior index. *)
Lemma buildIndex_clears (docsBasePath : jsstring) (root : FsEntries) (index : Index) :
  buildIndex docsBasePath root index = buildIndex docsBasePath root [].
Proof. reflexivity. Qed.

(** No exception propagates past [initializeIndexer], whatever the build
    does. *)
Lemma initializeIndexer_normal (docsBasePath : jsstring) (root : FsEntries)
    (index : Index) :
  fst (initializeIndexer docsBasePath root index) = Normal tt.
Proof.
  unfold initializeIndexer, tryCatch.
  destruct (buildIndex docsBasePath root index) as [[[]|] index']; reflexivity.
Qed.

(** A target directory that cannot be listed, after target directories
    that are absent: the exception of [readdirSync] leaves
    [indexDirectory] and [buildIndex], which has no handler. *)
Lemma indexTargets_throws (docsBasePath : jsstring) (root : FsEntries)
    (absent : list jsstring) (dir : jsstring) (rest : list jsstring)
    (entries : FsEntries) (index : Index) :
  Forall (fun d => fsLookup d root = None) absent ->
  fsLookup dir root = Some (FsDir false entries) ->
  indexTargets docsBasePath root (absent ++ dir :: rest) index = (Throw, index).
Proof.
  intros Habsent Hdir. induction Habsent as [|d absent Hd _ IH].
  - cbn [app indexTargets]. rewrite Hdir. reflexivity.
  - cbn [app indexTargets]. rewrite Hd. unfold bind at 1. cbn [ret]. exact IH.
Qed.

End Build.

(** When the first target directory cannot be listed, the build throws
    with the index cleared, and [initializeIndexer] leaves it empty. *)
Lemma initializeIndexer_first_directory (host : Host) (docsBasePath : jsstring)
    (root : FsEntries) (entries : FsEntries) (index : Index) :
  fsLookup (lit "api") root = Some (FsDir false entries) ->
  buildIndex docsBasePath root index = (Throw, []) /\
  initializeIndexer docsBasePath root index = (Normal tt, []).
Proof.
  intros H.
  assert (E : buildIndex docsBasePath root index = (Throw, [])).
  { unfold buildIndex, bind at 1, clear.
    change targetDirs with ([] ++ lit "api" :: [lit "common"; lit "management"; lit "migration"]).
    unfold bind.
    now rewrite (@indexTargets_throws host docsBasePath root [] (lit "api") _ entries []
                   (Forall_nil _) H). }
  split; [exact E |]. unfold initializeIndexer, tryCatch. now rewrite E.
Qed.

(** C3 on the code. On a first build (the index is empty) of a documents
    directory in which [api] holds a file and [common] cannot be listed,
    [buildIndex] throws and [initializeIndexer] catches the exception: it
    completes normally.  The index is not left empty: it holds the file of
    [api] that was indexed before the failure.  Started from an index that
    holds a document, the build does not leave that index either. *)
Theorem initializeIndexer_partial_index :
  fst (buildIndex (host := asciiHost) (lit "/docs") sampleRoot []) = Throw /\
  fst (initializeIndexer (host := asciiHost) (lit "/docs") sampleRoot []) = Normal tt /\
  List.map fst (snd (initializeIndexer (host := asciiHost) (lit "/docs") sampleRoot []))
    = [lit "api/pay.md"] /\
  getIndexSize (snd (initializeIndexer (host := asciiHost) (lit "/docs") sampleRoot []))
    = 1%Z /\
  List.map fst
    (snd (initializeIndexer (host := asciiHost) (lit "/docs") sampleRoot oldIndex))
    = [lit "api/pay.md"] /\
  snd (initializeIndexer (host := asciiHost) (lit "/docs") sampleRoot oldIndex) <> oldIndex.
Proof.
  repeat split; try reflexivity. vm_compute. discriminate.
Qed.

End BuildProofs.

(* ===================================================================== *)
(** * extractTables *)
(* ===================================================================== *)

Module TableProofs.
Import JS MarkdownParser Spec JSFacts.

Lemma candidateLine_not_blank (line : jsstring) :
  candidateLine line = true -> blank line = false.
Proof.
  unfold candidateLine. intros H. apply andb_true_iff in H as [H _].
  destruct (blank line) eqn:E; [| reflexivity].
  apply trim_nil in E. rewrite E in H. discriminate.
Qed.

(** A candidate table made of a header line and a separator line, alone in
    the document, is parsed to a table with the cells of the header line
    and no row. *)
Lemma extractTables_header_separator (header separator : jsstring) :
  candidateLine header = true ->
  candidateLine separator = true ->
  Forall (fun c => c <> NEWLINE) header ->
  Forall (fun c => c <> NEWLINE) separator ->
  extractTables (header ++ NEWLINE :: separator) =
  [mkTable (splitCells (trimStart header)) [] (header ++ NEWLINE :: separator)].
Proof.
  intros Hh Hs Nh Ns.
  pose proof (candidateLine_not_blank _ Hh) as Bh.
  pose proof (candidateLine_not_blank _ Hs) as Bs.
  unfold extractTables.
  rewrite (@split_app NEWLINE header separator Nh), (@split_single NEWLINE separator Ns).
  cbn [fold_left]. unfold tableStep at 2. unfold candidateLine in Hh. rewrite Hh.
  cbn [inTable tables currentTable app].
  unfold tableStep. unfold candidateLine in Hs. rewrite Hs.
  cbn [inTable tables currentTable app].
  unfold flushTable. cbn [inTable tables currentTable List.length Nat.leb andb join app].
  unfold parseTable.
  assert (T : trim (header ++ NEWLINE :: separator)
              = trimStart header ++ NEWLINE :: trimEnd separator).
  { unfold trim. rewrite (@trimStart_app header _ Bh).
    change (trimStart header ++ NEWLINE :: separator)
      with (trimStart header ++ [NEWLINE] ++ separator).
    rewrite app_assoc, (@trimEnd_app _ separator Bs), <- app_assoc. reflexivity. }
  rewrite T.
  rewrite (@split_app NEWLINE _ _ (trimStart_Forall Nh)), (@split_single NEWLINE _ (trimEnd_Forall Ns)).
  assert (L1 : Nat.ltb 0 (List.length (trim (trimStart header))) = true).
  { destruct (trim (trimStart header)) eqn:E; [| reflexivity].
    apply trim_nil in E. rewrite blank_trimStart in E. congruence. }
  assert (L2 : Nat.ltb 0 (List.length (trim (trimEnd separator))) = true).
  { destruct (trim (trimEnd separator)) eqn:E; [| reflexivity].
    apply trim_nil in E. rewrite blank_trimEnd in E. congruence. }
  cbn [List.filter]. rewrite L1, L2. reflexivity.
Qed.

Lemma split_piece (sep c : N) (s : jsstring) :
  In c s -> c <> sep -> exists piece, In piece (split sep s) /\ In c piece.
Proof.
  intros Hin Hc. induction s as [|x s IH]; [destruct Hin |].
  cbn [split]. pose proof (split_nonempty sep s) as Hne.
  destruct (split sep s) as [|p ps]; [contradiction |].
  destruct (N.eqb_spec x sep) as [-> | Hx].
  - destruct Hin as [-> | Hin]; [contradiction |].
    destruct (IH Hin) as [piece [Hp Hcp]]. exists piece. split; [now right | exact Hcp].
  - destruct Hin as [-> | Hin].
    + exists (c :: p). split; now left.
    + destruct (IH Hin) as [piece [[<- | Hp] Hcp]].
      * exists (x :: p). split; [now left | now right].
      * exists piece. split; [now right | exact Hcp].
Qed.

Lemma trimStart_In (c : N) (s : jsstring) :
  In c s -> isWhiteSpace c = false -> In c (trimStart s).
Proof.
  intros Hin Hc. induction s as [|x s IH]; [destruct Hin |].
  simpl. destruct (isWhiteSpace x) eqn:Ex; [| exact Hin].
  destruct Hin as [-> | Hin]; [congruence | now apply IH].
Qed.

(** A line with a character that is neither a pipe nor white space has a
    cell. *)
Lemma splitCells_nonempty (line : jsstring) (c : N) :
  In c line -> c <> PIPE -> isWhiteSpace c = false -> splitCells line <> [].
Proof.
  intros Hin Hp Hw.
  destruct (split_piece line Hin Hp) as [piece [Hpiece Hc]].
  assert (Hb : blank piece = false).
  { destruct (blank piece) eqn:E; [| reflexivity].
    unfold blank in E. rewrite forallb_forall in E. rewrite (E c Hc) in Hw. discriminate. }
  assert (Hcell : In (trim piece) (splitCells line)).
  { unfold splitCells. apply filter_In. split; [now apply in_map |].
    destruct (trim piece) eqn:E; [| reflexivity].
    apply trim_nil in E. congruence. }
  intros E. rewrite E in Hcell. destruct Hcell.
Qed.

(** X27. A header line with a cell and a separator line, alone in the
    document: one table, with headers and without rows. *)
Lemma extractTables_header_separator_cells (header separator : jsstring) (c : N) :
  candidateLine header = true ->
  candidateLine separator = true ->
  Forall (fun c => c <> NEWLINE) header ->
  Forall (fun c => c <> NEWLINE) separator ->
  In c header -> c <> PIPE -> isWhiteSpace c = false ->
  exists table,
    extractTables (header ++ NEWLINE :: separator) = [table] /\
    headers table <> [] /\ rows table = [].
Proof.
  intros Hh Hs Nh Ns Hin Hp Hw. eexists. split; [| split].
  - now apply extractTables_header_separator.
  - cbn [headers]. apply (@splitCells_nonempty _ c); [| exact Hp | exact Hw].
    now apply trimStart_In.
  - reflexivity.
Qed.

(** A candidate line alone in the document gives no table. *)
Lemma extractTables_single_line (line : jsstring) :
  Forall (fun c => c <> NEWLINE) line -> extractTables line = [].
Proof.
  intros Nl. unfold extractTables. rewrite (@split_single NEWLINE line Nl).
  cbn [fold_left]. unfold tableStep, flushTable. cbn [inTable tables currentTable].
  destruct (startsWith (trim line) [PIPE] && endsWith (trim line) [PIPE])%bool;
    [reflexivity |].
  destruct (startsWith (trim line) [PIPE]); reflexivity.
Qed.

(** C7 on the code. A candidate line alone is kept when a line of text
    ends its block, and is joined to the next candidate line: two blocks of
    one line give a table.  When the next block is a whole table, its
    header line is dropped as the separator and its separator line becomes
    a row. *)
Theorem extractTables_stray_line :
  extractTables strayLines =
    [mkTable [lit "a"] [] (join [NEWLINE] [lit "| a |"; lit "| b |"])] /\
  extractTables strayHeader =
    [mkTable [lit "a"] [cellRow [lit "--"]; cellRow [lit "1"]]
       (join [NEWLINE] [lit "| a |"; lit "| h |"; lit "|--|"; lit "| 1 |"])].
Proof. split; reflexivity. Qed.

End TableProofs.

(* ===================================================================== *)
(** * extractAPIEndpoints *)
(* ===================================================================== *)

Module EndpointProofs.
Import JS MarkdownParser Spec JSFacts.

Lemma findIndexFrom_firstIndex (A : Type) (p : A -> bool) (l : list A) :
  forall i,
  findIndexFrom p i l =
  match firstIndex p l with
  | Some k => (i + Z.of_nat k)%Z
  | None => (-1)%Z
  end.
Proof.
  induction l as [|x l IH]; intros i; simpl; [reflexivity |].
  destruct (p x); [lia |].
  rewrite IH. destruct (firstIndex p l); simpl; lia.
Qed.

Lemma findIndex_firstIndex (A : Type) (p : A -> bool) (l : list A) :
  findIndex p l =
  match firstIndex p l with
  | Some k => Z.of_nat k
  | None => (-1)%Z
  end.
Proof.
  unfold findIndex. rewrite findIndexFrom_firstIndex.
  destruct (firstIndex p l); reflexivity.
Qed.

Lemma filledCell_cellAt (row : TableRow) (column : nat) :
  filledCell row column =
  if truthy (cellAt row (Z.of_nat column)) then Some (cellAt row (Z.of_nat column))
  else None.
Proof.
  unfold filledCell, cellAt.
  destruct (Z.ltb_spec (Z.of_nat column) 0); [lia |].
  rewrite Nat2Z.id.
  destruct (nth_error (cells row) column) as [cell|]; [| reflexivity].
  destruct (cellContent cell); reflexivity.
Qed.

Lemma endpointRow_rowEndpoint (a m e : nat) (endpoints : list Endpoint) (row : TableRow) :
  endpointRow (Z.of_nat a) (Z.of_nat m) (Z.of_nat e) endpoints row =
  endpoints ++ rowEndpoint a m e row.
Proof.
  unfold endpointRow, rowEndpoint. rewrite !filledCell_cellAt.
  destruct (truthy (cellAt row (Z.of_nat a))),
    (truthy (cellAt row (Z.of_nat m))),
    (truthy (cellAt row (Z.of_nat e))); simpl; now rewrite ?app_nil_r.
Qed.

Lemma endpointRows (a m e : nat) (rows : list TableRow) :
  forall endpoints,
  fold_left (endpointRow (Z.of_nat a) (Z.of_nat m) (Z.of_nat e)) rows endpoints =
  endpoints ++ flat_map (rowEndpoint a m e) rows.
Proof.
  induction rows as [|row rows IH]; intros endpoints; simpl.
  - now rewrite app_nil_r.
  - now rewrite IH, endpointRow_rowEndpoint, <- app_assoc.
Qed.

Section Endpoints.
Context {host : Host}.

Lemma endpointTable_tableEndpoints (endpoints : list Endpoint) (table : Table) :
  endpointTable endpoints table = endpoints ++ tableEndpoints table.
Proof.
  unfold endpointTable, tableEndpoints.
  rewrite !findIndex_firstIndex.
  fold apiHeader methodHeader endpointHeader.
  destruct (firstIndex apiHeader (headers table)) as [a|];
    [| now rewrite app_nil_r].
  destruct (firstIndex methodHeader (headers table)) as [m|].
  2: { replace (Z.of_nat a =? -1)%Z with false by (symmetry; apply Z.eqb_neq; lia).
       now rewrite app_nil_r. }
  destruct (firstIndex endpointHeader (headers table)) as [e|].
  2: { replace (Z.of_nat a =? -1)%Z with false by (symmetry; apply Z.eqb_neq; lia).
       replace (Z.of_nat m =? -1)%Z with false by (symmetry; apply Z.eqb_neq; lia).
       now rewrite app_nil_r. }
  replace (Z.of_nat a =? -1)%Z with false by (symmetry; apply Z.eqb_neq; lia).
  replace (Z.of_nat m =? -1)%Z with false by (symmetry; apply Z.eqb_neq; lia).
  replace (Z.of_nat e =? -1)%Z with false by (symmetry; apply Z.eqb_neq; lia).
  apply endpointRows.
Qed.

Lemma endpointTables (tables : list Table) :
  forall endpoints,
  fold_left endpointTable tables endpoints = endpoints ++ flat_map tableEndpoints tables.
Proof.
  induction tables as [|table tables IH]; intros endpoints; simpl.
  - now rewrite app_nil_r.
  - now rewrite IH, endpointTable_tableEndpoints, <- app_assoc.
Qed.

Lemma lower_lit (s : string) :
  Forall (fun c => (c < 128)%N) (lit s) -> toLowerCase (lit s) = List.map lowerUnit (lit s).
Proof.
  intros H. apply toLowerCase_plain.
  eapply Forall_impl; [| exact H]. intros c Hc. now left.
Qed.

Lemma below128 (l : jsstring) :
  forallb (fun c => N.ltb c 128) l = true -> Forall (fun c => (c < 128)%N) l.
Proof.
  intros H. apply Forall_forall. intros c Hc.
  rewrite forallb_forall in H. apply N.ltb_lt. now apply H.
Qed.

Lemma standard_headers :
  firstIndex apiHeader [lit "API"; lit "Method"; lit "Endpoint"] = Some 0%nat /\
  firstIndex methodHeader [lit "API"; lit "Method"; lit "Endpoint"] = Some 1%nat /\
  firstIndex endpointHeader [lit "API"; lit "Method"; lit "Endpoint"] = Some 2%nat.
Proof.
  unfold apiHeader, methodHeader, endpointHeader. cbn [firstIndex].
  rewrite !lower_lit by (apply below128; reflexivity).
  repeat split; reflexivity.
Qed.

(** The triples returned by [extractAPIEndpoints] are, table after table
    and row after row, those of the rows of the parsed tables whose headers
    hold the three columns. *)
Lemma extractAPIEndpoints_tables (content : jsstring) :
  extractAPIEndpoints content = flat_map tableEndpoints (extractTables content).
Proof. unfold extractAPIEndpoints. now rewrite endpointTables. Qed.

(** On a document with such a table, the filled row gives its triple and
    the row whose method is empty gives none. *)
Lemma extractAPIEndpoints_sample :
  extractAPIEndpoints endpointsText =
  [mkEndpoint (lit "Pay") (lit "POST") (lit "/v1/pay")].
Proof.
  unfold extractAPIEndpoints. rewrite endpointTables. cbn [app].
  change (extractTables endpointsText) with
    [mkTable [lit "API"; lit "Method"; lit "Endpoint"]
       [cellRow [lit "Pay"; lit "POST"; lit "/v1/pay"];
        cellRow [lit "Query"; lit "/v1/query"]]
       endpointsText].
  cbn [flat_map]. rewrite app_nil_r. unfold tableEndpoints. cbn [headers rows].
  destruct standard_headers as [-> [-> ->]]. reflexivity.
Qed.

End Endpoints.

(** C8 on the code. [parseTable] drops the blank cells of a row, so that
    the cells after a blank one move to the left and no longer stand under
    their headers.  A row whose Method cell is blank gives a triple, made
    of the cells that follow; a row whose three cells are filled gives
    none when a blank cell stands before them.  On the table with the
    headers API, Method and Endpoint, the filled row gives its triple and
    the row with the blank Method cell none. *)
Theorem extractAPIEndpoints_shifted_cells :
  extractTables blankMethodText =
    [mkTable [lit "API"; lit "Method"; lit "Endpoint"; lit "Note"]
       [cellRow [lit "Pay"; lit "/v1/pay"; lit "x"]] blankMethodText] /\
  extractAPIEndpoints (host := asciiHost) blankMethodText =
    [mkEndpoint (lit "Pay") (lit "/v1/pay") (lit "x")] /\
  extractTables blankNoteText =
    [mkTable [lit "Note"; lit "API"; lit "Method"; lit "Endpoint"]
       [cellRow [lit "Pay"; lit "POST"; lit "/v1/pay"]] blankNoteText] /\
  extractAPIEndpoints (host := asciiHost) blankNoteText = [] /\
  extractAPIEndpoints (host := asciiHost) endpointsText =
    [mkEndpoint (lit "Pay") (lit "POST") (lit "/v1/pay")].
Proof. repeat split; reflexivity. Qed.

End EndpointProofs.

(* ===================================================================== *)
(** * extractKeywords *)
(* ===================================================================== *)

Module KeywordProofs.
Import JS DocIndexer Spec JSFacts MatcherFacts.

Lemma streq_eq (a b : jsstring) : streq a b = true <-> a = b.
Proof.
  revert b; induction a as [|x a IH]; intros [|y b]; simpl;
    try (split; (reflexivity || discriminate)).
  rewrite andb_true_iff, N.eqb_eq, IH. split.
  - intros [-> ->]. reflexivity.
  - intros E; injection E as -> ->. now split.
Qed.
















Section Keywords.
Context {host : Host}.


End Keywords.

(** A Hangul word with a Latin word right after it gives two keywords. *)
Lemma extractKeywords_mixed :
  extractKeywords (host := asciiHost) (lit "") (GYEOLJESEUNGIN ++ lit "API") =
  [GYEOLJESEUNGIN; lit "api"].
Proof. reflexivity. Qed.



End KeywordProofs.

(* ===================================================================== *)
(** * extractCodeBlocks *)
(* ===================================================================== *)

Module CodeBlockProofs.
Import JS MarkdownParser Spec JSFacts MatcherFacts.

(** The loop, with a block open and with none: what is pushed from there
    on reads the lines that remain as [Fences] says. *)
Lemma code_loops (rest : list jsstring) :
  (forall (i n : Z) (done : list CodeBlock.t) (opener : jsstring)
          (g1 : option jsstring) (body : list jsstring) (start : Z),
     codeBlockStart opener = Some g1 ->
     Forall (fun line => isCloser line = false) body ->
     i = (start + Z.of_nat (List.length body) + 1)%Z ->
     n = (i + Z.of_nat (List.length rest))%Z ->
     exists out,
       codeFinish (codeLoop i rest (mkCodeScan done true (orNull g1) start body)) n
       = done ++ out /\
       Fences start (opener :: body ++ rest) out) /\
  (forall (i n : Z) (done : list CodeBlock.t) (lang : option jsstring)
          (start : Z) (collected : list jsstring),
     n = (i + Z.of_nat (List.length rest))%Z ->
     exists out,
       codeFinish (codeLoop i rest (mkCodeScan done false lang start collected)) n
       = done ++ out /\
       Fences i rest out).
Proof.
  induction rest as [|line rest [IHin IHout]]; split.
  - intros i n done opener g1 body start Ho Hb Hi Hn.
    cbn [codeLoop]. unfold codeFinish.
    cbn [inCodeBlock codeLines codeBlocks currentLanguage codeStart andb].
    rewrite app_nil_r. destruct body as [|l body].
    + exists []. split; [now rewrite app_nil_r | eapply Fences_empty; exact Ho].
    + eexists. split; [reflexivity |].
      replace (n - 1)%Z with (start + Z.of_nat (List.length (l :: body)))%Z
        by (cbn [List.length] in *; lia).
      apply Fences_open; [exact Ho | exact Hb | discriminate].
  - intros i n done lang start collected Hn.
    exists []. split; [now rewrite app_nil_r | constructor].
  - intros i n done opener g1 body start Ho Hb Hi Hn.
    cbn [codeLoop List.length] in *.
    assert (Hstep : codeStep i line (mkCodeScan done true (orNull g1) start body) =
              if isCloser line then
                mkCodeScan
                  (done ++ [CodeBlock.mk (orNull g1) (join [NEWLINE] body) start (i - 1)])
                  false None start []
              else mkCodeScan done true (orNull g1) start (body ++ [line])).
    { unfold codeStep, isCloser.
      cbn [inCodeBlock codeLines codeBlocks currentLanguage codeStart].
      rewrite andb_true_r. destruct (codeBlockStart line); reflexivity. }
    rewrite Hstep. destruct (isCloser line) eqn:Hc.
    + destruct (IHout (i + 1)%Z n
                  (done ++ [CodeBlock.mk (orNull g1) (join [NEWLINE] body) start (i - 1)])
                  None start []) as [out [E F]]; [lia |].
      eexists. split; [rewrite E, <- app_assoc; reflexivity |].
      replace (i - 1)%Z with (start + Z.of_nat (List.length body))%Z by lia.
      apply Fences_closed; [exact Ho | exact Hb | exact Hc |].
      replace (start + Z.of_nat (List.length body) + 2)%Z with (i + 1)%Z by lia.
      exact F.
    + destruct (IHin (i + 1)%Z n done opener g1 (body ++ [line]) start Ho)
        as [out [E F]].
      * apply Forall_app. split; [exact Hb | now repeat constructor].
      * rewrite length_app. cbn [List.length]. lia.
      * lia.
      * exists out. split; [exact E | now rewrite <- app_assoc in F].
  - intros i n done lang start collected Hn.
    cbn [codeLoop List.length] in *.
    destruct (codeBlockStart line) as [g1|] eqn:Ho.
    + assert (Hstep : codeStep i line (mkCodeScan done false lang start collected) =
                mkCodeScan done true (orNull g1) i []).
      { unfold codeStep. cbn [inCodeBlock codeBlocks]. now rewrite Ho. }
      rewrite Hstep.
      destruct (IHin (i + 1)%Z n done line g1 [] i Ho) as [out [E F]];
        [constructor | cbn [List.length]; lia | lia |].
      exists out. split; [exact E | exact F].
    + assert (Hstep : codeStep i line (mkCodeScan done false lang start collected) =
                mkCodeScan done false lang start collected).
      { unfold codeStep. cbn [inCodeBlock]. rewrite Ho, andb_false_r. reflexivity. }
      rewrite Hstep.
      destruct (IHout (i + 1)%Z n done lang start collected) as [out [E F]]; [lia |].
      exists out. split; [exact E | now apply Fences_skip].
Qed.

Lemma extractCodeBlocks_fences (content : jsstring) :
  Fences 0 (split NEWLINE content) (extractCodeBlocks content).
Proof.
  destruct (code_loops (split NEWLINE content)) as [_ H].
  destruct (H 0%Z (Z.of_nat (List.length (split NEWLINE content))) [] None 0%Z [])
    as [out [E F]]; [lia |].
  unfold extractCodeBlocks. now rewrite E.
Qed.

Lemma separated_le (blocks : list CodeBlock.t) (from from' : Z) :
  (from' <= from)%Z -> separated from blocks -> separated from' blocks.
Proof.
  destruct blocks as [|b blocks]; [trivial |].
  intros Hle [H1 H2]. split; [lia | exact H2].
Qed.

Lemma fenced_block (pre : list jsstring) (opener : jsstring) (g1 : option jsstring)
    (body tail : list jsstring) :
  codeBlockStart opener = Some g1 ->
  Forall (fun line => isCloser line = false) body ->
  match tail with
  | [] => True
  | closer :: _ => isCloser closer = true
  end ->
  fenced (pre ++ opener :: body ++ tail)
    (CodeBlock.mk (orNull g1) (join [NEWLINE] body) (Z.of_nat (List.length pre))
       (Z.of_nat (List.length pre) + Z.of_nat (List.length body))).
Proof.
  intros Ho Hb Ht. unfold fenced.
  cbn [CodeBlock.lineStart CodeBlock.lineEnd CodeBlock.language CodeBlock.code].
  assert (Hslice : slice (pre ++ opener :: body ++ tail)
                     (Z.of_nat (List.length pre) + 1)
                     (Z.of_nat (List.length pre) + Z.of_nat (List.length body) + 1) = body).
  { change (pre ++ opener :: body ++ tail) with (pre ++ [opener] ++ body ++ tail).
    rewrite app_assoc. apply SectionProofs.slice_app.
    - rewrite length_app. simpl. lia.
    - lia. }
  rewrite Hslice.
  repeat split; try lia; try assumption.
  - rewrite length_app. cbn [List.length]. rewrite length_app. lia.
  - exists opener, g1. repeat split; [| exact Ho].
    rewrite Nat2Z.id, nth_error_app2, Nat.sub_diag by lia. reflexivity.
  - destruct tail as [|closer rest].
    + left. rewrite length_app. cbn [List.length]. rewrite length_app. simpl. lia.
    + right.
      replace (Z.to_nat (Z.of_nat (List.length pre) + Z.of_nat (List.length body) + 1))
        with (List.length (pre ++ opener :: body) + 0)%nat
        by (rewrite length_app; cbn [List.length]; lia).
      change (pre ++ opener :: body ++ closer :: rest)
        with (pre ++ (opener :: body) ++ closer :: rest).
      rewrite app_assoc, nth_error_app2 by lia.
      replace (List.length (pre ++ opener :: body) + 0 - List.length (pre ++ opener :: body))%nat
        with 0%nat by lia.
      simpl. now rewrite Ht.
Qed.

Lemma Fences_fenced (from : Z) (ls : list jsstring) (blocks : list CodeBlock.t) :
  Fences from ls blocks ->
  forall pre, Z.of_nat (List.length pre) = from ->
  Forall (fenced (pre ++ ls)) blocks /\ separated from blocks.
Proof.
  induction 1 as [from | from line rest blocks Hl HF IH
                 | from opener g1 body closer rest blocks Ho Hb Hc HF IH
                 | from opener g1 body Ho Hb Hne
                 | from opener g1 Ho]; intros pre Hpre.
  - split; constructor.
  - destruct (IH (pre ++ [line])) as [IH1 IH2].
    { rewrite length_app. simpl. lia. }
    rewrite <- app_assoc in IH1. split; [exact IH1 |].
    eapply separated_le; [| exact IH2]. lia.
  - destruct (IH (pre ++ opener :: body ++ [closer])) as [IH1 IH2].
    { rewrite length_app. cbn [List.length]. rewrite length_app. simpl. lia. }
    replace ((pre ++ opener :: body ++ [closer]) ++ rest)
      with (pre ++ opener :: body ++ closer :: rest) in IH1
      by (rewrite <- app_assoc; cbn [app]; now rewrite <- app_assoc).
    split.
    + constructor; [| exact IH1]. subst from. now apply fenced_block.
    + cbn [separated CodeBlock.lineStart CodeBlock.lineEnd]. split; [lia |].
      eapply separated_le; [| exact IH2]. lia.
  - split.
    + constructor; [| constructor]. subst from.
      rewrite <- (app_nil_r body) at 1. now apply fenced_block.
    + cbn [separated CodeBlock.lineStart]. split; [lia | exact I].
  - split; constructor.
Qed.

(** X1. Every block returned by [extractCodeBlocks] lies within the
    document with [lineStart <= lineEnd]; the line at [lineStart] is an
    opening fence and gives the language; the code is the lines from
    [lineStart + 1] to [lineEnd] joined by newlines, none of which is a
    closing fence (the fences are not in the code); and the line after
    [lineEnd] is a closing fence, unless the document ends at [lineEnd]. *)
Theorem extractCodeBlocks_fenced (content : jsstring) :
  Forall (fenced (split NEWLINE content)) (extractCodeBlocks content).
Proof.
  exact (proj1 (Fences_fenced (extractCodeBlocks_fences content) [] eq_refl)).
Qed.

Lemma separated_pairs (blocks : list CodeBlock.t) :
  forall from, separated from blocks ->
  Forall2 (fun a b => (CodeBlock.lineEnd a + 2 <= CodeBlock.lineStart b)%Z)
    (removelast blocks) (tl blocks).
Proof.
  induction blocks as [|a blocks IH]; intros from H; [constructor |].
  destruct H as [_ H]. destruct blocks as [|b blocks]; [constructor |].
  change (removelast (a :: b :: blocks)) with (a :: removelast (b :: blocks)).
  constructor; [apply H | exact (IH _ H)].
Qed.

(** X2. The blocks come in document order and do not touch: each block
    starts at least two lines after the end of the one before, the closing
    fence of that one lying between them. *)
Theorem extractCodeBlocks_separated (content : jsstring) :
  Forall2 (fun a b => (CodeBlock.lineEnd a + 2 <= CodeBlock.lineStart b)%Z)
    (removelast (extractCodeBlocks content)) (tl (extractCodeBlocks content)).
Proof.
  apply (@separated_pairs _ 0%Z).
  exact (proj2 (Fences_fenced (extractCodeBlocks_fences content) [] eq_refl)).
Qed.

Lemma fenceTail_some (g1 g : option jsstring) (s : jsstring) :
  fenceTail g1 s = Some g -> g = g1 /\ forallb isWhiteSpace s = true.
Proof.
  unfold fenceTail. intros H.
  apply rep_run in H as [run [t [Hrun [_ [_ [Hs Hk]]]]]].
  destruct t; [| discriminate]. injection Hk as <-.
  rewrite app_nil_r in Hs. subst s. now split.
Qed.

(** An opening fence is three backticks, a word or nothing, and white
    space or nothing; group 1 is the word. *)
Lemma codeBlockStart_shape (line : jsstring) (g : option jsstring) :
  codeBlockStart line = Some g ->
  exists w ws,
    line = FENCE ++ w ++ ws /\ forallb isWord w = true /\
    forallb isWhiteSpace ws = true /\
    g = match w with [] => None | _ :: _ => Some w end.
Proof.
  unfold codeBlockStart. intros H.
  apply chr_some in H as [s1 [-> H]].
  apply chr_some in H as [s2 [-> H]].
  apply chr_some in H as [s3 [-> H]].
  unfold opt in H.
  destruct (rep isWord 1 None [] s3 (fun g1 s4 => fenceTail (Some g1) s4))
    as [g'|] eqn:E.
  - injection H as <-.
    apply rep_run in E as [w [t [Hw [Hlo [_ [Hs Hk]]]]]].
    cbn [app] in *. apply fenceTail_some in Hk as [-> Ht].
    exists w, t. subst s3. repeat split; try assumption.
    destruct w; [cbn in Hlo; lia | reflexivity].
  - apply fenceTail_some in H as [-> Hs].
    exists [], s3. now repeat split.
Qed.

Lemma fenceTail_space (g1 : option jsstring) (ws : jsstring) :
  forallb isWhiteSpace ws = true -> fenceTail g1 ws = Some g1.
Proof.
  intros H. unfold fenceTail. rewrite <- (app_nil_r ws).
  apply rep_first; [exact H | cbn; lia | exact I | exact I | reflexivity].
Qed.

Lemma codeBlockStart_fence (w ws : jsstring) :
  forallb isWord w = true ->
  forallb isWhiteSpace ws = true ->
  codeBlockStart (FENCE ++ w ++ ws) = Some (match w with [] => None | _ :: _ => Some w end).
Proof.
  intros Hw Hws. unfold codeBlockStart, FENCE. cbn [app chr].
  rewrite !N.eqb_refl. unfold opt.
  destruct w as [|c w].
  - cbn [app].
    assert (E : rep isWord 1 None [] ws (fun g1 s4 => fenceTail (Some g1) s4) = None).
    { destruct ws as [|x ws]; [reflexivity |].
      cbn [rep]. cbn [forallb] in Hws. apply andb_true_iff in Hws as [Hx _].
      destruct (isWord x) eqn:E; [| reflexivity].
      apply word_not_space in E. congruence. }
    rewrite E. now apply fenceTail_space.
  - rewrite (@rep_first _ isWord 1 None _ (c :: w) ws (Some (c :: w)) Hw []);
      [reflexivity | cbn; lia | exact I | | now apply fenceTail_space].
    destruct ws as [|x ws]; [exact I |].
    cbn [forallb] in Hws. apply andb_true_iff in Hws as [Hx _].
    destruct (isWord x) eqn:E; [| reflexivity].
    apply word_not_space in E. congruence.
Qed.

Lemma fenced_language (lines : list jsstring) (b : CodeBlock.t) :
  fenced lines b ->
  match CodeBlock.language b with
  | None => True
  | Some w => w <> [] /\ forallb isWord w = true
  end.
Proof.
  intros [_ [_ [[opener [g1 [_ [Ho Hl]]]] _]]]. rewrite Hl.
  apply codeBlockStart_shape in Ho as [w [ws [_ [Hw [_ ->]]]]].
  destruct w as [|c w]; [exact I |]. cbn [orNull truthy List.length Nat.ltb Nat.leb].
  split; [discriminate | exact Hw].
Qed.

Lemma blocks_fenced (content : jsstring) (b : CodeBlock.t) :
  In b (extractCodeBlocks content) -> fenced (split NEWLINE content) b.
Proof.
  intros Hin.
  pose proof (proj1 (Fences_fenced (extractCodeBlocks_fences content) [] eq_refl)) as H.
  rewrite Forall_forall in H. now apply H.
Qed.

(** X3. The language of a block is absent or a non-empty word made of
    letters, digits and underscores: it is never the empty string. *)
Theorem extractCodeBlocks_language (content : jsstring) :
  Forall (fun b =>
            match CodeBlock.language b with
            | None => True
            | Some w => w <> [] /\ forallb isWord w = true
            end) (extractCodeBlocks content).
Proof.
  apply Forall_forall. intros b Hin.
  eapply fenced_language. apply blocks_fenced. exact Hin.
Qed.

Lemma codeLoop_body (body : list jsstring) :
  forall (i : Z) (rest : list jsstring) (done : list CodeBlock.t)
         (lang : option jsstring) (start : Z) (collected : list jsstring),
  Forall (fun line => isCloser line = false) body ->
  codeLoop i (body ++ rest) (mkCodeScan done true lang start collected) =
  codeLoop (i + Z.of_nat (List.length body)) rest
    (mkCodeScan done true lang start (collected ++ body)).
Proof.
  induction body as [|line body IH]; intros i rest done lang start collected Hb.
  - cbn [app List.length]. rewrite app_nil_r. f_equal. lia.
  - inversion Hb as [|? ? Hl Hb']; subst. cbn [app codeLoop].
    assert (Hstep : codeStep i line (mkCodeScan done true lang start collected) =
              mkCodeScan done true lang start (collected ++ [line])).
    { unfold codeStep, isCloser in *.
      cbn [inCodeBlock codeLines codeBlocks currentLanguage codeStart].
      rewrite Hl. destruct (codeBlockStart line); reflexivity. }
    rewrite Hstep, IH by exact Hb'. rewrite <- app_assoc. f_equal.
    cbn [List.length]. lia.
Qed.

(** X4. A fenced block written out and read back: the document made of an
    opening fence with a word for language, lines of code none of which
    is a closing fence, and a closing fence gives exactly one block, with
    that language, that code, and the lines of the code for span. *)
Theorem extractCodeBlocks_renderBlock (language : jsstring) (body : list jsstring) :
  forallb isWord language = true ->
  Forall (fun line => isCloser line = false) body ->
  Forall (Forall (fun c => c <> NEWLINE)) body ->
  extractCodeBlocks (renderBlock language body) =
  [CodeBlock.mk (orNull (Some language)) (join [NEWLINE] body) 0
     (Z.of_nat (List.length body))].
Proof.
  intros Hw Hb Hn. unfold extractCodeBlocks, renderBlock.
  rewrite split_join; [| discriminate |].
  2: { constructor.
       - apply Forall_app. split; [repeat constructor; discriminate |].
         apply Forall_forall. intros c Hc ->.
         rewrite forallb_forall in Hw. now apply Hw in Hc.
       - apply Forall_app. split; [exact Hn |].
         repeat constructor; discriminate. }
  cbn [codeLoop].
  assert (Hopen : codeStep 0 (FENCE ++ language) (mkCodeScan [] false None 0 []) =
            mkCodeScan [] true (orNull (Some language)) 0 []).
  { unfold codeStep. cbn [inCodeBlock codeBlocks].
    rewrite <- (app_nil_r language) at 1.
    rewrite (@codeBlockStart_fence language [] Hw eq_refl).
    destruct language; reflexivity. }
  rewrite Hopen, codeLoop_body by exact Hb.
  cbn [app codeLoop]. unfold codeStep at 1.
  cbn [inCodeBlock codeLines codeBlocks currentLanguage codeStart].
  replace (codeBlockStart FENCE) with (Some (@None jsstring)) by reflexivity.
  replace (streq (trim FENCE) FENCE) with true by reflexivity.
  cbn [andb app]. unfold codeFinish. cbn [inCodeBlock codeBlocks andb].
  do 2 f_equal. lia.
Qed.

(** The theorem at the block of one line [x] in the language [js]. *)
Lemma extractCodeBlocks_renderBlock_witness :
  extractCodeBlocks (renderBlock (lit "js") [lit "x"]) =
  [CodeBlock.mk (Some (lit "js")) (lit "x") 0 1].
Proof.
  apply (@extractCodeBlocks_renderBlock (lit "js") [lit "x"]).
  - reflexivity.
  - repeat constructor.
  - repeat constructor; discriminate.
Defined.

End CodeBlockProofs.

(* ===================================================================== *)
(** * The finders of the parser *)
(* ===================================================================== *)

Module FinderProofs.
Import JS MarkdownParser Spec JSFacts MatcherFacts.

Lemma streq_same (a b : jsstring) : streq a b = true -> a = b.
Proof.
  revert b; induction a as [|x a IH]; intros [|y b]; simpl; try discriminate;
    [reflexivity |].
  intros H. apply andb_true_iff in H as [Hx Hs].
  apply N.eqb_eq in Hx. subst. f_equal. now apply IH.
Qed.

Lemma filter_flat_map (A B : Type) (f : A -> B) (p : B -> bool) (l : list A) :
  List.filter p (List.map f l) = flat_map (fun a => if p (f a) then [f a] else []) l.
Proof.
  induction l as [|a l IH]; simpl; [reflexivity |].
  destruct (p (f a)); simpl; now rewrite IH.
Qed.

Lemma flat_map_short (A B : Type) (f : A -> list B) (l : list A) :
  (forall a, (List.length (f a) <= 1)%nat) ->
  (List.length (flat_map f l) <= List.length l)%nat.
Proof.
  intros H. induction l as [|a l IH]; simpl; [lia |].
  rewrite length_app. specialize (H a). lia.
Qed.

Section Finders.
Context {host : Host}.

(** X5. [extractCodeBlocksByLanguage] returns, in order, the blocks with a
    language that contains the lower-cased request or is contained in it,
    lower-cased (so that equality, the first test of the code, adds
    nothing); a block without language is never returned, and with the
    empty request all the blocks with a language are. *)
Theorem extractCodeBlocksByLanguage_tagged (content language : jsstring) :
  extractCodeBlocksByLanguage content language =
  List.filter (fun b =>
    match CodeBlock.language b with
    | Some tag =>
        (includes (toLowerCase tag) (toLowerCase language)
         || includes (toLowerCase language) (toLowerCase tag))%bool
    | None => false
    end) (extractCodeBlocks content) /\
  extractCodeBlocksByLanguage content [] =
  List.filter (fun b =>
    match CodeBlock.language b with
    | Some _ => true
    | None => false
    end) (extractCodeBlocks content).
Proof.
  assert (Hfirst : forall l,
    extractCodeBlocksByLanguage content l =
    List.filter (fun b =>
      match CodeBlock.language b with
      | Some tag =>
          (includes (toLowerCase tag) (toLowerCase l)
           || includes (toLowerCase l) (toLowerCase tag))%bool
      | None => false
      end) (extractCodeBlocks content)).
  { intros l. unfold extractCodeBlocksByLanguage.
    apply filter_ext_in. intros b Hin.
    pose proof (CodeBlockProofs.fenced_language (CodeBlockProofs.blocks_fenced _ _ Hin)) as Hl.
    destruct (CodeBlock.language b) as [tag|]; [| reflexivity].
    destruct Hl as [Hne _]. destruct tag as [|c tag]; [contradiction |].
    cbn [orNull truthy List.length Nat.ltb Nat.leb].
    destruct (streq (toLowerCase (c :: tag)) (toLowerCase l)) eqn:E; [| reflexivity].
    apply streq_same in E. rewrite E, includes_refl. reflexivity. }
  split; [apply Hfirst |].
  rewrite Hfirst. apply filter_ext. intros b.
  destruct (CodeBlock.language b); [| reflexivity].
  rewrite (toLowerCase_plain (s := [])) by constructor.
  cbn [List.map]. now rewrite includes_nil.
Qed.

(** X6. [findTableColumn] returns nothing when no header contains the
    name; otherwise it returns, row after row, the cells of the first such
    column that exist and are not empty: never an empty string, and at
    most one value for each row. *)
Theorem findTableColumn_cells (table : Table) (columnName : jsstring) :
  findTableColumn table columnName =
  match firstIndex (fun header => includes (toLowerCase header) (toLowerCase columnName))
          (headers table) with
  | None => []
  | Some column =>
      flat_map (fun row =>
        match filledCell row column with
        | Some c => [c]
        | None => []
        end) (rows table)
  end /\
  Forall (fun c => c <> []) (findTableColumn table columnName) /\
  (List.length (findTableColumn table columnName) <= List.length (rows table))%nat.
Proof.
  assert (E : findTableColumn table columnName =
    match firstIndex (fun header => includes (toLowerCase header) (toLowerCase columnName))
            (headers table) with
    | None => []
    | Some column =>
        flat_map (fun row =>
          match filledCell row column with
          | Some c => [c]
          | None => []
          end) (rows table)
    end).
  { unfold findTableColumn. rewrite EndpointProofs.findIndex_firstIndex.
    destruct (firstIndex _ (headers table)) as [column|]; [| reflexivity].
    replace (Z.of_nat column =? -1)%Z with false by (symmetry; apply Z.eqb_neq; lia).
    rewrite Nat2Z.id, filter_flat_map. apply flat_map_ext. intros row.
    unfold filledCell. destruct (nth_error (cells row) column) as [cell|]; [| reflexivity].
    destruct (cellContent cell); reflexivity. }
  split; [exact E |]. rewrite E.
  destruct (firstIndex _ (headers table)) as [column|]; [| split; [constructor | simpl; lia]].
  split.
  - apply Forall_flat_map. apply Forall_forall. intros row _.
    unfold filledCell. destruct (nth_error (cells row) column) as [cell|]; [| constructor].
    destruct (cellContent cell); repeat constructor. discriminate.
  - apply flat_map_short. intros row. destruct (filledCell row column); simpl; lia.
Qed.

(** X7. With the empty keyword [findSectionsByKeyword] returns every
    section of the document; with any keyword it returns sections of
    [extractSections], each of which holds the keyword, lower-cased, in
    its lower-cased title or content. *)
Theorem findSectionsByKeyword_empty (content keyword : jsstring) :
  findSectionsByKeyword content [] = extractSections content /\
  incl (findSectionsByKeyword content keyword) (extractSections content) /\
  Forall (fun s =>
            (includes (toLowerCase (title s)) (toLowerCase keyword)
             || includes (toLowerCase (MarkdownParser.content s)) (toLowerCase keyword))%bool
            = true) (findSectionsByKeyword content keyword).
Proof.
  unfold findSectionsByKeyword. repeat split.
  - rewrite (toLowerCase_plain (s := [])) by constructor. cbn [List.map].
    induction (extractSections content) as [|s l IH]; [reflexivity |].
    cbn [List.filter]. rewrite includes_nil. cbn [orb]. now rewrite IH.
  - apply incl_filter.
  - apply Forall_forall. intros s Hs. now apply filter_In in Hs.
Qed.

Lemma includes_suffix (s a b : jsstring) :
  includes s (a ++ b) = true -> includes s b = true.
Proof.
  rewrite !includes_app. intros [pre [post ->]].
  exists (pre ++ a), post. now rewrite <- !app_assoc.
Qed.

(** X8. Giving [findAPICodeExamples] a language only narrows what it finds
    without one; the empty string as language narrows nothing: it is taken
    as no language, and blocks without language are kept.  The last of the
    eight tests on the code never decides: a block that passes it passes
    the seventh. *)
Theorem findAPICodeExamples_language (content language : jsstring) :
  incl (findAPICodeExamples content (Some language)) (findAPICodeExamples content None) /\
  findAPICodeExamples content (Some []) = findAPICodeExamples content None /\
  forall code,
    isAPIExample code =
    (includes code (lit "curl") || includes code (lit "fetch")
     || includes code (lit "axios") || includes code (lit "http")
     || includes code (lit "post") || includes code (lit "get")
     || includes code (lit "api.nicepay"))%bool.
Proof.
  split; [| split; [reflexivity |]].
  - unfold findAPICodeExamples. destruct (truthy language); [| apply incl_refl].
    intros b Hb. apply filter_In in Hb as [Hb Hex]. apply filter_In. split; [| exact Hex].
    unfold extractCodeBlocksByLanguage in Hb. now apply filter_In in Hb.
  - intros code. unfold isAPIExample.
    destruct (includes code (lit "sandbox-api.nicepay")) eqn:E;
      [| now rewrite orb_false_r].
    rewrite (@includes_suffix code (lit "sandbox-") (lit "api.nicepay") E).
    now rewrite !orb_true_r.
Qed.

End Finders.

End FinderProofs.

(* ===================================================================== *)
(** * path.join *)
(* ===================================================================== *)

Module PathFacts.
Import JS DocIndexer Spec JSFacts.

Lemma split_sep (sep : N) (x y : jsstring) :
  split sep (x ++ sep :: y) = split sep x ++ split sep y.
Proof.
  induction x as [|c x IH]; cbn [app split].
  - now rewrite N.eqb_refl.
  - rewrite IH. destruct (N.eqb c sep); [reflexivity |].
    pose proof (split_nonempty sep x) as Hne.
    destruct (split sep x) as [|p ps]; [contradiction | reflexivity].
Qed.

Lemma split_join_sep (sep : N) (pieces : list jsstring) :
  pieces <> [] ->
  Forall (Forall (fun c => c <> sep)) pieces ->
  split sep (join [sep] pieces) = pieces.
Proof.
  intros Hne H. induction H as [|p pieces Hp Hrest IH]; [contradiction |].
  destruct pieces as [|p2 pieces].
  - cbn [join]. now apply split_single.
  - change (join [sep] (p :: p2 :: pieces))
      with (p ++ sep :: join [sep] (p2 :: pieces)).
    rewrite split_app by exact Hp. rewrite IH by discriminate. reflexivity.
Qed.

(** The last piece of a text that ends with [t], when [t] holds no
    separator, ends with [t]. *)
Lemma split_suffix (sep : N) (t : jsstring) :
  Forall (fun c => c <> sep) t ->
  forall x, exists pieces piece, split sep (x ++ t) = pieces ++ [piece ++ t].
Proof.
  intros Ht x. induction x as [|c x [pieces [piece IH]]].
  - exists [], []. cbn [app]. now apply split_single.
  - cbn [app split]. rewrite IH. destruct (N.eqb c sep).
    + exists ([] :: pieces), piece. reflexivity.
    + destruct pieces as [|p ps].
      * exists [], (c :: piece). reflexivity.
      * exists ((c :: p) :: ps), piece. reflexivity.
Qed.

Lemma join_last (sep : jsstring) (pieces : list jsstring) (piece : jsstring) :
  exists before, join sep (pieces ++ [piece]) = before ++ piece.
Proof.
  induction pieces as [|p pieces [before IH]].
  - now exists [].
  - cbn [app]. destruct (pieces ++ [piece]) as [|q rest] eqn:E.
    + destruct pieces; discriminate.
    + change (join sep (p :: q :: rest)) with (p ++ sep ++ join sep (q :: rest)).
      rewrite IH. exists (p ++ sep ++ before). now rewrite <- !app_assoc.
Qed.

Lemma join_first (sep : jsstring) (c : N) (p : jsstring) (pieces : list jsstring) :
  exists rest, join sep ((c :: p) :: pieces) = c :: rest.
Proof.
  destruct pieces as [|q pieces]; [now exists p |].
  now exists (p ++ sep ++ join sep (q :: pieces)).
Qed.

Lemma endsWith_last (x : jsstring) (c d : N) :
  endsWith (x ++ [c]) [d] = N.eqb c d.
Proof.
  unfold endsWith. rewrite rev_app_distr. cbn [rev app startsWith].
  rewrite startsWith_nil. apply andb_true_r.
Qed.

Lemma endsWith_suffix (x y : jsstring) (d : N) :
  y <> [] -> endsWith (x ++ y) [d] = endsWith y [d].
Proof.
  intros Hy. destruct (exists_last Hy) as [y' [c ->]].
  now rewrite app_assoc, !endsWith_last.
Qed.

Lemma isAbsolute_app (x y : jsstring) :
  x <> [] -> isAbsolute (x ++ y) = isAbsolute x.
Proof. destruct x; [contradiction | reflexivity]. Qed.

(** ** The segments kept *)

Lemma pathName_true (s : jsstring) :
  pathName s = true ->
  streq s [] = false /\ streq s DOT = false /\ streq s DOTDOT = false.
Proof.
  unfold pathName. intros H. apply negb_true_iff in H.
  apply orb_false_iff in H as [H H3]. apply orb_false_iff in H as [H1 H2].
  now repeat split.
Qed.

Lemma normalizeSegment_name (allow : bool) (res : list jsstring) (s : jsstring) :
  pathName s = true -> normalizeSegment allow res s = s :: res.
Proof.
  intros H. apply pathName_true in H as [H1 [H2 H3]].
  unfold normalizeSegment. now rewrite H1, H2, H3.
Qed.

Lemma normalizeSegment_DOTDOT (allow : bool) (res : list jsstring) :
  normalizeSegment allow res DOTDOT =
  match res with
  | last :: before =>
      if streq last DOTDOT then (if allow then DOTDOT :: res else res) else before
  | [] => if allow then [DOTDOT] else []
  end.
Proof. reflexivity. Qed.

(** The three kinds of segment. *)
Lemma segment_kind (s : jsstring) :
  (forall allow res, normalizeSegment allow res s = res) \/
  s = DOTDOT \/ pathName s = true.
Proof.
  unfold pathName, normalizeSegment.
  destruct (streq s [] || streq s DOT)%bool eqn:E; [now left | right].
  cbn [orb negb]. destruct (streq s DOTDOT) eqn:E2; [left | now right].
  now apply KeywordProofs.streq_eq in E2.
Qed.

Lemma normalizeSegment_Forall (P : jsstring -> Prop) (allow : bool)
    (res : list jsstring) (s : jsstring) :
  P DOTDOT -> (pathName s = true -> P s) ->
  Forall P res -> Forall P (normalizeSegment allow res s).
Proof.
  intros Hd Hs Hres.
  destruct (segment_kind s) as [H | [-> | H]].
  - now rewrite H.
  - rewrite normalizeSegment_DOTDOT. destruct res as [|last before].
    + destruct allow; repeat constructor. exact Hd.
    + destruct (streq last DOTDOT).
      * destruct allow; [constructor |]; assumption.
      * now inversion Hres.
  - rewrite normalizeSegment_name by exact H. constructor; [now apply Hs | exact Hres].
Qed.

Lemma fold_Forall (P : jsstring -> Prop) (allow : bool) (segments : list jsstring) :
  P DOTDOT -> Forall (fun s => pathName s = true -> P s) segments ->
  forall res, Forall P res -> Forall P (fold_left (normalizeSegment allow) segments res).
Proof.
  intros Hd Hs. induction Hs as [|s segments Hs _ IH]; intros res Hres; [exact Hres |].
  cbn [fold_left]. apply IH. now apply normalizeSegment_Forall.
Qed.

Lemma pathName_nonempty (s : jsstring) : pathName s = true -> s <> [].
Proof. intros H ->. discriminate. Qed.

(** Every segment kept is a segment: not empty, without separator. *)
Lemma keptSegments_segment (allow : bool) (path : jsstring) :
  Forall segment (keptSegments allow path).
Proof.
  unfold keptSegments. apply fold_Forall; [| | constructor].
  - split; [discriminate | repeat constructor; discriminate].
  - pose proof (split_lines SLASH path) as H.
    eapply Forall_impl; [| exact H]. intros s Hs Hn.
    split; [now apply pathName_nonempty | exact Hs].
Qed.

(** Every segment kept is [..] or a name. *)
Lemma fold_kinds (allow : bool) (segments : list jsstring) :
  Forall (fun s => s = DOTDOT \/ pathName s = true)
    (fold_left (normalizeSegment allow) segments []).
Proof.
  apply fold_Forall; [now left | | constructor].
  apply Forall_forall. intros s _ H. now right.
Qed.

(** Below the root only names are kept. *)
Lemma fold_names (segments : list jsstring) :
  forall res,
  Forall (fun s => pathName s = true) res ->
  Forall (fun s => pathName s = true) (fold_left (normalizeSegment false) segments res).
Proof.
  induction segments as [|s segments IH]; intros res Hres; [exact Hres |].
  cbn [fold_left]. apply IH.
  destruct (segment_kind s) as [H | [-> | H]].
  - now rewrite H.
  - rewrite normalizeSegment_DOTDOT. destruct res as [|last before]; [constructor |].
    destruct (streq last DOTDOT); [exact Hres | now inversion Hres].
  - rewrite normalizeSegment_name by exact H. now constructor.
Qed.

Lemma fold_push (allow : bool) (names : list jsstring) :
  Forall (fun s => pathName s = true) names ->
  forall res, fold_left (normalizeSegment allow) names res = rev names ++ res.
Proof.
  induction 1 as [|s names Hs _ IH]; intros res; [reflexivity |].
  cbn [fold_left rev]. rewrite normalizeSegment_name by exact Hs.
  rewrite IH, <- app_assoc. reflexivity.
Qed.

(** The segments kept from a relative path act on any segments kept
    before as the path itself does. *)
Lemma fold_kept (allow : bool) (segments : list jsstring) :
  forall res,
  fold_left (normalizeSegment allow) segments res =
  fold_left (normalizeSegment allow)
    (rev (fold_left (normalizeSegment true) segments [])) res.
Proof.
  induction segments as [|s segments IH] using rev_ind; intros res; [reflexivity |].
  rewrite !fold_left_app. cbn [fold_left]. rewrite IH.
  pose proof (fold_kinds true segments) as Hk.
  set (kept := fold_left (normalizeSegment true) segments []) in *.
  destruct (segment_kind s) as [H | [-> | H]].
  - now rewrite !H.
  - rewrite (normalizeSegment_DOTDOT true kept).
    destruct kept as [|last before].
    + reflexivity.
    + destruct (streq last DOTDOT) eqn:E.
      * cbn [rev]. rewrite !fold_left_app. reflexivity.
      * inversion Hk as [|? ? [Hl | Hl] _]; subst.
        -- cbn in E. discriminate.
        -- cbn [rev]. rewrite !fold_left_app. cbn [fold_left].
           rewrite (@normalizeSegment_name allow _ last Hl).
           rewrite normalizeSegment_DOTDOT, E. reflexivity.
  - rewrite (@normalizeSegment_name true kept s H). cbn [rev].
    rewrite !fold_left_app. reflexivity.
Qed.

(** Normalizing what has been kept keeps it. *)
Lemma fold_idempotent (allow : bool) (segments : list jsstring) :
  fold_left (normalizeSegment allow)
    (rev (fold_left (normalizeSegment allow) segments [])) [] =
  fold_left (normalizeSegment allow) segments [].
Proof.
  destruct allow.
  - symmetry. apply fold_kept.
  - rewrite fold_push.
    + now rewrite rev_involutive, app_nil_r.
    + apply Forall_rev. apply fold_names. constructor.
Qed.

(** ** normalize *)

Lemma join_nil (sep : jsstring) (pieces : list jsstring) :
  Forall (fun s => s <> []) pieces -> join sep pieces = [] -> pieces = [].
Proof.
  intros H E. destruct H as [|p pieces Hp _]; [reflexivity |].
  destruct p as [|c p]; [contradiction |].
  destruct (join_first sep c p pieces) as [rest Hr]. congruence.
Qed.

Lemma normalize_assemble (path : jsstring) :
  path <> [] ->
  normalize path =
  assemble (isAbsolute path) (endsWith path [SLASH])
    (keptSegments (negb (isAbsolute path)) path).
Proof.
  intros Hne. destruct path as [|c path]; [contradiction |].
  unfold normalize, normalizeString.
  fold (keptSegments (negb (isAbsolute (c :: path))) (c :: path)).
  pose proof (keptSegments_segment (negb (isAbsolute (c :: path))) (c :: path)) as Hs.
  set (kept := keptSegments _ _) in *.
  destruct kept as [|last before] eqn:E.
  - reflexivity.
  - unfold assemble.
    destruct (join [SLASH] (rev (last :: before))) as [|d normalized] eqn:Ej;
      [| reflexivity].
    apply join_nil in Ej.
    + apply (f_equal (@List.length _)) in Ej. rewrite length_rev in Ej. discriminate.
    + apply Forall_rev. eapply Forall_impl; [| exact Hs]. now intros s [H _].
Qed.

Lemma normalize_nonempty (path : jsstring) : normalize path <> [].
Proof.
  destruct path as [|c path]; [discriminate |].
  rewrite normalize_assemble by discriminate. unfold assemble.
  pose proof (keptSegments_segment (negb (isAbsolute (c :: path))) (c :: path)) as Hs.
  destruct (keptSegments _ _) as [|last before].
  - destruct (isAbsolute (c :: path)); [discriminate |].
    destruct (endsWith (c :: path) [SLASH]); discriminate.
  - destruct (isAbsolute (c :: path)); [discriminate |]. cbn [app].
    intros E. apply app_eq_nil in E as [E _]. apply join_nil in E.
    + apply (f_equal (@List.length _)) in E. rewrite length_rev in E. discriminate.
    + apply Forall_rev. eapply Forall_impl; [| exact Hs]. now intros s [H _].
Qed.

(** The segments of a normalized path act as the segments kept. *)
Lemma fold_assemble (allow absolute trailing : bool) (kept res : list jsstring) :
  Forall segment kept ->
  fold_left (normalizeSegment allow) (split SLASH (assemble absolute trailing kept)) res =
  fold_left (normalizeSegment allow) (rev kept) res.
Proof.
  intros Hs. destruct kept as [|last before].
  - destruct absolute; [reflexivity |]. destruct trailing; reflexivity.
  - unfold assemble.
    assert (Hsplit : split SLASH (join [SLASH] (rev (last :: before))) = rev (last :: before)).
    { apply split_join_sep.
      - intros E. apply (f_equal (@List.length _)) in E. rewrite length_rev in E. discriminate.
      - apply Forall_rev. eapply Forall_impl; [| exact Hs]. now intros s [_ H]. }
    set (joined := join [SLASH] (rev (last :: before))) in *.
    assert (Htrail : forall res',
              fold_left (normalizeSegment allow)
                (split SLASH (joined ++ (if trailing then [SLASH] else []))) res' =
              fold_left (normalizeSegment allow) (rev (last :: before)) res').
    { intros res'. destruct trailing.
      - rewrite split_sep, Hsplit, fold_left_app. reflexivity.
      - now rewrite app_nil_r, Hsplit. }
    destruct absolute.
    + change ([SLASH] ++ joined ++ (if trailing then [SLASH] else []))
        with ([] ++ SLASH :: joined ++ (if trailing then [SLASH] else [])).
      rewrite split_sep. cbn [split app fold_left]. apply Htrail.
    + cbn [app]. apply Htrail.
Qed.

Lemma isAbsolute_assemble (absolute trailing : bool) (kept : list jsstring) :
  Forall segment kept -> isAbsolute (assemble absolute trailing kept) = absolute.
Proof.
  intros Hs. unfold assemble. destruct kept as [|last before].
  - destruct absolute; [reflexivity |]. destruct trailing; reflexivity.
  - destruct absolute; [reflexivity |]. cbn [app].
    apply Forall_rev in Hs.
    destruct (rev (last :: before)) as [|first others] eqn:E.
    + apply (f_equal (@List.length _)) in E. rewrite length_rev in E. discriminate.
    + inversion Hs as [|? ? [Hne Hfree] _]; subst.
      destruct first as [|c first]; [contradiction |].
      destruct (join_first [SLASH] c first others) as [rest Hr].
      unfold jsstring in *. rewrite Hr.
      cbn [app isAbsolute]. inversion Hfree; subst. now apply N.eqb_neq.
Qed.

Lemma endsWith_assemble (absolute trailing : bool) (kept : list jsstring) :
  Forall segment kept ->
  absolute = false \/ kept <> [] ->
  endsWith (assemble absolute trailing kept) [SLASH] = trailing.
Proof.
  intros Hs Hor. unfold assemble. destruct kept as [|last before].
  - destruct Hor as [-> | H]; [| contradiction]. destruct trailing; reflexivity.
  - destruct trailing.
    + rewrite !app_assoc. apply endsWith_last.
    + rewrite app_nil_r. cbn [rev].
      destruct (join_last [SLASH] (rev before) last) as [prefix ->].
      inversion Hs as [|? ? [Hne Hfree] _]; subst.
      destruct (exists_last Hne) as [last' [c ->]].
      rewrite !app_assoc, endsWith_last.
      apply Forall_app in Hfree as [_ Hc]. inversion Hc; subst. now apply N.eqb_neq.
Qed.

Lemma assemble_trailing (absolute trailing : bool) (kept : list jsstring) :
  Forall segment kept ->
  assemble absolute (endsWith (assemble absolute trailing kept) [SLASH]) kept =
  assemble absolute trailing kept.
Proof.
  intros Hs. destruct kept as [|last before].
  - destruct absolute; [reflexivity |]. destruct trailing; reflexivity.
  - rewrite endsWith_assemble; [reflexivity | exact Hs | right; discriminate].
Qed.

Lemma isAbsolute_normalize (path : jsstring) :
  path <> [] -> isAbsolute (normalize path) = isAbsolute path.
Proof.
  intros H. rewrite normalize_assemble by exact H.
  apply isAbsolute_assemble, keptSegments_segment.
Qed.

Lemma keptSegments_normalize (path : jsstring) :
  path <> [] ->
  keptSegments (negb (isAbsolute path)) (normalize path) =
  keptSegments (negb (isAbsolute path)) path.
Proof.
  intros H. rewrite normalize_assemble by exact H. unfold keptSegments at 1.
  rewrite fold_assemble by apply keptSegments_segment.
  unfold keptSegments. apply fold_idempotent.
Qed.

(** [normalize] is idempotent. *)
Lemma normalize_idempotent (path : jsstring) :
  path <> [] -> normalize (normalize path) = normalize path.
Proof.
  intros H.
  rewrite (normalize_assemble (normalize_nonempty path)).
  rewrite isAbsolute_normalize, keptSegments_normalize by exact H.
  rewrite (normalize_assemble H).
  apply assemble_trailing, keptSegments_segment.
Qed.

(** A path may be normalized before another is joined to it. *)
Lemma normalize_left (path rest : jsstring) :
  path <> [] ->
  normalize (normalize path ++ SLASH :: rest) = normalize (path ++ SLASH :: rest).
Proof.
  intros H.
  assert (Hq : normalize path <> []) by apply normalize_nonempty.
  rewrite (@normalize_assemble (normalize path ++ SLASH :: rest))
    by (destruct (normalize path); [contradiction | discriminate]).
  rewrite (@normalize_assemble (path ++ SLASH :: rest))
    by (destruct path; [contradiction | discriminate]).
  rewrite !isAbsolute_app by assumption.
  rewrite isAbsolute_normalize by exact H.
  rewrite !(@endsWith_suffix _ (SLASH :: rest)) by discriminate.
  f_equal. unfold keptSegments. rewrite !split_sep, !fold_left_app. f_equal.
  apply (keptSegments_normalize H).
Qed.

(** A relative path may be normalized before it is joined to another. *)
Lemma normalize_right (path rest : jsstring) :
  relativePath rest ->
  normalize (path ++ SLASH :: normalize rest) = normalize (path ++ SLASH :: rest).
Proof.
  intros [Hne Hrel].
  rewrite (@normalize_assemble (path ++ SLASH :: normalize rest))
    by (destruct path; discriminate).
  rewrite (@normalize_assemble (path ++ SLASH :: rest))
    by (destruct path; discriminate).
  assert (Habs : isAbsolute (path ++ SLASH :: normalize rest) =
                 isAbsolute (path ++ SLASH :: rest)) by (destruct path; reflexivity).
  rewrite Habs.
  assert (Hend : endsWith (path ++ SLASH :: normalize rest) [SLASH] =
                 endsWith (path ++ SLASH :: rest) [SLASH]).
  { change (path ++ SLASH :: normalize rest) with (path ++ [SLASH] ++ normalize rest).
    change (path ++ SLASH :: rest) with (path ++ [SLASH] ++ rest).
    rewrite !app_assoc.
    rewrite !endsWith_suffix by (assumption || apply normalize_nonempty).
    rewrite (normalize_assemble Hne), Hrel.
    apply endsWith_assemble; [apply keptSegments_segment | now left]. }
  rewrite Hend. f_equal.
  unfold keptSegments. rewrite !split_sep, !fold_left_app.
  rewrite (normalize_assemble Hne), Hrel.
  rewrite fold_assemble by apply keptSegments_segment.
  cbn [negb]. unfold keptSegments. symmetry. apply fold_kept.
Qed.

(** ** pathJoin *)

Lemma pathJoin_nonempty (a b : jsstring) : pathJoin a b <> [].
Proof.
  unfold pathJoin. destruct a, b; try apply normalize_nonempty. discriminate.
Qed.

(** A name joined to a relative path gives a relative path. *)
Lemma pathJoin_relative (a b : jsstring) :
  relativePath a -> relativePath (pathJoin a b).
Proof.
  intros [Hne Hrel]. split; [apply pathJoin_nonempty |].
  destruct a as [|c a]; [contradiction |]. unfold pathJoin.
  destruct b as [|d b].
  - now rewrite isAbsolute_normalize.
  - rewrite isAbsolute_normalize by discriminate. exact Hrel.
Qed.

Lemma pathJoin_left (b : jsstring) : b <> [] -> pathJoin [] b = normalize b.
Proof. destruct b; [contradiction | reflexivity]. Qed.

Lemma pathJoin_right (a : jsstring) : a <> [] -> pathJoin a [] = normalize a.
Proof. destruct a; [contradiction | reflexivity]. Qed.

Lemma pathJoin_both (a b : jsstring) :
  a <> [] -> b <> [] -> pathJoin a b = normalize (a ++ SLASH :: b).
Proof. destruct a, b; try contradiction. reflexivity. Qed.

(** Joining a name to a path below a base is joining, to the base, the
    name joined to the path. *)
Lemma pathJoin_assoc (a b c : jsstring) :
  relativePath b ->
  pathJoin (pathJoin a b) c = pathJoin a (pathJoin b c).
Proof.
  intros [Hne Hrel].
  destruct a as [|u a], c as [|v c].
  - rewrite (pathJoin_left Hne), (pathJoin_right Hne).
    rewrite (pathJoin_right (normalize_nonempty b)).
    now rewrite (pathJoin_left (normalize_nonempty b)).
  - rewrite (pathJoin_left Hne).
    rewrite (@pathJoin_both b (v :: c)) by (assumption || discriminate).
    rewrite (@pathJoin_both (normalize b) (v :: c))
      by (apply normalize_nonempty || discriminate).
    rewrite (pathJoin_left (normalize_nonempty _)).
    rewrite normalize_idempotent by (destruct b; discriminate).
    now apply normalize_left.
  - rewrite (@pathJoin_both (u :: a) b) by (assumption || discriminate).
    rewrite (pathJoin_right (normalize_nonempty _)).
    rewrite (pathJoin_right Hne).
    rewrite (@pathJoin_both (u :: a) (normalize b))
      by (apply normalize_nonempty || discriminate).
    rewrite normalize_idempotent by discriminate.
    symmetry. apply normalize_right. now split.
  - rewrite (@pathJoin_both (u :: a) b) by (assumption || discriminate).
    rewrite (@pathJoin_both b (v :: c)) by (assumption || discriminate).
    rewrite (@pathJoin_both (normalize ((u :: a) ++ SLASH :: b)) (v :: c))
      by (apply normalize_nonempty || discriminate).
    rewrite (@pathJoin_both (u :: a) (normalize (b ++ SLASH :: v :: c)))
      by (apply normalize_nonempty || discriminate).
    rewrite normalize_left by discriminate.
    rewrite normalize_right.
    + now rewrite <- app_assoc.
    + split; [destruct b; discriminate |]. now rewrite isAbsolute_app.
Qed.

(** A path that ends with an extension still ends with it once
    normalized. *)
Lemma normalize_extension (extension : jsstring) :
  (3 <= List.length extension)%nat ->
  Forall (fun c => c <> SLASH) extension ->
  forall x, exists y, normalize (x ++ extension) = y ++ extension.
Proof.
  intros Hlen Hfree x.
  assert (Hne : x ++ extension <> []).
  { intros E. apply (f_equal (@List.length _)) in E. rewrite length_app in E.
    cbn in E. lia. }
  rewrite (normalize_assemble Hne).
  destruct (split_suffix Hfree x) as [pieces [piece Hsplit]].
  assert (Hname : pathName (piece ++ extension) = true).
  { unfold pathName. apply negb_true_iff.
    assert (H : forall t, (List.length t < 3)%nat -> streq (piece ++ extension) t = false).
    { intros t Ht. destruct (streq (piece ++ extension) t) eqn:E; [| reflexivity].
      apply KeywordProofs.streq_eq in E. apply (f_equal (@List.length _)) in E.
      rewrite length_app in E. lia. }
    rewrite !H by (cbn; lia). reflexivity. }
  unfold keptSegments. rewrite Hsplit, fold_left_app. cbn [fold_left].
  rewrite normalizeSegment_name by exact Hname.
  unfold assemble. cbn [rev].
  assert (Hend : endsWith (x ++ extension) [SLASH] = false).
  { assert (He : extension <> []) by (destruct extension; [cbn in Hlen; lia | discriminate]).
    rewrite (endsWith_suffix x SLASH He).
    destruct (exists_last He) as [e [c ->]]. rewrite endsWith_last.
    apply Forall_app in Hfree as [_ Hc]. inversion Hc; subst. now apply N.eqb_neq. }
  rewrite Hend, app_nil_r.
  destruct (join_last [SLASH]
              (rev (fold_left (normalizeSegment (negb (isAbsolute (x ++ extension))))
                      pieces [])) (piece ++ extension)) as [before Hb].
  unfold jsstring in *. rewrite Hb.
  exists ((if isAbsolute (x ++ extension) then [SLASH] else []) ++ before ++ piece).
  now rewrite <- !app_assoc.
Qed.

(** The join of a path and of a name that ends in [.md] ends in [.md]. *)
Lemma endsWith_pathJoin (base name : jsstring) :
  endsWith name (lit ".md") = true -> endsWith (pathJoin base name) (lit ".md") = true.
Proof.
  intros H. unfold endsWith in H. apply startsWith_app in H as [rest Hr].
  assert (Hname : name = rev rest ++ lit ".md").
  { rewrite <- (rev_involutive name), Hr, rev_app_distr. reflexivity. }
  assert (Hext : forall x, endsWith (normalize (x ++ lit ".md")) (lit ".md") = true).
  { intros x.
    destruct (@normalize_extension (lit ".md")) with (x := x) as [y ->].
    - cbn. lia.
    - repeat constructor; discriminate.
    - unfold endsWith. rewrite rev_app_distr. apply startsWith_app. eauto. }
  subst name. unfold pathJoin.
  destruct (rev rest ++ lit ".md") as [|c name] eqn:E.
  { apply (f_equal (@List.length _)) in E. rewrite length_app in E. cbn in E. lia. }
  rewrite <- E. destruct base as [|b base].
  - apply Hext.
  - rewrite !app_assoc. apply Hext.
Qed.

(** [path.join] normalizes: no doubled separator after a base that ends
    with one, no separator added to the root, [..] resolved, an empty
    base ignored. *)
Lemma pathJoin_examples :
  pathJoin (lit "/docs") (lit "api") = lit "/docs/api" /\
  pathJoin (lit "/docs/") (lit "api") = lit "/docs/api" /\
  pathJoin (lit "/") (lit "api") = lit "/api" /\
  pathJoin (lit "") (lit "api") = lit "api" /\
  pathJoin (lit "docs/../x") (lit "./api") = lit "x/api" /\
  pathJoin (lit "api") (lit "pay.md") = lit "api/pay.md".
Proof. repeat split; reflexivity. Qed.

End PathFacts.

(* ===================================================================== *)
(** * The index *)
(* ===================================================================== *)

Module IndexProofs.
Import JS DocIndexer Spec JSFacts.

Lemma streq_true (a b : jsstring) : streq a b = true <-> a = b.
Proof. exact (KeywordProofs.streq_eq a b). Qed.

Lemma streq_refl (a : jsstring) : streq a a = true.
Proof. now apply streq_true. Qed.

Lemma mapGet_mapSet (key : jsstring) (value : DocumentIndex) (m : Index) (k : jsstring) :
  mapGet k (mapSet key value m) = if streq key k then Some value else mapGet k m.
Proof.
  induction m as [|[k0 v0] m IH]; cbn [mapSet mapGet].
  - reflexivity.
  - destruct (streq k0 key) eqn:E0; cbn [mapGet].
    + apply streq_true in E0. subst k0. destruct (streq key k); reflexivity.
    + rewrite IH. destruct (streq k0 k) eqn:E1; [| reflexivity].
      apply streq_true in E1. subst k0.
      destruct (streq key k) eqn:E2; [| reflexivity].
      apply streq_true in E2. subst key. rewrite streq_refl in E0. discriminate.
Qed.

Lemma mapSet_keys (key : jsstring) (value : DocumentIndex) (m : Index) :
  List.map fst (mapSet key value m) =
  if existsb (streq key) (List.map fst m) then List.map fst m
  else List.map fst m ++ [key].
Proof.
  induction m as [|[k0 v0] m IH]; cbn [mapSet List.map existsb fst]; [reflexivity |].
  destruct (streq k0 key) eqn:E0.
  - apply streq_true in E0. subst k0. now rewrite streq_refl.
  - assert (E1 : streq key k0 = false).
    { destruct (streq key k0) eqn:E; [| reflexivity].
      apply streq_true in E. subst. rewrite streq_refl in E0. discriminate. }
    rewrite E1. cbn [orb List.map fst]. rewrite IH.
    destruct (existsb (streq key) (List.map fst m)); reflexivity.
Qed.

Lemma mapSet_NoDup (key : jsstring) (value : DocumentIndex) (m : Index) :
  NoDup (List.map fst m) -> NoDup (List.map fst (mapSet key value m)).
Proof.
  intros H. rewrite mapSet_keys.
  destruct (existsb (streq key) (List.map fst m)) eqn:E; [exact H |].
  apply NoDup_app; [exact H | repeat constructor; intros [] |].
  intros x Hx [<- | []].
  assert (existsb (streq key) (List.map fst m) = true) as E'; [| congruence].
  apply existsb_exists. exists key. split; [exact Hx | apply streq_refl].
Qed.

Lemma mapSet_Forall (P : jsstring * DocumentIndex -> Prop) (key : jsstring)
    (value : DocumentIndex) (m : Index) :
  P (key, value) -> Forall P m -> Forall P (mapSet key value m).
Proof.
  intros Hv H. induction H as [|[k0 v0] m H0 H IH]; cbn [mapSet].
  - now repeat constructor.
  - destruct (streq k0 key); constructor; assumption.
Qed.

Section Index.
Context {host : Host}.

(** X9. [indexFile] never throws.  On a file that can be read, the index
    then answers the relative path with the record of the content read,
    and every other path as before; on a file that cannot be read the
    index is left as it was. *)
Theorem indexFile_getDocument (index : Index) (filePath relativePath content k : jsstring) :
  fst (indexFile (FsFile (Some content)) filePath relativePath index) = Normal tt /\
  getDocument (snd (indexFile (FsFile (Some content)) filePath relativePath index)) k =
    (if streq relativePath k then Some (indexedDocument relativePath filePath content)
     else getDocument index k) /\
  indexFile (FsFile None) filePath relativePath index = (Normal tt, index).
Proof.
  repeat split. unfold getDocument. cbn. apply mapGet_mapSet.
Qed.

Lemma keeps_bind (A B : Type) (base : jsstring) (m : Action A) (f : A -> Action B) :
  keeps base m -> (forall a, keeps base (f a)) -> keeps base (bind m f).
Proof.
  intros Hm Hf index H. unfold bind. specialize (Hm index H).
  destruct (m index) as [[a|] index']; [now apply Hf | exact Hm].
Qed.

Lemma keeps_ret (A : Type) (base : jsstring) (a : A) : keeps base (ret a).
Proof. intros index H. exact H. Qed.

Lemma keeps_indexFile (base : jsstring) (node : FsNode) (relativePath : jsstring) :
  endsWith relativePath (lit ".md") = true ->
  keeps base (indexFile node (pathJoin base relativePath) relativePath).
Proof.
  intros He index [Hf Hn].
  destruct node as [[data|] | |]; try (split; assumption).
  cbn. split; [apply mapSet_Forall | apply mapSet_NoDup]; try assumption.
  split; [exact He | reflexivity].
Qed.

Lemma keeps_walk (base : jsstring) :
  (forall node relativeBase,
     relativePath relativeBase ->
     keeps base (indexDirectory node (pathJoin base relativeBase) relativeBase)) /\
  (forall entries relativeBase,
     relativePath relativeBase ->
     keeps base (indexEntries entries (pathJoin base relativeBase) relativeBase)).
Proof.
  apply FsNode_FsEntries_ind.
  - intros data relativeBase _ index H. exact H.
  - intros readable entries IH relativeBase Hrel.
    destruct readable; [now apply IH | intros index H; exact H].
  - intros relativeBase _ index H. exact H.
  - intros relativeBase _. apply keeps_ret.
  - intros name node IHn rest IHr relativeBase Hrel.
    cbn [indexEntries]. apply keeps_bind; [| intros _; now apply IHr].
    rewrite (PathFacts.pathJoin_assoc base name Hrel).
    destruct (isDirectory node).
    + destruct (negb (skippedDirectory name)); [| apply keeps_ret].
      apply IHn. now apply PathFacts.pathJoin_relative.
    + destruct (isFile node && endsWith name (lit ".md"))%bool eqn:E;
        [| apply keeps_ret].
      apply andb_true_iff in E as [_ E].
      apply keeps_indexFile. now apply PathFacts.endsWith_pathJoin.
Qed.

Lemma keeps_indexTargets (base : jsstring) (root : FsEntries) (dirs : list jsstring) :
  Forall relativePath dirs -> keeps base (indexTargets base root dirs).
Proof.
  induction 1 as [|dir dirs Hdir _ IH]; [apply keeps_ret |].
  cbn [indexTargets]. apply keeps_bind; [| intros _; exact IH].
  destruct (fsLookup dir root) as [node|]; [| apply keeps_ret].
  destruct (isDirectory node); [now apply keeps_walk | apply keeps_ret].
Qed.

Lemma keeps_buildIndex (base : jsstring) (root : FsEntries) (index : Index) :
  kept base (snd (buildIndex base root index)).
Proof.
  assert (K : keeps base
    (bind (indexTargets base root targetDirs) (fun _ =>
     match fsLookup (lit "README.md") root with
     | Some node => indexFile node (pathJoin base (lit "README.md")) (lit "README.md")
     | None => ret tt
     end))).
  { apply keeps_bind.
    - apply keeps_indexTargets.
      repeat constructor; discriminate.
    - intros _. destruct (fsLookup (lit "README.md") root); [| apply keeps_ret].
      now apply keeps_indexFile. }
  change (buildIndex base root index) with
    (bind (indexTargets base root targetDirs) (fun _ =>
      match fsLookup (lit "README.md") root with
      | Some node => indexFile node (pathJoin base (lit "README.md")) (lit "README.md")
      | None => ret tt
      end) []).
  apply (K []). split; constructor.
Qed.

(** X10. After [buildIndex], however it ended, every entry of the index
    is keyed by the path of a markdown file relative to the base (it ends
    in [.md]) and holds the record built from one content: [filePath] is
    the key, [absolutePath] the base joined with the key, [fileName] its
    last component, title, sections and keywords those of the content; and
    no two entries have the same key. *)
Theorem buildIndex_entries (docsBasePath : jsstring) (root : FsEntries) (index : Index) :
  let built := snd (buildIndex docsBasePath root index) in
  Forall (fun entry =>
            endsWith (fst entry) (lit ".md") = true /\
            snd entry =
              indexedDocument (fst entry) (pathJoin docsBasePath (fst entry))
                (content (snd entry))) built /\
  NoDup (List.map fst built).
Proof.
  intros built.
  destruct (keeps_buildIndex docsBasePath root index) as [Hf Hn].
  split; [| exact Hn].
  eapply Forall_impl; [| exact Hf]. intros entry H. exact H.
Qed.

(** With a base that ends with a separator the absolute path has no
    doubled separator. *)
Lemma buildIndex_trailing_separator :
  List.map (fun entry => (fst entry, absolutePath (snd entry)))
    (snd (buildIndex (host := asciiHost) (lit "/docs/") readableRoot [])) =
  [(lit "api/pay.md", lit "/docs/api/pay.md")].
Proof. reflexivity. Qed.

Lemma mapGet_Some (k : jsstring) (d : DocumentIndex) (m : Index) :
  mapGet k m = Some d -> In (k, d) m.
Proof.
  induction m as [|[k0 v0] m IH]; cbn [mapGet]; [discriminate |].
  destruct (streq k0 k) eqn:E.
  - apply streq_true in E. subst. intros H; injection H as <-. now left.
  - intros H. right. now apply IH.
Qed.

Lemma mapGet_In (k : jsstring) (d : DocumentIndex) (m : Index) :
  NoDup (List.map fst m) -> In (k, d) m -> mapGet k m = Some d.
Proof.
  induction m as [|[k0 v0] m IH]; cbn [mapGet List.map fst]; [intros _ [] |].
  intros Hn [H | H]; inversion Hn as [|? ? Hnot Hn']; subst.
  - injection H as -> ->. now rewrite streq_refl.
  - destruct (streq k0 k) eqn:E; [| now apply IH].
    apply streq_true in E. subst. exfalso. apply Hnot.
    change k with (fst (k, d)). now apply in_map.
Qed.

(** X11. After [buildIndex], [getDocument] answers a path with a document
    exactly when the index holds that document under that path, and the
    document then has this path for [filePath]; the documents of
    [getAllDocuments] have distinct [filePath]s, and [getIndexSize] is
    their number. *)
Theorem buildIndex_getDocument (docsBasePath : jsstring) (root : FsEntries)
    (index : Index) :
  let built := snd (buildIndex docsBasePath root index) in
  (forall path doc,
     getDocument built path = Some doc <->
     In (path, doc) built /\ filePath doc = path) /\
  NoDup (List.map filePath (getAllDocuments built)) /\
  getIndexSize built = Z.of_nat (List.length (getAllDocuments built)).
Proof.
  intros built.
  destruct (keeps_buildIndex docsBasePath root index) as [Hf Hn]. fold built in Hf, Hn.
  assert (Hpath : forall path doc, In (path, doc) built -> filePath doc = path).
  { intros path doc Hin. rewrite Forall_forall in Hf.
    destruct (Hf _ Hin) as [_ E]. cbn [fst snd] in E. now rewrite E. }
  repeat split.
  - now apply mapGet_Some.
  - apply Hpath. now apply mapGet_Some.
  - intros [Hin _]. now apply mapGet_In.
  - unfold getAllDocuments, mapValues. rewrite map_map.
    erewrite map_ext_in; [exact Hn |].
    intros [path doc] Hin. cbn [fst snd]. now apply Hpath.
  - unfold getIndexSize, getAllDocuments, mapValues. now rewrite length_map.
Qed.

Lemma indexFile_prune (node : FsNode) (filePath relativePath : jsstring) :
  indexFile (pruneNode node) filePath relativePath = indexFile node filePath relativePath.
Proof. destruct node; reflexivity. Qed.

Lemma isDirectory_prune (node : FsNode) (skip : bool) :
  isDirectory (if (isDirectory node && skip)%bool then FsDir false FsNil else pruneNode node)
  = isDirectory node.
Proof. destruct node, skip; reflexivity. Qed.

Lemma walk_prune :
  (forall node dirPath relativeBase index,
     indexDirectory (pruneNode node) dirPath relativeBase index =
     indexDirectory node dirPath relativeBase index) /\
  (forall entries dirPath relativeBase index,
     indexEntries (pruneEntries entries) dirPath relativeBase index =
     indexEntries entries dirPath relativeBase index).
Proof.
  apply FsNode_FsEntries_ind.
  - reflexivity.
  - intros readable entries IH dirPath relativeBase index.
    cbn [pruneNode indexDirectory]. destruct readable; [apply IH | reflexivity].
  - reflexivity.
  - reflexivity.
  - intros name node IHn rest IHr dirPath relativeBase index.
    cbn [pruneEntries indexEntries]. unfold bind.
    rewrite isDirectory_prune.
    assert (E : (if isDirectory node then
                   if negb (skippedDirectory name)
                   then indexDirectory
                          (if (isDirectory node && skippedDirectory name)%bool
                           then FsDir false FsNil else pruneNode node)
                          (pathJoin dirPath name) (pathJoin relativeBase name)
                   else ret tt
                 else if (isFile
                            (if (isDirectory node && skippedDirectory name)%bool
                             then FsDir false FsNil else pruneNode node)
                          && endsWith name (lit ".md"))%bool
                 then indexFile
                        (if (isDirectory node && skippedDirectory name)%bool
                         then FsDir false FsNil else pruneNode node)
                        (pathJoin dirPath name) (pathJoin relativeBase name)
                 else ret tt) index =
                (if isDirectory node then
                   if negb (skippedDirectory name)
                   then indexDirectory node (pathJoin dirPath name)
                          (pathJoin relativeBase name)
                   else ret tt
                 else if (isFile node && endsWith name (lit ".md"))%bool
                 then indexFile node (pathJoin dirPath name) (pathJoin relativeBase name)
                 else ret tt) index).
    { destruct (isDirectory node) eqn:Ed.
      - destruct (skippedDirectory name); cbn [andb negb]; [reflexivity | apply IHn].
      - cbn [andb]. destruct node; try discriminate; reflexivity. }
    rewrite E.
    match goal with
    | |- match ?x with _ => _ end = _ => destruct x as [[a|] index']
    end; [apply IHr | reflexivity].
Qed.

Lemma fsLookup_prune (name : jsstring) (root : FsEntries) :
  skippedDirectory name = false ->
  fsLookup name (pruneEntries root) = option_map pruneNode (fsLookup name root).
Proof.
  intros Hs. induction root as [|n node rest IH]; [reflexivity |].
  cbn [pruneEntries fsLookup]. destruct (streq n name) eqn:E; [| exact IH].
  apply streq_true in E. subst n. rewrite Hs, andb_false_r. reflexivity.
Qed.

(** X12. What lies in a directory named [image], [node_modules] or [dist]
    never counts: the build ends in the same way and leaves the same index
    when every such directory is replaced by an empty directory that
    cannot even be listed. *)
Theorem buildIndex_skips (docsBasePath : jsstring) (root : FsEntries) (index : Index) :
  buildIndex docsBasePath (pruneEntries root) index = buildIndex docsBasePath root index.
Proof.
  unfold buildIndex, bind. cbn [clear].
  assert (T : forall dirs index1,
            indexTargets docsBasePath (pruneEntries root) dirs index1 =
            indexTargets docsBasePath root dirs index1 \/
            existsb skippedDirectory dirs = true).
  { induction dirs as [|dir dirs IH]; intros index1; [now left |].
    cbn [existsb]. destruct (skippedDirectory dir) eqn:Hs; [now right |].
    cbn [orb indexTargets]. unfold bind.
    rewrite (fsLookup_prune _ root Hs).
    destruct (fsLookup dir root) as [node|]; cbn [option_map].
    - assert (E : (if isDirectory (pruneNode node)
                   then indexDirectory (pruneNode node) (pathJoin docsBasePath dir) dir
                   else ret tt) index1 =
                  (if isDirectory node
                   then indexDirectory node (pathJoin docsBasePath dir) dir
                   else ret tt) index1).
      { destruct node; try reflexivity. apply (proj1 walk_prune). }
      rewrite E.
      match goal with
      | |- match ?x with _ => _ end = _ \/ _ => destruct x as [[a|] index2]
      end; [apply IH | now left].
    - apply IH. }
  destruct (T targetDirs []) as [-> | E]; [| discriminate E].
  destruct (indexTargets docsBasePath root targetDirs []) as [[a|] index1]; [| reflexivity].
  rewrite (@fsLookup_prune (lit "README.md") root eq_refl).
  destruct (fsLookup (lit "README.md") root) as [node|]; cbn [option_map]; [| reflexivity].
  now rewrite indexFile_prune.
Qed.

End Index.

End IndexProofs.

(* ===================================================================== *)
(** * Headings *)
(* ===================================================================== *)

Module HeadingProofs.
Import JS MarkdownParser Spec JSFacts MatcherFacts.

Lemma forallb_Forall (p : N -> bool) (s : jsstring) :
  forallb p s = true <-> Forall (fun c => p c = true) s.
Proof.
  rewrite forallb_forall, Forall_forall. reflexivity.
Qed.

Lemma trimStart_head (s : jsstring) :
  match trimStart s with
  | [] => True
  | c :: _ => isWhiteSpace c = false
  end.
Proof.
  induction s as [|c s IH]; simpl; [exact I |].
  destruct (isWhiteSpace c) eqn:E; [exact IH | exact E].
Qed.

Lemma trimEnd_head (s : jsstring) :
  match s with
  | [] => True
  | c :: _ => isWhiteSpace c = false
  end ->
  trimStart (trimEnd s) = trimEnd s.
Proof.
  destruct s as [|c s]; [reflexivity |]. intros Hc. cbn [trimEnd].
  destruct (trimEnd s); rewrite ?Hc; cbn [trimStart]; now rewrite Hc.
Qed.

Lemma trimEnd_idempotent (s : jsstring) : trimEnd (trimEnd s) = trimEnd s.
Proof.
  induction s as [|c s IH]; [reflexivity |]. cbn [trimEnd].
  destruct (trimEnd s) as [|x t] eqn:E.
  - destruct (isWhiteSpace c) eqn:Ec; cbn [trimEnd]; now rewrite ?Ec.
  - cbn [trimEnd]. cbn [trimEnd] in IH. rewrite IH. reflexivity.
Qed.

Lemma trim_idempotent (s : jsstring) : trim (trim s) = trim s.
Proof.
  unfold trim. rewrite trimEnd_head by apply trimStart_head.
  apply trimEnd_idempotent.
Qed.

(** A heading line is one to six marks, white space, and a text without
    line terminator. *)
Lemma headingMatch_shape (line g1 g2 : jsstring) :
  headingMatch line = Some (g1, g2) ->
  exists ws,
    line = g1 ++ ws ++ g2 /\
    forallb (isChar HASH) g1 = true /\ (1 <= List.length g1 <= 6)%nat /\
    forallb isWhiteSpace ws = true /\ ws <> [] /\
    forallb isDot g2 = true /\ g2 <> [].
Proof.
  unfold headingMatch. intros H.
  apply rep_run in H as [h [r1 [Hh [Hlo [Hhi [-> H]]]]]].
  apply rep_run in H as [ws [r2 [Hws [Hlo2 [_ [-> H]]]]]].
  apply rep_run in H as [t [r3 [Ht [Hlo3 [_ [-> H]]]]]].
  cbn [app] in *. destruct r3; [| discriminate]. injection H as <- <-.
  exists ws. rewrite app_nil_r. repeat split; try assumption.
  - apply (Hhi 6%nat eq_refl). cbn. lia.
  - destruct ws; [cbn in Hlo2; lia | discriminate].
  - destruct t; [cbn in Hlo3; lia | discriminate].
Qed.

Lemma Blocks_Forall (P : SectionInfo -> Prop) :
  (forall heading g1 g2 body from,
     headingMatch heading = Some (g1, g2) ->
     Forall (fun line => isHeading line = false) body ->
     P (mkSectionInfo (Z.of_nat (List.length g1)) (trim g2) (join [NEWLINE] body)
          from (from + Z.of_nat (List.length body)))) ->
  forall from lines secs, Blocks from lines secs -> Forall P secs.
Proof.
  intros HP from lines secs B.
  induction B as [from | from heading g1 g2 body rest secs Hh Hb HB IH];
    [constructor |].
  constructor; [exact (HP heading g1 g2 body from Hh Hb) | exact IH].
Qed.

(** X13. Every section of [extractSections] has a level from 1 to 6, and a title that is
    trimmed (trimming it again changes nothing) and holds no line
    terminator. *)
Theorem extractSections_levels (content : jsstring) :
  Forall (fun s =>
            (1 <= level s <= 6)%Z /\ trim (title s) = title s /\
            forallb isDot (title s) = true) (extractSections content).
Proof.
  eapply Blocks_Forall; [| apply SectionProofs.extractSections_blocks].
  intros heading g1 g2 body from Hh _.
  apply headingMatch_shape in Hh as [ws [_ [_ [Hlen [_ [_ [Hdot _]]]]]]].
  cbn [level title]. repeat split; try lia.
  - apply trim_idempotent.
  - apply forallb_Forall. unfold trim.
    apply trimEnd_Forall, trimStart_Forall. now apply forallb_Forall.
Qed.

Lemma fromFirstHeading_Forall (P : jsstring -> Prop) (lines : list jsstring) :
  Forall P lines -> Forall P (fromFirstHeading lines).
Proof.
  induction 1 as [|line rest Hl Hr IH]; simpl; [constructor |].
  destruct (isHeading line); [now constructor | exact IH].
Qed.

Lemma Blocks_content (from : Z) (lines : list jsstring) (secs : list SectionInfo) :
  Blocks from lines secs ->
  Forall (Forall (fun c => c <> NEWLINE)) lines ->
  Forall (fun s => Forall (fun line => isHeading line = false)
                     (split NEWLINE (MarkdownParser.content s))) secs.
Proof.
  induction 1 as [from | from heading g1 g2 body rest secs Hh Hb HB IH]; intros Hn;
    [constructor |].
  inversion Hn as [|? ? _ Hn']; subst.
  apply Forall_app in Hn' as [Hbody Hrest].
  constructor; [| now apply IH]. cbn [MarkdownParser.content].
  destruct body as [|l body]; [repeat constructor |].
  rewrite split_join; [exact Hb | discriminate | exact Hbody].
Qed.

(** X14. No line of the content of a section is a heading line: a section
    ends at the next heading of any level. *)
Theorem extractSections_flat (content : jsstring) :
  Forall (fun s => Forall (fun line => isHeading line = false)
                     (split NEWLINE (MarkdownParser.content s)))
    (extractSections content).
Proof.
  eapply Blocks_content; [apply SectionProofs.extractSections_blocks |].
  apply fromFirstHeading_Forall, split_lines.
Qed.

Lemma headingMatch_render (n : nat) (t : jsstring) (c : N) :
  (1 <= n <= 6)%nat ->
  isWhiteSpace c = false ->
  forallb isDot (c :: t) = true ->
  headingMatch (renderHeading n (c :: t)) = Some (repeat HASH n, c :: t).
Proof.
  intros Hn Hc Ht. unfold headingMatch, renderHeading.
  apply rep_first.
  - clear. induction n; [reflexivity | simpl; exact IHn].
  - cbn [app]. rewrite repeat_length. lia.
  - cbn [app]. rewrite repeat_length. lia.
  - reflexivity.
  - cbn [app].
    apply (@rep_first _ isWhiteSpace 1 None _ [32%N] (c :: t));
      [reflexivity | cbn; lia | exact I | exact Hc |].
    cbn [app]. rewrite <- (app_nil_r (c :: t)) at 1.
    apply rep_first; [exact Ht | cbn; lia | exact I | exact I | reflexivity].
Qed.

Lemma sectionLoop_body (body : list jsstring) :
  forall (i : Z) (done : list SectionInfo) (lvl : Z) (t : jsstring)
         (collected : list jsstring) (start : Z),
  Forall (fun line => isHeading line = false) body ->
  sectionLoop i body
    (mkSectionScan done (Some (mkOpenSection lvl t collected start))) =
  mkSectionScan done (Some (mkOpenSection lvl t (collected ++ body) start)).
Proof.
  induction body as [|line body IH]; intros i done lvl t collected start Hb.
  - cbn [sectionLoop]. now rewrite app_nil_r.
  - inversion Hb as [|? ? Hl Hb']; subst. cbn [sectionLoop].
    unfold sectionStep at 1. unfold isHeading in Hl.
    destruct (headingMatch line); [discriminate |].
    cbn [currentSection sections openLevel openTitle openContent openLineStart].
    rewrite IH by exact Hb'. now rewrite <- app_assoc.
Qed.

(** X15. A section written out and read back: the document made of the
    heading line of a level from 1 to 6 and a title whose first character
    is not white space and which holds no line terminator, followed by
    lines that are not headings, gives exactly one section, with that
    level, the title trimmed, and those lines for content. *)
Theorem extractSections_renderHeading (n : nat) (c : N) (t : jsstring)
    (body : list jsstring) :
  (1 <= n <= 6)%nat ->
  isWhiteSpace c = false ->
  forallb isDot (c :: t) = true ->
  Forall (fun line => isHeading line = false) body ->
  Forall (Forall (fun x => x <> NEWLINE)) body ->
  extractSections (join [NEWLINE] (renderHeading n (c :: t) :: body)) =
  [mkSectionInfo (Z.of_nat n) (trim (c :: t)) (join [NEWLINE] body) 0
     (Z.of_nat (List.length body))].
Proof.
  intros Hn Hc Ht Hb Hnl. unfold extractSections.
  rewrite split_join; [| discriminate |].
  2: { constructor; [| exact Hnl]. unfold renderHeading.
       apply Forall_app. split.
       - apply Forall_forall. intros x Hx. apply repeat_spec in Hx. subst. discriminate.
       - constructor; [discriminate |].
         apply forallb_Forall in Ht. eapply Forall_impl; [| exact Ht].
         intros x Hx ->. discriminate. }
  cbn [sectionLoop]. unfold sectionStep at 1.
  rewrite headingMatch_render by assumption.
  cbn [currentSection sections]. rewrite sectionLoop_body by exact Hb.
  unfold finish, closeSection.
  cbn [currentSection sections openLevel openTitle openContent openLineStart app
       List.length].
  rewrite repeat_length. do 2 f_equal. lia.
Qed.

(** The theorem at the section [## Pay] with the line [x] for content. *)
Lemma extractSections_renderHeading_witness :
  extractSections (join [NEWLINE] [renderHeading 2 (lit "Pay"); lit "x"]) =
  [mkSectionInfo 2 (lit "Pay") (lit "x") 0 1].
Proof.
  apply (@extractSections_renderHeading 2 80%N (lit "ay") [lit "x"]).
  - lia.
  - reflexivity.
  - reflexivity.
  - repeat constructor.
  - repeat constructor; discriminate.
Defined.

End HeadingProofs.

(* ===================================================================== *)
(** * The title of a document *)
(* ===================================================================== *)

Module TitleProofs.
Import JS DocIndexer Spec JSFacts.

Lemma find_last (A : Type) (p : A -> bool) (l : list A) (x : A) :
  List.find p (l ++ [x]) =
  match List.find p l with
  | Some y => Some y
  | None => if p x then Some x else None
  end.
Proof.
  induction l as [|a l IH]; cbn [app List.find]; [reflexivity |].
  destruct (p a); [reflexivity | exact IH].
Qed.

Lemma find_truthy (l : list jsstring) (t : jsstring) :
  List.find truthy l = Some t -> truthy t = true.
Proof. intros H. now apply find_some in H. Qed.

Lemma truthy_false (t : jsstring) : truthy t = false -> t = [].
Proof. destruct t; [reflexivity | discriminate]. Qed.

Section Title.
Context {host : Host}.

Lemma closed_titles (st : ParseState) :
  List.map sectionTitle
    match currentSection st with
    | Some cur => parsedSections st ++ [closeSection cur]
    | None => parsedSections st
    end = scanTitles st.
Proof.
  unfold scanTitles. destruct (currentSection st) as [cur|].
  - now rewrite map_app.
  - now rewrite app_nil_r.
Qed.

Lemma parseStep_titled (st : ParseState) (line : jsstring) :
  titled st -> titled (parseStep st line).
Proof.
  unfold titled, parseStep. intros H.
  destruct (MarkdownParser.headingMatch line) as [[g1 g2]|].
  - unfold scanTitles at 1.
    cbn [parsedSections parsedTitle currentSection openTitle].
    rewrite closed_titles. unfold firstTitle in *. rewrite find_last.
    destruct (List.find truthy (scanTitles st)) as [t|] eqn:E.
    + rewrite H. now rewrite (find_truthy _ E).
    + rewrite H. change (truthy []) with false. cbv iota.
      destruct (truthy (trim g2)) eqn:Et; [reflexivity |].
      now apply truthy_false.
  - destruct (currentSection st) as [cur|] eqn:Ec; [| exact H].
    unfold scanTitles in *. rewrite Ec in H.
    cbn [parsedSections parsedTitle currentSection openTitle]. exact H.
Qed.

Lemma parseLoop_titled (lines : list jsstring) :
  forall st, titled st -> titled (fold_left parseStep lines st).
Proof.
  induction lines as [|line lines IH]; intros st H; [exact H |].
  cbn [fold_left]. apply IH, parseStep_titled, H.
Qed.

(** X16. The title of a document is the title of its first section
    whose title is not empty, and [Untitled] when it has none: a first
    heading whose text trims to nothing does not give the title.  The
    title is never empty. *)
Theorem parseMarkdown_title (content : jsstring) :
  fst (parseMarkdown content) =
  match firstTitle (List.map sectionTitle (snd (parseMarkdown content))) with
  | Some t => t
  | None => UNTITLED
  end /\
  fst (parseMarkdown content) <> [].
Proof.
  unfold parseMarkdown. cbn [fst snd].
  set (st := fold_left parseStep (split NEWLINE content) (mkParseState [] [] None)).
  assert (H : titled st) by (apply parseLoop_titled; reflexivity).
  rewrite closed_titles. unfold titled in H. rewrite H.
  unfold firstTitle. destruct (List.find truthy (scanTitles st)) as [t|] eqn:E.
  - rewrite (find_truthy _ E). split; [reflexivity |].
    apply find_truthy in E. destruct t; discriminate.
  - split; [reflexivity | discriminate].
Qed.

End Title.

End TitleProofs.

(* ===================================================================== *)
(** * The cells and the raw text of a table *)
(* ===================================================================== *)

Module CellProofs.
Import JS MarkdownParser Spec JSFacts.

Lemma splitCells_clean (line : jsstring) : Forall cleanCell (splitCells line).
Proof.
  unfold splitCells. apply Forall_forall. intros cell Hc.
  apply filter_In in Hc as [Hin Hlen].
  apply in_map_iff in Hin as [piece [<- _]]. split.
  - intros E. rewrite E in Hlen. discriminate.
  - apply HeadingProofs.trim_idempotent.
Qed.

Lemma parseRow_clean (rows : list TableRow) (rowLine : jsstring) :
  Forall (fun row =>
            cells row <> [] /\
            Forall (fun cell => cleanCell (cellContent cell) /\ isHeader cell = false)
              (cells row)) rows ->
  Forall (fun row =>
            cells row <> [] /\
            Forall (fun cell => cleanCell (cellContent cell) /\ isHeader cell = false)
              (cells row)) (parseRow rows rowLine).
Proof.
  intros H. unfold parseRow.
  destruct (List.map (fun cell => mkTableCell cell false) (splitCells rowLine))
    as [|cell rowCells] eqn:E; [exact H |].
  cbn [List.length Nat.ltb Nat.leb]. apply Forall_app. split; [exact H |].
  constructor; [| constructor]. cbn [cells]. split; [discriminate |].
  rewrite <- E. apply Forall_forall. intros x Hx.
  apply in_map_iff in Hx as [content [<- Hin]]. cbn [cellContent isHeader].
  split; [| reflexivity].
  pose proof (splitCells_clean rowLine) as Hclean.
  rewrite Forall_forall in Hclean. now apply Hclean.
Qed.

Lemma parseRows_clean (lines : list jsstring) :
  forall rows,
  Forall (fun row =>
            cells row <> [] /\
            Forall (fun cell => cleanCell (cellContent cell) /\ isHeader cell = false)
              (cells row)) rows ->
  Forall (fun row =>
            cells row <> [] /\
            Forall (fun cell => cleanCell (cellContent cell) /\ isHeader cell = false)
              (cells row)) (fold_left parseRow lines rows).
Proof.
  induction lines as [|line lines IH]; intros rows H; [exact H |].
  cbn [fold_left]. apply IH, parseRow_clean, H.
Qed.

Lemma parseTable_clean (tableText : jsstring) (table : Table) :
  parseTable tableText = Some table -> cleanTable table /\ raw table = tableText.
Proof.
  unfold parseTable.
  destruct (Nat.ltb _ 2); [discriminate |]. intros E; injection E as <-.
  split; [| reflexivity]. split; cbn [headers rows].
  - apply splitCells_clean.
  - apply parseRows_clean. constructor.
Qed.

(** What the scan of [extractTables] keeps: the lines collected start
    with a pipe once trimmed and hold no line feed; every table pushed is
    clean, and its raw text is made of two such lines or more. *)
Lemma flushTable_tables (P : Table -> Prop) (reset : bool) (st : TableScan) :
  (forall table,
     (2 <= List.length (currentTable st))%nat ->
     parseTable (join [NEWLINE] (currentTable st)) = Some table -> P table) ->
  Forall P (tables st) ->
  Forall P (tables (flushTable reset st)).
Proof.
  intros Hnew H. unfold flushTable.
  destruct (inTable st); cbn [andb]; [| exact H].
  destruct (Nat.leb_spec 2 (List.length (currentTable st))) as [Hlen |]; [| exact H].
  assert (Forall P
            match parseTable (join [NEWLINE] (currentTable st)) with
            | Some table => tables st ++ [table]
            | None => tables st
            end) as H'.
  { destruct (parseTable (join [NEWLINE] (currentTable st))) as [table|] eqn:E;
      [| exact H].
    apply Forall_app. split; [exact H |]. constructor; [| constructor].
    now apply Hnew. }
  destruct reset; exact H'.
Qed.

Lemma flushTable_currentTable (P : jsstring -> Prop) (reset : bool) (st : TableScan) :
  Forall P (currentTable st) -> Forall P (currentTable (flushTable reset st)).
Proof.
  intros H. unfold flushTable.
  destruct (inTable st && Nat.leb 2 (List.length (currentTable st)))%bool; [| exact H].
  destruct reset; [constructor | exact H].
Qed.

Lemma tableStep_currentTable (st : TableScan) (line : jsstring) :
  Forall (fun l => startsWith (trim l) [PIPE] = true /\ Forall (fun c => c <> NEWLINE) l)
    (currentTable st) ->
  Forall (fun c => c <> NEWLINE) line ->
  Forall (fun l => startsWith (trim l) [PIPE] = true /\ Forall (fun c => c <> NEWLINE) l)
    (currentTable (tableStep st line)).
Proof.
  intros H Hl. unfold tableStep.
  destruct (startsWith (trim line) [PIPE]) eqn:Hp; cbn [andb].
  - destruct (endsWith (trim line) [PIPE]).
    + cbn [currentTable]. apply Forall_app. split.
      * destruct (inTable st); [exact H | constructor].
      * repeat constructor; assumption.
    + destruct (inTable st); [| exact H].
      cbn [currentTable]. apply Forall_app. split; [exact H |].
      repeat constructor; assumption.
  - now apply flushTable_currentTable.
Qed.

Lemma tableStep_tables (P : Table -> Prop) (st : TableScan) (line : jsstring) :
  (forall table,
     (2 <= List.length (currentTable st))%nat ->
     parseTable (join [NEWLINE] (currentTable st)) = Some table -> P table) ->
  Forall P (tables st) ->
  Forall P (tables (tableStep st line)).
Proof.
  intros Hnew H. unfold tableStep.
  destruct (startsWith (trim line) [PIPE] && endsWith (trim line) [PIPE])%bool;
    [exact H |].
  destruct (startsWith (trim line) [PIPE]).
  - destruct (inTable st); exact H.
  - now apply flushTable_tables.
Qed.

Lemma joined_lines (ls : list jsstring) (table : Table) :
  Forall (fun l => startsWith (trim l) [PIPE] = true /\ Forall (fun c => c <> NEWLINE) l) ls ->
  (2 <= List.length ls)%nat ->
  parseTable (join [NEWLINE] ls) = Some table ->
  (2 <= List.length (split NEWLINE (raw table)))%nat /\
  Forall (fun l => startsWith (trim l) [PIPE] = true) (split NEWLINE (raw table)).
Proof.
  intros H Hlen E. apply parseTable_clean in E as [_ ->].
  rewrite split_join.
  - split; [exact Hlen |]. eapply Forall_impl; [| exact H]. now intros l [Hl _].
  - destruct ls; [cbn in Hlen; lia | discriminate].
  - eapply Forall_impl; [| exact H]. now intros l [_ Hl].
Qed.

Lemma tableLoop (P : Table -> Prop) (lines : list jsstring) :
  (forall ls table,
     Forall (fun l => startsWith (trim l) [PIPE] = true /\ Forall (fun c => c <> NEWLINE) l)
       ls ->
     (2 <= List.length ls)%nat ->
     parseTable (join [NEWLINE] ls) = Some table -> P table) ->
  Forall (Forall (fun c => c <> NEWLINE)) lines ->
  forall st,
  Forall (fun l => startsWith (trim l) [PIPE] = true /\ Forall (fun c => c <> NEWLINE) l)
    (currentTable st) ->
  Forall P (tables st) ->
  Forall P (tables (flushTable false (fold_left tableStep lines st))).
Proof.
  intros HP Hlines. induction Hlines as [|line lines Hl _ IH]; intros st Hc Ht.
  - cbn [fold_left]. apply flushTable_tables; [| exact Ht].
    intros table. now apply HP.
  - cbn [fold_left]. apply IH.
    + now apply tableStep_currentTable.
    + apply tableStep_tables; [| exact Ht]. intros table. now apply HP.
Qed.

(** X17. In every table of [extractTables] the headers and the cells are
    trimmed and not empty, every row has a cell, and no cell is marked as
    a header cell. *)
Theorem extractTables_clean (content : jsstring) :
  Forall cleanTable (extractTables content).
Proof.
  unfold extractTables. apply tableLoop.
  - intros ls table _ _ E. now apply parseTable_clean in E.
  - apply split_lines.
  - constructor.
  - constructor.
Qed.

(** X18. The raw text of every table of [extractTables] is made of two
    lines or more, and each of them, once trimmed, starts with a pipe: the
    text between two tables is never part of a table. *)
Theorem extractTables_raw (content : jsstring) :
  Forall (fun table =>
            (2 <= List.length (split NEWLINE (raw table)))%nat /\
            Forall (fun l => startsWith (trim l) [PIPE] = true)
              (split NEWLINE (raw table)))
    (extractTables content).
Proof.
  unfold extractTables. apply tableLoop.
  - intros ls table. apply joined_lines.
  - apply split_lines.
  - constructor.
  - constructor.
Qed.

Lemma filledCell_In (row : TableRow) (column : nat) (x : jsstring) :
  filledCell row column = Some x ->
  exists cell, In cell (cells row) /\ cellContent cell = x.
Proof.
  unfold filledCell.
  destruct (nth_error (cells row) column) as [cell|] eqn:E; [| discriminate].
  destruct (cellContent cell) as [|c t] eqn:Ec; [discriminate |].
  intros H; injection H as <-. exists cell. split; [| exact Ec].
  eapply nth_error_In; exact E.
Qed.

Lemma rowEndpoint_clean (a m e : nat) (row : TableRow) :
  Forall (fun cell => cleanCell (cellContent cell) /\ isHeader cell = false) (cells row) ->
  Forall (fun x => cleanCell (api x) /\ cleanCell (method x) /\ cleanCell (endpoint x))
    (rowEndpoint a m e row).
Proof.
  intros H. rewrite Forall_forall in H. unfold rowEndpoint.
  destruct (filledCell row a) as [x|] eqn:Ea; [| constructor].
  destruct (filledCell row m) as [y|] eqn:Em; [| constructor].
  destruct (filledCell row e) as [z|] eqn:Ee; [| constructor].
  apply filledCell_In in Ea as [ca [Ha <-]].
  apply filledCell_In in Em as [cm [Hm <-]].
  apply filledCell_In in Ee as [ce [He <-]].
  constructor; [| constructor]. cbn [api method endpoint].
  repeat split; now apply H.
Qed.

Lemma rowEndpoint_length (a m e : nat) (row : TableRow) :
  (List.length (rowEndpoint a m e row) <= 1)%nat.
Proof.
  unfold rowEndpoint.
  destruct (filledCell row a), (filledCell row m), (filledCell row e); cbn; lia.
Qed.

Lemma flat_map_length_le (A B : Type) (f : A -> list B) (l : list A) :
  (forall x, (List.length (f x) <= 1)%nat) ->
  (List.length (flat_map f l) <= List.length l)%nat.
Proof.
  intros H. induction l as [|x l IH]; [cbn; lia |].
  cbn [flat_map List.length]. rewrite length_app. specialize (H x). lia.
Qed.

Section Endpoints.
Context {host : Host}.

Lemma tableEndpoints_clean (table : Table) :
  cleanTable table ->
  Forall (fun x => cleanCell (api x) /\ cleanCell (method x) /\ cleanCell (endpoint x))
    (tableEndpoints table).
Proof.
  intros [_ Hrows]. unfold tableEndpoints.
  destruct (firstIndex apiHeader (headers table)) as [a|]; [| constructor].
  destruct (firstIndex methodHeader (headers table)) as [m|]; [| constructor].
  destruct (firstIndex endpointHeader (headers table)) as [e|]; [| constructor].
  induction Hrows as [|row rows [_ Hrow] _ IH]; [constructor |].
  cbn [flat_map]. apply Forall_app. split; [now apply rowEndpoint_clean | exact IH].
Qed.

Lemma tableEndpoints_length (table : Table) :
  (List.length (tableEndpoints table) <= List.length (rows table))%nat.
Proof.
  unfold tableEndpoints.
  destruct (firstIndex apiHeader (headers table)) as [a|]; [| cbn; lia].
  destruct (firstIndex methodHeader (headers table)) as [m|]; [| cbn; lia].
  destruct (firstIndex endpointHeader (headers table)) as [e|]; [| cbn; lia].
  apply flat_map_length_le. intros row. apply rowEndpoint_length.
Qed.

(** X21. Every triple of [extractAPIEndpoints] has three fields that are
    trimmed and not empty, and there are no more triples than rows in the
    tables of the document. *)
Theorem extractAPIEndpoints_filled (content : jsstring) :
  Forall (fun x => cleanCell (api x) /\ cleanCell (method x) /\ cleanCell (endpoint x))
    (extractAPIEndpoints content) /\
  (List.length (extractAPIEndpoints content) <=
   List.length (flat_map rows (extractTables content)))%nat.
Proof.
  unfold extractAPIEndpoints. rewrite EndpointProofs.endpointTables. cbn [app].
  assert (Hclean : Forall cleanTable (extractTables content)).
  { unfold extractTables. apply tableLoop.
    - intros ls table _ _ E. now apply parseTable_clean in E.
    - apply split_lines.
    - constructor.
    - constructor. }
  split.
  - induction Hclean as [|table tables Ht _ IH]; [constructor |].
    cbn [flat_map]. apply Forall_app. split; [now apply tableEndpoints_clean | exact IH].
  - clear Hclean. induction (extractTables content) as [|table tables IH]; [cbn; lia |].
    cbn [flat_map]. rewrite !length_app.
    pose proof (tableEndpoints_length table). lia.
Qed.

End Endpoints.

End CellProofs.

(* ===================================================================== *)
(** * The order and the number of the keywords *)
(* ===================================================================== *)

Module KeywordOrder.
Import JS DocIndexer Spec.

Lemma addAll_prefix (f : jsstring -> jsstring) (words : list jsstring) :
  forall set,
  exists rest,
    fold_left (fun set word => setAdd set (f word)) words set = set ++ rest /\
    (List.length rest <= List.length words)%nat.
Proof.
  induction words as [|w words IH]; intros set; cbn [fold_left].
  - exists []. now rewrite app_nil_r.
  - destruct (IH (setAdd set (f w))) as [rest [E Hlen]]. rewrite E.
    unfold setAdd. destruct (existsb (streq (f w)) set).
    + exists rest. split; [reflexivity | cbn; lia].
    + exists (f w :: rest). rewrite <- app_assoc. split; [reflexivity | cbn; lia].
Qed.

Section Keywords.
Context {host : Host}.

(** X19. The keywords of the title come first, whatever the content: the
    keywords of a document are those of its title alone, followed by at
    most fifty keywords from the content. *)
Theorem extractKeywords_title_first (title content : jsstring) :
  exists rest,
    extractKeywords title content = extractKeywords title [] ++ rest /\
    (List.length rest <= 50)%nat.
Proof.
  unfold extractKeywords. cbn [execAll List.filter firstn fold_left].
  set (keywords := fold_left _ _ []).
  destruct (addAll_prefix toLowerCase
              (firstn 50 (List.filter (fun w => Nat.ltb 2 (List.length w))
                            (execAll wordPatternAt 0 content))) keywords)
    as [rest [E Hlen]].
  exists rest. split; [exact E |].
  etransitivity; [exact Hlen |]. apply firstn_le_length.
Qed.

End Keywords.

End KeywordOrder.

(* ===================================================================== *)
(** * The characters of an anchor *)
(* ===================================================================== *)

Module AnchorCharacters.
Import JS DocIndexer Spec.

Lemma replaceRuns_hasPair (x : N) (s : jsstring) :
  forall inRun,
  hasPair x (replaceRuns (isChar x) [x] inRun s) = false /\
  (inRun = true ->
   match replaceRuns (isChar x) [x] inRun s with
   | [] => True
   | c :: _ => c <> x
   end).
Proof.
  induction s as [|c s IH]; intros inRun; cbn [replaceRuns]; [now split |].
  change (isChar x c) with (N.eqb c x). destruct (N.eqb_spec c x) as [-> | Hc].
  - destruct (IH true) as [Hp Hh]. specialize (Hh eq_refl).
    destruct inRun; cbn [app]; [now split |].
    split; [| discriminate].
    destruct (replaceRuns (isChar x) [x] true s) as [|d t] eqn:E; [reflexivity |].
    cbn [hasPair]. cbn [hasPair] in Hp. rewrite Hp.
    destruct (N.eqb_spec d x); [contradiction |].
    now rewrite andb_false_r.
  - destruct (IH false) as [Hp _]. split; [| now intros _].
    destruct (replaceRuns (isChar x) [x] false s) as [|d t] eqn:E; [reflexivity |].
    cbn [hasPair]. cbn [hasPair] in Hp. rewrite Hp.
    destruct (N.eqb_spec c x); [contradiction | reflexivity].
Qed.

Section Anchor.
Context {host : Host}.

Lemma generateAnchor_anchorCollapsed (title : jsstring) :
  generateAnchor title = anchorCollapsed title.
Proof.
  unfold generateAnchor, removeAll. erewrite filter_ext.
  - apply AnchorProofs.trim_id, AnchorProofs.anchorCollapsed_no_space.
  - intros c. apply negb_involutive.
Qed.

(** X20. An anchor is made of word characters (letters, digits and the
    underscore) and hyphens only, and never has two hyphens next to each
    other. *)
Theorem generateAnchor_characters (title : jsstring) :
  Forall (fun c => isWord c = true \/ c = HYPHEN) (generateAnchor title) /\
  hasPair HYPHEN (generateAnchor title) = false.
Proof.
  rewrite generateAnchor_anchorCollapsed. unfold anchorCollapsed. split.
  - apply AnchorProofs.replaceRuns_Forall; [repeat constructor; now right |].
    eapply Forall_impl; [intros c H _; exact H |].
    apply AnchorProofs.replaceRuns_Forall; [repeat constructor; now right |].
    unfold anchorCharacters. apply Forall_forall. intros c Hc Hw.
    apply filter_In in Hc as [_ Hc]. rewrite Hw, orb_false_r in Hc.
    apply orb_true_iff in Hc as [Hc | Hc]; [now left |].
    right. unfold isChar in Hc. now apply N.eqb_eq in Hc.
  - apply replaceRuns_hasPair.
Qed.

End Anchor.

End AnchorCharacters.

(* ===================================================================== *)
(** * The links: exceptions and texts *)
(* ===================================================================== *)

Module LinkShape.
Import JS MarkdownParser Spec MatcherFacts.

Lemma linkTail_link (origin g1 g2 s5 : jsstring) (l : Link) (n : nat) :
  linkTail origin g1 g2 s5 = Some (l, n) -> text l = g1 /\ url l = g2.
Proof.
  unfold linkTail, opt.
  destruct (rep isWhiteSpace 1 None [] s5 _) as [[l' n']|] eqn:E.
  - intros H; injection H as -> ->.
    apply rep_some in E as [a [s6 E]].
    apply chr_some in E as [s7 [_ E]].
    apply rep_some in E as [g3 [s8 E]].
    apply chr_some in E as [s9 [_ E]].
    apply chr_some in E as [s10 [_ E]].
    injection E as <- _. now split.
  - intros H. apply chr_some in H as [s10 [_ H]].
    injection H as <- _. now split.
Qed.

Lemma group1_text (s : jsstring) (g1 : jsstring) :
  forallb (isNotChar RBRACKET) g1 = true -> (1 <= List.length g1)%nat ->
  g1 <> [] /\ Forall (fun c => c <> RBRACKET) g1.
Proof.
  intros Hrun Hlen. split; [destruct g1; [cbn in Hlen; lia | discriminate] |].
  apply Forall_forall. intros c Hc. rewrite forallb_forall in Hrun.
  specialize (Hrun c Hc). unfold isNotChar in Hrun.
  destruct (N.eqb_spec c RBRACKET); [discriminate | assumption].
Qed.

Lemma linkPatternAt_text (s : jsstring) (l : Link) (n : nat) :
  linkPatternAt s = Some (l, n) ->
  text l <> [] /\ Forall (fun c => c <> RBRACKET) (text l).
Proof.
  unfold linkPatternAt. intros H.
  apply chr_some in H as [s1 [_ H]].
  apply rep_run in H as [g1 [s2 [Hrun [Hlen [_ [_ H]]]]]]. cbn [app] in *.
  apply chr_some in H as [s3 [_ H]].
  apply chr_some in H as [s4 [_ H]].
  apply rep_some in H as [g2 [s5 H]].
  apply linkTail_link in H as [-> _].
  now apply (group1_text s).
Qed.

Lemma referenceLinkPatternAt_text (s : jsstring) (g : jsstring * jsstring) (n : nat) :
  referenceLinkPatternAt s = Some (g, n) ->
  fst g <> [] /\ Forall (fun c => c <> RBRACKET) (fst g).
Proof.
  unfold referenceLinkPatternAt. intros H.
  apply chr_some in H as [s1 [_ H]].
  apply rep_run in H as [g1 [s2 [Hrun [Hlen [_ [_ H]]]]]]. cbn [app] in *.
  apply chr_some in H as [s3 [_ H]].
  apply chr_some in H as [s4 [_ H]].
  apply rep_some in H as [g2 [s5 H]].
  apply chr_some in H as [s6 [_ H]].
  injection H as <- _. cbn [fst].
  now apply (group1_text s).
Qed.

Section Links.
Variable regExpExec : jsstring -> jsstring -> RegExpExec.

Lemma referenceLinks_text (content : jsstring) (matches : list (jsstring * jsstring)) :
  Forall (fun g => fst g <> [] /\ Forall (fun c => c <> RBRACKET) (fst g)) matches ->
  forall links result,
  Forall (fun l => text l <> [] /\ Forall (fun c => c <> RBRACKET) (text l)) links ->
  referenceLinks regExpExec content matches links = Normal result ->
  Forall (fun l => text l <> [] /\ Forall (fun c => c <> RBRACKET) (text l)) result.
Proof.
  induction 1 as [|[g1 g2] rest Hg _ IH]; intros links result Hl; cbn [referenceLinks].
  - intros E; injection E as <-. exact Hl.
  - destruct (regExpExec _ content) as [| |ref1]; [discriminate | now apply IH |].
    apply IH. apply Forall_app. split; [exact Hl |].
    constructor; [exact Hg | constructor].
Qed.

(** X23. When [extractLinks] returns, every link has a text that is not
    empty and holds no closing bracket. *)
Theorem extractLinks_text (content : jsstring) (result : list Link) :
  extractLinks regExpExec content = Normal result ->
  Forall (fun l => text l <> [] /\ Forall (fun c => c <> RBRACKET) (text l)) result.
Proof.
  unfold extractLinks. apply referenceLinks_text.
  - apply execAll_Forall. exact referenceLinkPatternAt_text.
  - apply execAll_Forall. exact linkPatternAt_text.
Qed.

Lemma referenceLinks_throw (content : jsstring) (matches : list (jsstring * jsstring)) :
  forall links,
  referenceLinks regExpExec content matches links = Throw <->
  exists g1 g2,
    In (g1, g2) matches /\
    regExpExec (refDefinitionSource g2) content = RegExpSyntaxError.
Proof.
  induction matches as [|[g1 g2] rest IH]; intros links; cbn [referenceLinks].
  - split; [discriminate | intros [a [b [[] _]]]].
  - destruct (regExpExec (refDefinitionSource g2) content) as [| |ref1] eqn:E.
    + split; [intros _ | reflexivity]. exists g1, g2. split; [now left | exact E].
    + rewrite IH. split; intros [a [b [Hin Hb]]]; exists a, b.
      * split; [now right | exact Hb].
      * destruct Hin as [Heq | Hin]; [| now split].
        injection Heq as <- <-. congruence.
    + rewrite IH. split; intros [a [b [Hin Hb]]]; exists a, b.
      * split; [now right | exact Hb].
      * destruct Hin as [Heq | Hin]; [| now split].
        injection Heq as <- <-. congruence.
Qed.

(** X24. [extractLinks] throws exactly when the pattern built from the
    reference of one of the reference links of the document is refused by
    the engine; a document without reference link never makes it throw. *)
Theorem extractLinks_throws (content : jsstring) :
  extractLinks regExpExec content = Throw <->
  exists g1 g2,
    In (g1, g2) (execAll referenceLinkPatternAt 0 content) /\
    regExpExec (refDefinitionSource g2) content = RegExpSyntaxError.
Proof.
  unfold extractLinks. apply referenceLinks_throw.
Qed.

End Links.

(** The theorem on the inline link with a title. *)
Lemma extractLinks_text_witness :
  Forall (fun l => text l <> [] /\ Forall (fun c => c <> RBRACKET) (text l))
    [mkLink (lit "a") titledLinkUrl None].
Proof.
  apply (@extractLinks_text noDefinition titledLink). reflexivity.
Defined.

(** No title on the inline link written with a title. *)
Lemma extractLinks_untitled_witness :
  Forall (fun l => linkTitle l = None) [mkLink (lit "a") titledLinkUrl None].
Proof.
  apply (@LinkProofs.extractLinks_untitled noDefinition titledLink). reflexivity.
Defined.

End LinkShape.

(* ===================================================================== *)
(** * Looking up a section of an indexed document *)
(* ===================================================================== *)

Module LookupProofs.
Import JS DocIndexer Spec JSFacts.

Lemma find_In (A : Type) (p : A -> bool) (l : list A) (x : A) :
  In x l -> p x = true -> exists y, List.find p l = Some y.
Proof.
  induction l as [|a l IH]; intros Hin Hp; [destruct Hin |].
  cbn [List.find]. destruct (p a) eqn:E; [eauto |].
  destruct Hin as [-> | Hin]; [congruence | now apply IH].
Qed.

Section Lookup.
Context {host : Host}.

(** X28. Once a file is indexed, looking up one of its sections by the
    section's own title always finds a section of that file whose title
    contains the title asked for, in lower case: the first such section,
    which need not be the one asked for. *)
Theorem findSection_indexed (index : Index) (filePath relativePath content : jsstring)
    (s : DocumentSection) :
  In s (snd (parseMarkdown content)) ->
  exists found,
    findSection (snd (indexFile (FsFile (Some content)) filePath relativePath index))
      relativePath (sectionTitle s) = Some found /\
    In found (snd (parseMarkdown content)) /\
    includes (toLowerCase (sectionTitle found)) (toLowerCase (sectionTitle s)) = true.
Proof.
  intros Hin. unfold findSection, getDocument.
  cbn [indexFile tryCatch bind readFileSync snd].
  change (snd (indexFile (FsFile (Some content)) filePath relativePath index))
    with (mapSet relativePath (indexedDocument relativePath filePath content) index).
  rewrite IndexProofs.mapGet_mapSet, IndexProofs.streq_refl.
  cbn [sections indexedDocument].
  destruct (@find_In _
              (fun section =>
                 includes (toLowerCase (sectionTitle section))
                   (toLowerCase (sectionTitle s)))
              (snd (parseMarkdown content)) s Hin (includes_refl _)) as [found E].
  exists found. split; [exact E |].
  apply find_some in E. exact E.
Qed.

(** X29. An empty section title selects the first section of the
    document, whatever its title. *)
Theorem findSection_empty (index : Index) (filePath : jsstring) (doc : DocumentIndex) :
  getDocument index filePath = Some doc ->
  findSection index filePath [] = hd_error (sections doc).
Proof.
  intros E. unfold findSection. rewrite E.
  rewrite (@toLowerCase_plain host []) by constructor. cbn [List.map].
  destruct (sections doc) as [|section rest]; [reflexivity |].
  cbn [List.find hd_error]. now rewrite includes_nil.
Qed.

End Lookup.

(** The theorem on the file [# Pay]. *)
Lemma findSection_indexed_witness :
  exists found,
    findSection (host := asciiHost)
      (snd (indexFile (host := asciiHost) (FsFile (Some (lit "# Pay")))
              (lit "/docs/api/pay.md") (lit "api/pay.md") []))
      (lit "api/pay.md") (lit "Pay") = Some found /\
    In found (snd (parseMarkdown (host := asciiHost) (lit "# Pay"))) /\
    includes (@toLowerCase asciiHost (sectionTitle found))
      (@toLowerCase asciiHost (lit "Pay")) = true.
Proof.
  apply (@findSection_indexed asciiHost [] (lit "/docs/api/pay.md") (lit "api/pay.md")
           (lit "# Pay") (mkDocumentSection 1 (lit "Pay") [] (lit "pay"))).
  left. reflexivity.
Defined.

(** The theorem on the index of a file of two sections: the empty title
    selects the first one. *)
Lemma findSection_empty_witness :
  findSection (host := asciiHost)
    (snd (indexFile (host := asciiHost) (FsFile (Some twoSections))
            (lit "/docs/api/pay.md") (lit "api/pay.md") []))
    (lit "api/pay.md") [] =
  Some (mkDocumentSection 1 (lit "Intro") (lit "text") (lit "intro")).
Proof.
  exact (@findSection_empty asciiHost
           (snd (indexFile (host := asciiHost) (FsFile (Some twoSections))
                   (lit "/docs/api/pay.md") (lit "api/pay.md") []))
           (lit "api/pay.md")
           (indexedDocument (host := asciiHost) (lit "api/pay.md")
              (lit "/docs/api/pay.md") twoSections)
           eq_refl).
Defined.

(** With every directory listable, the build returns though a file
    cannot be read. *)
Lemma buildIndex_normal_witness :
  fst (buildIndex (host := asciiHost) (lit "/docs") readableRoot oldIndex) = Normal tt.
Proof.
  apply (@BuildProofs.buildIndex_normal asciiHost (lit "/docs") readableRoot oldIndex).
  reflexivity.
Defined.

(** A header line and a separator line. *)
Lemma extractTables_header_separator_cells_witness :
  exists table,
    MarkdownParser.extractTables (lit "| a |" ++ NEWLINE :: lit "|--|") = [table] /\
    MarkdownParser.headers table <> [] /\ MarkdownParser.rows table = [].
Proof.
  apply (@TableProofs.extractTables_header_separator_cells (lit "| a |") (lit "|--|") 97%N).
  - reflexivity.
  - reflexivity.
  - repeat constructor; discriminate.
  - repeat constructor; discriminate.
  - right. right. now left.
  - discriminate.
  - reflexivity.
Defined.

End LookupProofs.
